(** * FirmDiscrete: the firm's problem with non-convex adjustment costs

    A shallow embedding of the notebook [DynamicProgramming/FirmDiscrete.ipynb]:
    the capital grid (cell 1), the flow payoffs (cell 3), [create_Vmat]
    (cell 5), the value-function iteration with its report and the policy
    loop (cell 7), the capital levels of the policy (cell 9) and the curves
    of the investment plot (cell 10).

    Numbers.  The value-function iteration only adds, multiplies, subtracts
    and compares [np.float64] values, so it is embedded over Rocq's binary64
    floats ([PrimFloat]), NaN and the infinities included.  Two things of
    the iteration are the library's own and not fixed by the notebook: the
    routine behind [np.dot], which is a parameter of the embedding, and
    which of [0.0] and [-0.0] a maximum returns when both are candidates,
    so the facts about a maximum are stated in the order and the equality
    of binary64 and not as an identity of values.  The transition matrix
    [Pi] (from [ar1.rouwen]) and the flow payoffs [e_a], [e_i] (cell 3,
    which needs the power [**]) are inputs of the solver.  The capital grid
    needs [log] and a fractional power, which binary64 floats do not have
    in Rocq: the grid is embedded over the real numbers, with the special
    values that [np.log] and the division can produce (inf, -inf, nan) kept
    apart; rounding is not modelled there, and the facts proved about the
    grid are those that rounding does not change: which exception is raised,
    the number of points, and strict bounds that hold with a margin.  The
    flow payoffs, the capital levels and the plot are embedded over the
    reals in the same way.

    Errors.  A Python exception is a value: every operation that can raise
    returns a [result]. *)

From Stdlib Require Import ZArith List Lia Bool Reals Lra Floats.
From stdpp Require Import base tactics option list.

(** ** Python exceptions and the error monad *)

Inductive exn : Set :=
| IndexError
| ValueError
| NameError
| OverflowError
| ZeroDivisionError
| TypeError.

Inductive result (A : Type) : Type :=
| Ok (a : A)
| Raise (e : exn).
Arguments Ok {A} a.
Arguments Raise {A} e.

Definition bind {A B : Type} (m : result A) (k : A -> result B) : result B :=
  match m with
  | Ok a => k a
  | Raise e => Raise e
  end.

Declare Scope py_scope.
Delimit Scope py_scope with py.
Notation "'let*' x ':=' m 'in' k" := (bind m (fun x => k))
  (at level 10, x name, m at level 100, k at level 200,
   format "'[v' 'let*'  x  :=  m  'in'  '/' k ']'") : py_scope.
Local Open Scope py_scope.

(** [for i in range(n): body], the loop state threaded through the body. *)
Fixpoint for_range_from {S : Type} (start n : nat)
    (body : nat -> S -> result S) (s : S) : result S :=
  match n with
  | O => Ok s
  | Datatypes.S n' =>
      let* s' := body start s in
      for_range_from (Datatypes.S start) n' body s'
  end.

Definition for_range {S : Type} (n : nat) (body : nat -> S -> result S) (s : S)
  : result S :=
  for_range_from 0 n body s.

(** ** Arrays

    A 2-D array is a list of rows, a 3-D array a list of 2-D arrays.  Reads
    and writes with an index out of range raise [IndexError], as subscripting
    does; the loop indices of the notebook come from [range] and are never
    negative. *)

Abbreviation vector := (list float).
Abbreviation matrix := (list (list float)).
Abbreviation tensor3 := (list (list (list float))).
Abbreviation imatrix := (list (list Z)).

Definition getitem {A : Type} (l : list A) (i : nat) : result A :=
  match l !! i with
  | Some x => Ok x
  | None => Raise IndexError
  end.

Definition setitem {A : Type} (l : list A) (i : nat) (x : A) : result (list A) :=
  if decide (i < length l)%nat then Ok (<[i := x]> l) else Raise IndexError.

Definition getitem2 {A : Type} (M : list (list A)) (i j : nat) : result A :=
  let* row := getitem M i in
  getitem row j.

Definition setitem2 {A : Type} (M : list (list A)) (i j : nat) (x : A)
  : result (list (list A)) :=
  let* row := getitem M i in
  let* row' := setitem row j x in
  setitem M i row'.

Definition getitem3 {A : Type} (T : list (list (list A))) (i j m : nat)
  : result A :=
  let* plane := getitem T i in
  getitem2 plane j m.

Definition setitem3 {A : Type} (T : list (list (list A))) (i j m : nat) (x : A)
  : result (list (list (list A))) :=
  let* plane := getitem T i in
  let* plane' := setitem2 plane j m x in
  setitem T i plane'.

(** Reading a cell, for statements. *)
Definition cell2 {A : Type} (M : list (list A)) (i j : nat) : option A :=
  match M !! i with
  | Some row => row !! j
  | None => None
  end.

Definition cell3 {A : Type} (T : list (list (list A))) (i j m : nat) : option A :=
  match T !! i with
  | Some plane => cell2 plane j m
  | None => None
  end.

(** Shapes. *)
Definition is_matrix {A : Type} (n m : nat) (M : list (list A)) : Prop :=
  length M = n /\ Forall (fun row => length row = m) M.

Definition is_tensor3 {A : Type} (n m p : nat) (T : list (list (list A))) : Prop :=
  length T = n /\ Forall (is_matrix m p) T.

(** The shape of a 2-D array as the list of its row lengths. *)
Definition shape2 {A : Type} (M : list (list A)) : list nat := map length M.

(** [np.zeros((n, m))] and [np.empty((n, m))]; what [np.empty] leaves in the
    cells is whatever the allocator finds there, a function of the index. *)
Definition np_zeros2 (n m : nat) : matrix :=
  replicate n (replicate m PrimFloat.zero).

Definition np_empty2 (junk : nat -> nat -> float) (n m : nat) : matrix :=
  map (fun i => map (fun j => junk i j) (seq 0 m)) (seq 0 n).

Definition np_empty3 (junk : nat -> nat -> nat -> float) (n m p : nat) : tensor3 :=
  map (fun i => np_empty2 (junk i) m p) (seq 0 n).

(** ** NumPy operations on float64 *)

(** [np.maximum(a, b)]: [(a >= b || isnan(a)) ? a : b]. *)
Definition np_maximum (a b : float) : float :=
  if PrimFloat.leb b a || PrimFloat.is_nan a then a else b.

(** [x.max()] of a 1-D array, a left fold of [np.maximum]; a zero-size array
    has no maximum. *)
Definition amax (l : vector) : result float :=
  match l with
  | [] => Raise ValueError
  | x :: xs => Ok (foldl np_maximum x xs)
  end.

(** [np.argmax] of a 1-D array: the first maximum, a NaN counting as one. *)
Fixpoint argmax_from (mp : float) (best i : nat) (l : vector) : nat :=
  match l with
  | [] => best
  | x :: xs =>
      if PrimFloat.is_nan mp then best
      else if negb (PrimFloat.leb x mp) then argmax_from x i (S i) xs
      else argmax_from mp best (S i) xs
  end.

Definition np_argmax (l : vector) : result Z :=
  match l with
  | [] => Raise ValueError
  | x :: xs => Ok (Z.of_nat (argmax_from x 0 1 xs))
  end.

(** [result]-valued map over a list, left to right. *)
Fixpoint map_result {A B : Type} (f : A -> result B) (l : list A)
  : result (list B) :=
  match l with
  | [] => Ok []
  | x :: xs =>
      let* y := f x in
      let* ys := map_result f xs in
      Ok (y :: ys)
  end.

(** [T.max(axis=2)] and [np.argmax(T, axis=2)] of a 3-D array. *)
Definition max_axis2 (T : tensor3) : result matrix :=
  map_result (map_result amax) T.

Definition argmax_axis2 (T : tensor3) : result imatrix :=
  map_result (map_result np_argmax) T.

(** [np.dot(A, B)] of two 2-D arrays: the inner dimensions must agree, and
    entry [(i, m)] of the result is computed from row [i] of [A] and column
    [m] of [B].  The routine that reduces the two to one [float64] is the
    linear-algebra library's: the order in which it adds the products, and
    whether it fuses a product with an addition, are its own, so it is a
    parameter [kernel] here, and every fact below holds for all kernels.
    [dot_vec] is one such routine, the sum from the left starting at [0.0];
    the sample inputs run with it. *)
Definition ncols {A : Type} (M : list (list A)) : nat :=
  match M with
  | [] => 0
  | row :: _ => length row
  end.

Definition column (B : matrix) (m : nat) : vector :=
  omap (fun row => row !! m) B.

Definition dot_vec (a b : vector) : float :=
  foldl (fun acc xy => (acc + fst xy * snd xy)%float) PrimFloat.zero (zip a b).

Definition np_dot (kernel : nat -> nat -> vector -> vector -> float)
    (A B : matrix) : result matrix :=
  if forallb (fun a => Nat.eqb (length a) (length B)) A then
    Ok (imap (fun i a =>
          map (fun m => kernel i m a (column B m)) (seq 0 (ncols B))) A)
  else Raise ValueError.

(** Element-wise binary operation on 2-D arrays of one shape. *)
Definition map2_matrix (f : float -> float -> float) (A B : matrix)
  : result matrix :=
  if bool_decide (shape2 A = shape2 B) then Ok (zip_with (zip_with f) A B)
  else Raise ValueError.

(** ** Python slices *)

(** A slice bound [i] on a sequence of length [len]: a negative bound counts
    from the end, and the result is clipped to [0, len]. *)
Definition slice_bound (len : nat) (i : Z) : nat :=
  Z.to_nat (if (i <? 0)%Z then Z.max 0 (Z.of_nat len + i) else Z.min i (Z.of_nat len)).

(** [l[:stop]] and [l[start:]]. *)
Definition slice_to {A : Type} (l : list A) (stop : Z) : list A :=
  take (slice_bound (length l) stop) l.

Definition slice_from {A : Type} (l : list A) (start : Z) : list A :=
  drop (slice_bound (length l) start) l.

(** Broadcasting a list to length [n]: it has that length already, or it has
    one element, which is repeated. *)
Definition broadcast {A : Type} (n : nat) (src : list A) : result (list A) :=
  if decide (length src = n) then Ok src
  else match src with
       | [x] => Ok (replicate n x)
       | _ => Raise ValueError
       end.

(** [row[start:] = src] and [row[:stop] = src] on one row. *)
Definition assign_from (row : vector) (start : Z) (src : vector) : result vector :=
  let* src' := broadcast (length (slice_from row start)) src in
  Ok (take (slice_bound (length row) start) row ++ src').

Definition assign_to (row : vector) (stop : Z) (src : vector) : result vector :=
  let* src' := broadcast (length (slice_to row stop)) src in
  Ok (src' ++ drop (slice_bound (length row) stop) row).

(** The same on every row of a 2-D array, [M[:, start:] = S] and
    [M[:, :stop] = S], the rows of [S] broadcast to the rows of [M]. *)
Fixpoint zip_result {A B C : Type} (f : A -> B -> result C)
    (l : list A) (k : list B) : result (list C) :=
  match l, k with
  | x :: xs, y :: ys =>
      let* z := f x y in
      let* zs := zip_result f xs ys in
      Ok (z :: zs)
  | _, _ => Ok []
  end.

Definition assign_cols_from (M : matrix) (start : Z) (S : matrix) : result matrix :=
  let* S' := broadcast (length M) S in
  zip_result (fun row src => assign_from row start src) M S'.

Definition assign_cols_to (M : matrix) (stop : Z) (S : matrix) : result matrix :=
  let* S' := broadcast (length M) S in
  zip_result (fun row src => assign_to row stop src) M S'.

(** [np.tile(np.reshape(col, (n, 1)), (1, reps))]. *)
Definition np_reshape_col (col : vector) (n : nat) : result matrix :=
  if decide (length col = n) then Ok (map (fun x => [x]) col)
  else Raise ValueError.

Definition np_tile_cols (M : matrix) (reps : Z) : result matrix :=
  if (reps <? 0)%Z then Raise ValueError
  else Ok (map (fun row => mjoin (replicate (Z.to_nat reps) row)) M).

(** [np.max(a, axis)] of a scalar [a]: the second argument is the axis to
    reduce along, not a second operand; a 0-d array accepts axis [0] or [-1]
    and the reduction of the single element is the element. *)
Definition np_max_scalar (a axis : Z) : result Z :=
  if (axis =? 0)%Z || (axis =? -1)%Z then Ok a else Raise ValueError.

(** An integer subscript [i] on an axis of length [len]: a negative one
    counts from the end; out of range it raises. *)
Definition py_index (len : nat) (i : Z) : result nat :=
  if (i <? 0)%Z then
    if (Z.of_nat len + i <? 0)%Z then Raise IndexError
    else Ok (Z.to_nat (Z.of_nat len + i))
  else if (i <? Z.of_nat len)%Z then Ok (Z.to_nat i)
  else Raise IndexError.

(** ** The solver: cells 5 and 7 of the notebook *)

Module Firm.

(** What the cell reads: the sizes and the density of the grid, the discount
    factor, the transition matrix [Pi] and the flow payoffs [e_a], [e_i] of
    the earlier cells, the tolerance and the iteration ceiling, and what the
    [np.empty] allocations of the cell happen to hold.  [dot] is the routine
    of the linear-algebra library that [np.dot] calls for entry [(i, m)] of
    the product, on row [i] of the first array and column [m] of the
    second. *)
Record input : Type := {
  sizez : nat;
  sizek : nat;
  dens : Z;
  betafirm : float;
  Pi : matrix;
  e_a : tensor3;
  e_i : matrix;
  VFtol : float;
  VFmaxiter : Z;
  dot : nat -> nat -> vector -> vector -> float;
  junk_EV_i : nat -> nat -> float;
  junk_Vmat : nat -> nat -> nat -> float;
  junk_PF_discrete : nat -> nat -> float
}.

(** [create_Vmat(EV, e, betafirm, Pi, sizez, sizek, Vmat)]: the three nested
    loops write [Vmat] in place and the array is returned. *)
Definition create_Vmat (EV : matrix) (e : tensor3) (betafirm : float)
    (Pi : matrix) (sizez sizek : nat) (Vmat : tensor3) : result tensor3 :=
  for_range sizez (fun i Vmat =>
    for_range sizek (fun j Vmat =>
      for_range sizek (fun m Vmat =>
        let* e_ijm := getitem3 e i j m in
        let* EV_im := getitem2 EV i m in
        setitem3 Vmat i j m (e_ijm + betafirm * EV_im)%float) Vmat) Vmat) Vmat.

(** The variables of cell 7.  [V_i], [V_a] and [PF_continuous] are bound by
    the first pass of the loop and are unbound names before it. *)
Record state : Type := {
  V : matrix;
  EV_i : matrix;
  Vmat : tensor3;
  Vstore : list (option matrix);
  V_i : option matrix;
  V_a : option matrix;
  PF_continuous : option imatrix;
  VFdist : float;
  VFiter : Z
}.

(** The assignments before the [while].  [Vstore] keeps one slot per value
    of the third index, [VFmaxiter] of them; a negative dimension is refused
    by [np.empty]. *)
Definition init (inp : input) : result state :=
  if (VFmaxiter inp <? 0)%Z then Raise ValueError
  else Ok {|
    V := np_zeros2 (sizez inp) (sizek inp);
    EV_i := np_empty2 (junk_EV_i inp) (sizez inp) (sizek inp);
    Vmat := np_empty3 (junk_Vmat inp) (sizez inp) (sizek inp) (sizek inp);
    Vstore := replicate (Z.to_nat (VFmaxiter inp)) None;
    V_i := None;
    V_a := None;
    PF_continuous := None;
    VFdist := 7%float;
    VFiter := 1
  |}.

(** The test of the [while]: [VFdist > VFtol and VFiter < VFmaxiter]. *)
Definition guard (inp : input) (st : state) : bool :=
  PrimFloat.ltb (VFtol inp) (VFdist st) && (VFiter st <? VFmaxiter inp)%Z.

(** [Vstore[:, :, VFiter] = V.reshape(sizez, sizek)]; [Vstore] is kept as the
    list of its slices along the third axis. *)
Definition store (Vstore : list (option matrix)) (VFiter : Z) (V : matrix)
    (sizez sizek : nat) : result (list (option matrix)) :=
  if bool_decide (length (mjoin V) = sizez * sizek)%nat then
    let* t := py_index (length Vstore) VFiter in
    setitem Vstore t (Some V)
  else Raise ValueError.

(** One pass of the body of the [while]. *)
Definition body (inp : input) (st : state) : result state :=
  let TV := V st in
  let* EV := np_dot (dot inp) (Pi inp) (V st) in
  let* EV_i1 :=
    assign_cols_from (EV_i st) (dens inp)
      (map (fun row => slice_to row (Z.of_nat (sizek inp) - dens inp)) EV) in
  let* col0 := map_result (fun row => getitem row 0) EV in
  let* col0' := np_reshape_col col0 (sizez inp) in
  let* tiled := np_tile_cols col0' (dens inp) in
  let* EV_i2 := assign_cols_to EV_i1 (dens inp) tiled in
  let* Vmat1 :=
    create_Vmat EV (e_a inp) (betafirm inp) (Pi inp) (sizez inp) (sizek inp)
      (Vmat st) in
  let* V_i1 :=
    map2_matrix (fun e ev => (e + betafirm inp * ev)%float) (e_i inp) EV_i2 in
  let* V_a1 := max_axis2 Vmat1 in
  let* PF := argmax_axis2 Vmat1 in
  let* V1 := map2_matrix np_maximum V_a1 V_i1 in
  let* Vstore1 := store (Vstore st) (VFiter st) V1 (sizez inp) (sizek inp) in
  let* diff := map2_matrix (fun x y => PrimFloat.abs (x - y)%float) V1 TV in
  let* VFdist1 := amax (mjoin diff) in
  Ok {|
    V := V1;
    EV_i := EV_i2;
    Vmat := Vmat1;
    Vstore := Vstore1;
    V_i := Some V_i1;
    V_a := Some V_a1;
    PF_continuous := Some PF;
    VFdist := VFdist1;
    VFiter := VFiter st + 1
  |}.

(** The [while] loop.  [None] is the loop still running when the fuel is
    spent; [Some r] is the loop left, normally or by an exception. *)
Fixpoint vfi_loop (inp : input) (fuel : nat) (st : state) : option (result state) :=
  if guard inp st then
    match fuel with
    | O => None
    | S fuel' =>
        match body inp st with
        | Ok st' => vfi_loop inp fuel' st'
        | Raise e => Some (Raise e)
        end
    end
  else Some (Ok st).

(** What the cell prints after the loop. *)
Inductive report : Set :=
| Converged (iterations : Z)
| DidNotConverge.

Definition print_report (inp : input) (st : state) : report :=
  if (VFiter st <? VFmaxiter inp)%Z then Converged (VFiter st)
  else DidNotConverge.

(** Reading a name that the loop may not have bound. *)
Definition name {A : Type} (x : option A) : result A :=
  match x with
  | Some a => Ok a
  | None => Raise NameError
  end.

(** The policy loop at the end of the cell.  Its state is the pair of
    [PF_discrete] and the binding of [PF_continuous]. *)
Definition policy_cell (inp : input) (st : state) (i j : nat)
    (pf : matrix * option imatrix) : result (matrix * option imatrix) :=
  let* Vi := name (V_i st) in
  let* vi := getitem2 Vi i j in
  let* Va := name (V_a st) in
  let* va := getitem2 Va i j in
  if PrimFloat.leb va vi then
    let* PFd := setitem2 (fst pf) i j 0%float in
    let* k := np_max_scalar (Z.of_nat j - dens inp) 0 in
    let* PFc := name (snd pf) in
    let* PFc' := setitem2 PFc i j k in
    Ok (PFd, Some PFc')
  else
    let* Va' := name (V_a st) in
    let* va' := getitem2 Va' i j in
    let* Vi' := name (V_i st) in
    let* vi' := getitem2 Vi' i j in
    if PrimFloat.ltb vi' va' then
      let* PFd := setitem2 (fst pf) i j 1%float in
      let* PFc := name (snd pf) in
      let* k := getitem2 PFc i j in
      let* PFc' := setitem2 PFc i j k in
      Ok (PFd, Some PFc')
    else Ok pf.

Definition policy_loop (inp : input) (st : state)
  : result (matrix * option imatrix) :=
  for_range (sizez inp) (fun i pf =>
    for_range (sizek inp) (fun j pf => policy_cell inp st i j pf) pf)
    (np_empty2 (junk_PF_discrete inp) (sizez inp) (sizek inp),
     PF_continuous st).

(** The whole cell: what is printed, the solution [VF] and the two policy
    arrays. *)
Record output : Type := {
  printed : report;
  final : state;
  VF : matrix;
  PF_discrete : matrix;
  PF_continuous_out : option imatrix
}.

Definition after_loop (inp : input) (st : state) : result output :=
  let* pf := policy_loop inp st in
  Ok {|
    printed := print_report inp st;
    final := st;
    VF := V st;
    PF_discrete := fst pf;
    PF_continuous_out := snd pf
  |}.

Definition solve (inp : input) (fuel : nat) : option (result output) :=
  match init inp with
  | Raise e => Some (Raise e)
  | Ok st0 =>
      match vfi_loop inp fuel st0 with
      | None => None
      | Some (Raise e) => Some (Raise e)
      | Some (Ok st) => Some (after_loop inp st)
      end
  end.

(** Cell 9: [optK = kvec[PF_continuous]], an integer-array subscript, each
    index read as a subscript of [kvec]. *)
Definition optK (kvec : vector) (PF : imatrix) : result matrix :=
  map_result (map_result (fun c =>
    let* t := py_index (length kvec) c in
    getitem kvec t)) PF.

(** Fuel that is always enough: the counter starts at 1 and the loop is left
    once it is [VFmaxiter]. *)
Definition enough_fuel (inp : input) : nat := Z.to_nat (VFmaxiter inp - 1).

(** The arrays of the earlier cells have the shapes the cell expects, and
    the density is between 0 and the number of grid points. *)
Definition wf_input (inp : input) : Prop :=
  (1 <= sizez inp)%nat /\ (1 <= sizek inp)%nat /\
  (0 <= dens inp <= Z.of_nat (sizek inp))%Z /\
  is_matrix (sizez inp) (sizez inp) (Pi inp) /\
  is_tensor3 (sizez inp) (sizek inp) (sizek inp) (e_a inp) /\
  is_matrix (sizez inp) (sizek inp) (e_i inp).

(** The shapes of the arrays of the loop, and the range of the counter. *)
Definition wf_state (inp : input) (st : state) : Prop :=
  is_matrix (sizez inp) (sizek inp) (V st) /\
  is_matrix (sizez inp) (sizek inp) (EV_i st) /\
  is_tensor3 (sizez inp) (sizek inp) (sizek inp) (Vmat st) /\
  length (Vstore st) = Z.to_nat (VFmaxiter inp) /\
  (1 <= VFiter st)%Z.

(** The states at the head of the [while]: the initial one, and the one
    after a pass that the test let in. *)
Inductive reachable (inp : input) : state -> Prop :=
| reach_init st0 :
    init inp = Ok st0 -> reachable inp st0
| reach_pass st st' :
    reachable inp st -> guard inp st = true -> body inp st = Ok st' ->
    reachable inp st'.

(** [passes inp n st st']: [n] passes of the loop lead from [st] to [st']. *)
Inductive passes (inp : input) : nat -> state -> state -> Prop :=
| passes_O st : passes inp 0 st st
| passes_S n st st1 st' :
    guard inp st = true -> body inp st = Ok st1 -> passes inp n st1 st' ->
    passes inp (S n) st st'.

(** The column that the inactive branch reads at capital index [j]: [dens]
    positions down, and column 0 for the first [dens] indices. *)
Definition shifted (inp : input) (j : nat) : nat :=
  if decide (j < Z.to_nat (dens inp))%nat then 0%nat
  else (j - Z.to_nat (dens inp))%nat.

(** What one pass leaves in the variables, cell by cell, given
    [EV = np.dot(Pi, V)] for the [V] at the start of the pass. *)
Definition pass_post (inp : input) (st : state) (EV : matrix) (st' : state)
  : Prop :=
  wf_state inp st' /\ VFiter st' = (VFiter st + 1)%Z /\
  exists (Vi Va : matrix) (PF : imatrix) (diff : matrix),
    V_i st' = Some Vi /\ V_a st' = Some Va /\ PF_continuous st' = Some PF /\
    is_matrix (sizez inp) (sizek inp) Vi /\
    is_matrix (sizez inp) (sizek inp) Va /\
    is_matrix (sizez inp) (sizek inp) PF /\
    (forall z j, (z < sizez inp)%nat -> (j < sizek inp)%nat ->
       cell2 (EV_i st') z j = cell2 EV z (shifted inp j)) /\
    (forall z k k' x y, cell3 (e_a inp) z k k' = Some x -> cell2 EV z k' = Some y ->
       cell3 (Vmat st') z k k' = Some (x + betafirm inp * y)%float) /\
    (forall z k x y, cell2 (e_i inp) z k = Some x -> cell2 (EV_i st') z k = Some y ->
       cell2 Vi z k = Some (x + betafirm inp * y)%float) /\
    (forall z k a, cell2 Va z k = Some a ->
       exists row, cell2 (Vmat st') z k = Some row /\ length row = sizek inp /\
         amax row = Ok a) /\
    (forall z k c, cell2 PF z k = Some c ->
       exists row, cell2 (Vmat st') z k = Some row /\ np_argmax row = Ok c) /\
    (forall z k a b, cell2 Va z k = Some a -> cell2 Vi z k = Some b ->
       cell2 (V st') z k = Some (np_maximum a b)) /\
    map2_matrix (fun x y => PrimFloat.abs (x - y)%float) (V st') (V st) = Ok diff /\
    amax (mjoin diff) = Ok (VFdist st').

(** The cells that the three loops of [create_Vmat] have written before
    the pass [(i, j, m)], and the array at that point: the written cells hold
    their final value. *)
Definition written (i j m a b c : nat) : Prop :=
  (a < i \/ (a = i /\ (b < j \/ (b = j /\ c < m))))%nat.

Definition filled (EV : matrix) (e : tensor3) (beta : float) (nz nk : nat)
    (i j m : nat) (T : tensor3) : Prop :=
  is_tensor3 nz nk nk T /\
  forall a b c x y, written i j m a b c -> (b < nk)%nat -> (c < nk)%nat ->
    cell3 e a b c = Some x -> cell2 EV a c = Some y ->
    cell3 T a b c = Some (x + beta * y)%float.

(** What the policy loop leaves in cell [(i, j)] of the two policy arrays,
    by the branch taken there; [PF] is [PF_continuous] as the last pass of
    the [while] left it, [vi] and [va] are [V_i[i, j]] and [V_a[i, j]]. *)
Definition policy_at (inp : input) (PF : imatrix) (i j : nat) (vi va : float)
    (PFd : matrix) (PFc : imatrix) : Prop :=
  if PrimFloat.leb va vi then
    cell2 PFd i j = Some 0%float /\
    cell2 PFc i j = Some (Z.of_nat j - dens inp)%Z
  else if PrimFloat.ltb vi va then
    cell2 PFd i j = Some 1%float /\ cell2 PFc i j = cell2 PF i j
  else
    cell2 PFd i j = Some (junk_PF_discrete inp i j) /\
    cell2 PFc i j = cell2 PF i j.

(** The policy arrays before the pass [(i, j)] of the policy loop: the
    cells already visited hold what their branch wrote, the others are
    untouched. *)
Definition policy_inv (inp : input) (Vi Va : matrix) (PF : imatrix)
    (i j : nat) (pf : matrix * option imatrix) : Prop :=
  exists PFc, snd pf = Some PFc /\
    is_matrix (sizez inp) (sizek inp) (fst pf) /\
    is_matrix (sizez inp) (sizek inp) PFc /\
    forall a b vi va, (a < sizez inp)%nat -> (b < sizek inp)%nat ->
      cell2 Vi a b = Some vi -> cell2 Va a b = Some va ->
      if decide (a < i \/ (a = i /\ b < j))%nat
      then policy_at inp PF a b vi va (fst pf) PFc
      else cell2 (fst pf) a b = Some (junk_PF_discrete inp a b) /\
           cell2 PFc a b = cell2 PF a b.

(** A binary64 value that is neither NaN nor an infinity. *)
Definition finite (x : float) : bool := PrimFloat.is_finite x.

(** NaN or the positive infinity. *)
Definition nan_or_pinf (x : float) : bool :=
  PrimFloat.is_nan x || PrimFloat.eqb x PrimFloat.infinity.

(** "The distance fell below the tolerance": at some point of the run the
    distance is strictly below the tolerance. *)
Definition fell_below (inp : input) (st0 : state) : Prop :=
  exists n st', passes inp n st0 st' /\
    PrimFloat.ltb (VFdist st') (VFtol inp) = true.

(** What the loop itself tests: at some point of the run the distance is
    not above the tolerance and the counter is below the ceiling. *)
Definition test_failed_below_ceiling (inp : input) (st0 : state) : Prop :=
  exists n st', passes inp n st0 st' /\
    PrimFloat.ltb (VFtol inp) (VFdist st') = false /\
    (VFiter st' < VFmaxiter inp)%Z.

End Firm.

(** ** The capital grid: cell 1 of the notebook, lines "Grid for k" *)

Module Grid.

Local Open Scope R_scope.

(** An [np.float64] in the grid computation: a real, or one of the special
    values.  Rounding and the sign of zero are left out. *)
Inductive npfloat : Type :=
| Fin (x : R)
| PInf
| NInf
| NaN.

(** The module-level parameters that the grid cell and the error taxonomy
    name.  [junk_K] is what [np.empty] leaves in [K]. *)
Record params : Type := {
  delta : R;
  kbar : R;
  lb_k : R;
  dens : Z;
  sigma_eps : R;
  junk_K : nat -> R
}.

(** [a / b] on Python floats raises on a zero divisor. *)
Definition py_div (a b : R) : result R :=
  if Req_dec_T b 0 then Raise ZeroDivisionError else Ok (a / b).

(** [np.log]: [-inf] at zero and [nan] below it, with a warning only. *)
Definition np_log (x : R) : npfloat :=
  if Rlt_dec 0 x then Fin (ln x)
  else if Req_dec_T x 0 then NInf
  else NaN.

(** The sign of an [npfloat] that is not NaN: [1], [0] or [-1]. *)
Definition sign (x : R) : Z :=
  if Rlt_dec 0 x then 1 else if Rlt_dec x 0 then (-1) else 0.

Definition signed_inf (s : Z) : npfloat :=
  if (0 <? s)%Z then PInf else if (s <? 0)%Z then NInf else NaN.

(** [a / b] on [np.float64]: no exception, a zero divisor (the [+0.0] that
    [np.log(1.0)] returns) gives an infinity or [nan]. *)
Definition np_div (a b : npfloat) : npfloat :=
  match a, b with
  | NaN, _ | _, NaN => NaN
  | Fin x, Fin y => if Req_dec_T y 0 then signed_inf (sign x) else Fin (x / y)
  | Fin _, (PInf | NInf) => Fin 0
  | PInf, Fin y => if Rlt_dec y 0 then NInf else PInf
  | NInf, Fin y => if Rlt_dec y 0 then PInf else NInf
  | (PInf | NInf), (PInf | NInf) => NaN
  end.

(** The ceiling of a real, as an integer. *)
Definition ceil (x : R) : Z := (1 - up (- x))%Z.

Definition np_ceil (a : npfloat) : npfloat :=
  match a with
  | Fin x => Fin (IZR (ceil x))
  | _ => a
  end.

(** [a * n] with [n] a Python [int]. *)
Definition np_mul_int (a : npfloat) (n : Z) : npfloat :=
  match a with
  | Fin x => Fin (x * IZR n)
  | PInf => signed_inf n
  | NInf => signed_inf (- n)
  | NaN => NaN
  end.

(** [int(a)]: truncation towards zero; an infinity and [nan] are refused. *)
Definition py_int (a : npfloat) : result Z :=
  match a with
  | Fin x => Ok (if Rle_dec 0 x then Int_part x else ceil x)
  | PInf | NInf => Raise OverflowError
  | NaN => Raise ValueError
  end.

(** [np.empty(n)]: a negative dimension is refused. *)
Definition np_empty (junk : nat -> R) (n : Z) : result (list R) :=
  if (n <? 0)%Z then Raise ValueError
  else Ok (map junk (seq 0 (Z.to_nat n))).

(** [j / dens] on Python [int]s. *)
Definition py_div_int (j : nat) (d : Z) : result R :=
  if (d =? 0)%Z then Raise ZeroDivisionError else Ok (INR j / IZR d).

(** [b ** e] on Python floats.  A negative base with a fractional exponent
    gives a complex number, which the store into the float array [K]
    refuses. *)
Definition py_pow (b e : R) : result R :=
  if Rlt_dec 0 b then Ok (Rpower b e)
  else if Req_dec_T b 0 then
    (if Req_dec_T e 0 then Ok 1
     else if Rlt_dec 0 e then Ok 0
     else Raise ZeroDivisionError)
  else if Req_dec_T e (IZR (Int_part e)) then Ok (powerRZ b (Int_part e))
  else Raise TypeError.

(** The number of grid points, [int(numb * dens)]. *)
Definition numb (p : params) : result npfloat :=
  let ub_k := kbar p in
  let* q := py_div (lb_k p) ub_k in
  let krat := np_log q in
  Ok (np_ceil (np_div krat (np_log (1 - delta p)))).

Definition grid_size (p : params) : result Z :=
  let* n := numb p in
  py_int (np_mul_int n (dens p)).

(** The loop that fills [K], and [kvec = K[::-1]]. *)
Definition fill_K (p : params) (n : nat) (K : list R) : result (list R) :=
  for_range n (fun j K =>
    let* e := py_div_int j (dens p) in
    let* pw := py_pow (1 - delta p) e in
    setitem K j (kbar p * pw)) K.

Definition K (p : params) : result (list R) :=
  let* n := grid_size p in
  let* K0 := np_empty (junk_K p) n in
  let* n' := grid_size p in
  fill_K p (Z.to_nat n') K0.

Definition kvec (p : params) : result (list R) :=
  let* K := K p in
  Ok (reverse K).

Definition sizek (p : params) : result nat :=
  let* kv := kvec p in
  Ok (length kv).








End Grid.

(** ** Small inputs for the solver

    One productivity state, [Pi = [[1]]], no payoff in the active branch and
    a payoff of 1 in the inactive branch. *)

Module Inputs.

Import Firm.

Definition base (sizek : nat) (dens : Z) (e_i : matrix) (VFtol : float)
    (VFmaxiter : Z) : input := {|
  Firm.sizez := 1;
  Firm.sizek := sizek;
  Firm.dens := dens;
  betafirm := 0.5%float;
  Pi := [[1%float]];
  e_a := [replicate sizek (replicate sizek 0%float)];
  Firm.e_i := e_i;
  Firm.VFtol := VFtol;
  Firm.VFmaxiter := VFmaxiter;
  dot := fun _ _ => dot_vec;
  junk_EV_i := fun _ _ => 0%float;
  junk_Vmat := fun _ _ _ => 0%float;
  junk_PF_discrete := fun _ _ => 0%float
|}.

(** The first distance is 1, and so is the tolerance. *)
Definition tie : input := base 2 1 [[1%float; 1%float]] 1%float 10.

(** The distances are 1 and 0.5: the tolerance 0.75 is first met by the
    second pass, which is the last one that a ceiling of 3 lets in. *)
Definition last_pass : input := base 2 1 [[1%float; 1%float]] 0.75%float 3.

(** Six grid points and the density 5 of the notebook; inaction is optimal
    everywhere. *)
Definition inaction : input :=
  base 6 5 [replicate 6 1%float] 0.125%float 30.

(** No payoff in either branch: the two branch values are equal
    everywhere. *)
Definition ties : input := base 2 1 [[0%float; 0%float]] 0.125%float 30.

(** An infinite payoff in the inactive branch at the smallest capital. *)
Definition infinite_payoff : input :=
  base 2 1 [[PrimFloat.infinity; 1%float]] 0.125%float 30.

(** Two productivity levels and two capital levels, with a transition
    matrix that mixes the two productivity levels.  Every number is a small
    dyadic fraction, so each sum and product of a pass is exact in binary64
    and no order of summation changes it. *)
Definition two_states : input := {|
  Firm.sizez := 2;
  Firm.sizek := 2;
  Firm.dens := 1;
  betafirm := 0.5%float;
  Pi := [[0.75%float; 0.25%float]; [0.25%float; 0.75%float]];
  e_a := [[[1%float; 0%float]; [2%float; 1%float]];
          [[3%float; 2%float]; [4%float; 3%float]]];
  Firm.e_i := [[0.5%float; 1.5%float]; [2.5%float; 3.5%float]];
  Firm.VFtol := 0.125%float;
  Firm.VFmaxiter := 30;
  dot := fun _ _ => dot_vec;
  junk_EV_i := fun _ _ => 0%float;
  junk_Vmat := fun _ _ _ => 0%float;
  junk_PF_discrete := fun _ _ => 0%float
|}.

End Inputs.

(** ** The same input with other contents of the [np.empty] arrays of the
    loop *)

Module Alloc.

Import Firm.

Definition with_junk (inp : input) (jEV : nat -> nat -> float)
    (jVmat : nat -> nat -> nat -> float) : input := {|
  sizez := sizez inp;
  sizek := sizek inp;
  dens := dens inp;
  betafirm := betafirm inp;
  Pi := Pi inp;
  e_a := e_a inp;
  e_i := e_i inp;
  VFtol := VFtol inp;
  VFmaxiter := VFmaxiter inp;
  dot := dot inp;
  junk_EV_i := jEV;
  junk_Vmat := jVmat;
  junk_PF_discrete := junk_PF_discrete inp
|}.

End Alloc.

(** ** The capital levels of the policy: [optK] of cell 9 of the notebook

    The capital levels are reals, as in the grid cell.  An array without
    rows carries no row length. *)

Module Levels.

Local Open Scope R_scope.

(** [kvec[PF_continuous]], an integer-array subscript: each index is read
    as a subscript of [kvec], a negative one from the end. *)
Definition optK (kvec : list R) (PF : imatrix) : result (list (list R)) :=
  map_result (map_result (fun c =>
    let* t := py_index (length kvec) c in
    getitem kvec t)) PF.

(** The position that a subscript [c] in range reads on an axis of length
    [len]. *)
Definition subscript (len : nat) (c : Z) : nat :=
  Z.to_nat (if (c <? 0)%Z then Z.of_nat len + c else c)%Z.

End Levels.

(** ** The flow payoffs: cell 3 of the notebook

    Numbers are reals with [inf] and [nan] kept apart, as in the grid cell;
    rounding, overflow and the sign of zero are left out. *)

Module Payoffs.

Import Grid.
Local Open Scope R_scope.

(** What the cell reads: the technology and cost parameters, the
    productivity levels [z], the capital grid [kvec] and the two sizes; and
    what [np.empty] leaves in the two arrays. *)
Record params : Type := {
  alpha_k : R;
  alpha_l : R;
  delta : R;
  F : R;
  w : R;
  z : list R;
  kvec : list R;
  sizez : nat;
  sizek : nat;
  junk_e_a : nat -> nat -> nat -> npfloat;
  junk_e_i : nat -> nat -> npfloat
}.

Definition empty2 {A : Type} (junk : nat -> nat -> A) (n m : nat) : list (list A) :=
  map (fun i => map (fun j => junk i j) (seq 0 m)) (seq 0 n).

Definition empty3 {A : Type} (junk : nat -> nat -> nat -> A) (n m p : nat)
  : list (list (list A)) :=
  map (fun i => empty2 (junk i) m p) (seq 0 n).

(** A Python number: a float, or the complex number that [**] returns for
    a negative base and a fractional exponent. *)
Inductive pyval : Type :=
| PyFloat (x : R)
| PyComplex.

Definition py_pow_val (b e : R) : result pyval :=
  match py_pow b e with
  | Ok x => Ok (PyFloat x)
  | Raise TypeError => Ok PyComplex
  | Raise err => Raise err
  end.

(** [a ** e] with [a] an [np.float64] and [e] a Python float: no exception,
    [nan] for a negative base with a fractional exponent, an infinity for
    zero to a negative power. *)
Definition np_pow (a : npfloat) (e : R) : npfloat :=
  if Req_dec_T e 0 then Fin 1
  else match a with
       | NaN => NaN
       | Fin x =>
           if Rlt_dec 0 x then Fin (Rpower x e)
           else if Req_dec_T x 0 then (if Rlt_dec 0 e then Fin 0 else PInf)
           else if Req_dec_T e (IZR (Int_part e)) then Fin (powerRZ x (Int_part e))
           else NaN
       | PInf => if Rlt_dec 0 e then PInf else Fin 0
       | NInf =>
           if Rlt_dec 0 e then
             if Req_dec_T e (IZR (Int_part e)) then
               (if Z.odd (Int_part e) then NInf else PInf)
             else PInf
           else Fin 0
       end.

(** [x * a] with [x] finite. *)
Definition np_scale (x : R) (a : npfloat) : npfloat :=
  match a with
  | Fin y => Fin (x * y)
  | PInf => signed_inf (sign x)
  | NInf => signed_inf (- sign x)
  | NaN => NaN
  end.

(** [a + y] with [y] finite. *)
Definition np_add_fin (a : npfloat) (y : R) : npfloat :=
  match a with
  | Fin x => Fin (x + y)
  | _ => a
  end.

(** The Python-float factor of [op]:
    [(1 - alpha_l) * ((alpha_l / w) ** (alpha_l / (1 - alpha_l)))]. *)
Definition coefficient (p : params) : result pyval :=
  let a := 1 - alpha_l p in
  let* b := py_div (alpha_l p) (w p) in
  let* e := py_div (alpha_l p) (1 - alpha_l p) in
  let* c := py_pow_val b e in
  Ok (match c with
      | PyFloat x => PyFloat (a * x)
      | PyComplex => PyComplex
      end).

(** The [np.float64] factor of [op]:
    [(z[i] * kvec[j] ** alpha_k) ** (1 / (1 - alpha_l))]. *)
Definition scale_factor (p : params) (zi kj e : R) : npfloat :=
  np_pow (np_scale zi (np_pow (Fin kj) (alpha_k p))) e.

(** [op], a float64 or a complex number. *)
Definition op (p : params) (i j : nat) : result (option npfloat) :=
  let* c := coefficient p in
  let* zi := getitem (z p) i in
  let* kj := getitem (kvec p) j in
  let* e := py_div 1 (1 - alpha_l p) in
  Ok (match c with
      | PyFloat x => Some (np_scale x (scale_factor p zi kj e))
      | PyComplex => None
      end).

(** The store of [op] into the float array refuses a complex number. *)
Definition as_float64 (o : option npfloat) : result npfloat :=
  match o with
  | Some v => Ok v
  | None => Raise TypeError
  end.

(** [op - kvec[m] + ((1 - delta) * kvec[j]) - (F * kvec[j])]. *)
Definition active_flow (p : params) (v : npfloat) (km kj : R) : npfloat :=
  np_add_fin (np_add_fin (np_add_fin v (- km)) ((1 - delta p) * kj)) (- (F p * kj)).

(** The body of the two outer loops at [(i, j)]. *)
Definition cell (p : params) (i j : nat)
    (s : list (list (list npfloat)) * list (list npfloat))
  : result (list (list (list npfloat)) * list (list npfloat)) :=
  let* o := op p i j in
  let* v := as_float64 o in
  let* e_i := setitem2 (snd s) i j v in
  let* e_a :=
    for_range (sizek p) (fun m e_a =>
      let* km := getitem (kvec p) m in
      let* kj := getitem (kvec p) j in
      setitem3 e_a i j m (active_flow p v km kj)) (fst s) in
  Ok (e_a, e_i).

(** The cell: the pair of [e_a] and [e_i]. *)
Definition payoffs (p : params)
  : result (list (list (list npfloat)) * list (list npfloat)) :=
  for_range (sizez p) (fun i s =>
    for_range (sizek p) (fun j s => cell p i j s) s)
    (empty3 (junk_e_a p) (sizez p) (sizek p) (sizek p),
     empty2 (junk_e_i p) (sizez p) (sizek p)).

(** The parameters of the notebook on two productivity levels and three
    capital levels. *)
Definition sample : params := {|
  alpha_k := 29715 / 100000;
  alpha_l := 65 / 100;
  delta := 154 / 1000;
  F := 2 / 100;
  w := 7 / 10;
  z := [1; 2];
  kvec := [1; 2; 3];
  sizez := 2;
  sizek := 3;
  junk_e_a := fun _ _ _ => Fin 0;
  junk_e_i := fun _ _ => Fin 0
|}.

(** The same with other technology parameters and another grid. *)
Definition with_technology (p : params) (ak w' : R) (kv : list R) : params := {|
  alpha_k := ak;
  alpha_l := alpha_l p;
  delta := delta p;
  F := F p;
  w := w';
  z := z p;
  kvec := kv;
  sizez := sizez p;
  sizek := length kv;
  junk_e_a := junk_e_a p;
  junk_e_i := junk_e_i p
|}.

End Payoffs.

(** ** The plot of the investment rule: cell 10 of the notebook

    What the cell hands to [ax.plot]: three curves, the investment rate
    along the columns [ind - dens * 3], [ind] and [ind + dens * 3] of
    [optI], where [ind] is the position of the grid point nearest to
    [kstar].  The steady-state capital [kstar] is taken as a finite
    number. *)

Module Plot.

Local Open Scope R_scope.

(** [np.argmin] of a 1-D array: the first minimum; a zero-size array has
    none. *)
Fixpoint argmin_from (mp : R) (best i : nat) (l : list R) : nat :=
  match l with
  | [] => best
  | x :: xs =>
      if Rlt_dec x mp then argmin_from x i (S i) xs
      else argmin_from mp best (S i) xs
  end.

Definition np_argmin (l : list R) : result nat :=
  match l with
  | [] => Raise ValueError
  | x :: xs => Ok (argmin_from x 0 1 xs)
  end.

(** [ind = np.argmin(np.absolute(kvec - kstar))]. *)
Definition ind (kvec : list R) (kstar : R) : result nat :=
  np_argmin (map (fun k => Rabs (k - kstar)) kvec).

(** One curve: [optI[:, c] / kvec[c]] against [z], with [kvec[c]] in the
    label.  [ax.plot] refuses two sequences of different lengths. *)
Definition curve (z kvec : list R) (optI : list (list R)) (c : Z)
  : result (list Grid.npfloat * R) :=
  let* col :=
    map_result (fun row =>
      let* t := py_index (length row) c in
      getitem row t) optI in
  let* t := py_index (length kvec) c in
  let* k := getitem kvec t in
  let y := map (fun x => Grid.np_div (Grid.Fin x) (Grid.Fin k)) col in
  let* t' := py_index (length kvec) c in
  let* label := getitem kvec t' in
  if decide (length z = length y) then Ok (y, label) else Raise ValueError.

Definition cell10 (z kvec : list R) (optI : list (list R)) (kstar : R) (dens : Z)
  : result (list (list Grid.npfloat * R)) :=
  let* i := ind kvec kstar in
  let* low := curve z kvec optI (Z.of_nat i - dens * 3) in
  let* mid := curve z kvec optI (Z.of_nat i) in
  let* high := curve z kvec optI (Z.of_nat i + dens * 3) in
  Ok [low; mid; high].

(** A subscript that an axis of length [len] accepts. *)
Definition in_range (len : nat) (c : Z) : Prop :=
  (- Z.of_nat len <= c < Z.of_nat len)%Z.

End Plot.

(** * Facts *)

Import Firm.

(** ** The helpers on small values *)

Example np_max_scalar_is_no_floor : np_max_scalar (0 - 5) 0 = Ok (-5)%Z.
Proof. reflexivity. Qed.

Example np_maximum_nan_left : np_maximum PrimFloat.nan 1%float = PrimFloat.nan.
Proof. reflexivity. Qed.

Example np_maximum_nan_right : np_maximum 1%float PrimFloat.nan = PrimFloat.nan.
Proof. reflexivity. Qed.

Example np_argmax_first_maximum :
  np_argmax [1%float; 3%float; 2%float; 3%float] = Ok 1%Z.
Proof. reflexivity. Qed.

Example slice_to_negative_stop : slice_to [1%Z; 2%Z; 3%Z; 4%Z] (-1) = [1%Z; 2%Z; 3%Z].
Proof. reflexivity. Qed.

Example slice_from_past_the_end : slice_from [1%Z; 2%Z; 3%Z] 5 = [].
Proof. reflexivity. Qed.

Example py_index_negative : py_index 6 (-5) = Ok 1%nat.
Proof. reflexivity. Qed.

Example assign_from_shape_mismatch :
  assign_from [1%float; 2%float] 1 [3%float; 4%float] = Raise ValueError.
Proof. reflexivity. Qed.

Example np_dot_2x2 :
  np_dot (fun _ _ => dot_vec)
         [[1%float; 2%float]; [3%float; 4%float]]
         [[1%float; 0%float]; [0%float; 1%float]] =
  Ok [[1%float; 2%float]; [3%float; 4%float]].
Proof. reflexivity. Qed.

(** ** The error monad and the loops *)

Lemma bind_Ok {A B : Type} (m : result A) (k : A -> result B) (b : B) :
  bind m k = Ok b <-> exists a, m = Ok a /\ k a = Ok b.
Proof.
  destruct m as [a|e]; simpl; split.
  - intros H. exists a. split; [reflexivity | exact H].
  - intros (a' & [= <-] & H). exact H.
  - intros [=].
  - intros (a' & [=] & _).
Qed.

(** The invariant rule for [for i in range(n)]: an invariant that holds on
    entry and that every pass re-establishes without raising holds at the
    exit, and the loop does not raise. *)
Lemma for_range_from_inv {S : Type} (I : nat -> S -> Prop)
    (body : nat -> S -> result S) (n start : nat) (s : S) :
  I start s ->
  (forall i s, (start <= i < start + n)%nat -> I i s ->
     exists s', body i s = Ok s' /\ I (Datatypes.S i) s') ->
  exists s', for_range_from start n body s = Ok s' /\ I (start + n)%nat s'.
Proof.
  revert start s. induction n as [|n IH]; intros start s H0 Hstep; simpl.
  - exists s. rewrite Nat.add_0_r. split; [reflexivity | exact H0].
  - destruct (Hstep start s) as (s1 & Hb & H1); [lia | exact H0 |].
    rewrite Hb. simpl.
    destruct (IH (Datatypes.S start) s1) as (s2 & Hl & H2).
    + exact H1.
    + intros i s' Hi. apply Hstep. lia.
    + exists s2. split; [exact Hl |].
      replace (start + Datatypes.S n)%nat with (Datatypes.S start + n)%nat by lia.
      exact H2.
Qed.

Lemma for_range_inv {S : Type} (I : nat -> S -> Prop)
    (body : nat -> S -> result S) (n : nat) (s : S) :
  I 0%nat s ->
  (forall i s, (i < n)%nat -> I i s ->
     exists s', body i s = Ok s' /\ I (Datatypes.S i) s') ->
  exists s', for_range n body s = Ok s' /\ I n s'.
Proof.
  intros H0 Hstep.
  destruct (for_range_from_inv I body n 0 s H0) as (s' & Hl & Hn).
  - intros i s1 Hi. apply Hstep. lia.
  - exists s'. split; [exact Hl | exact Hn].
Qed.

(** ** Reads and writes *)

Lemma getitem_Ok {A : Type} (l : list A) (i : nat) (x : A) :
  getitem l i = Ok x <-> l !! i = Some x.
Proof.
  unfold getitem. destruct (l !! i); split; intros H; congruence.
Qed.

Lemma setitem_Ok {A : Type} (l : list A) (i : nat) (x : A) :
  (i < length l)%nat -> setitem l i x = Ok (<[i := x]> l).
Proof.
  intros H. unfold setitem. destruct (decide (i < length l)%nat); [reflexivity | lia].
Qed.

Lemma cell2_length {A : Type} (n m : nat) (M : list (list A)) (i j : nat) :
  is_matrix n m M -> (i < n)%nat -> (j < m)%nat -> exists x, cell2 M i j = Some x.
Proof.
  intros [Hn Hm] Hi Hj. unfold cell2.
  destruct (lookup_lt_is_Some_2 M i) as [row Hrow]; [lia |].
  rewrite Hrow.
  assert (length row = m) as Hlen.
  { rewrite Forall_forall in Hm. apply Hm. eapply list_elem_of_lookup_2. exact Hrow. }
  destruct (lookup_lt_is_Some_2 row j) as [x Hx]; [lia |].
  exists x. exact Hx.
Qed.

Lemma is_matrix_row {A : Type} (n m : nat) (M : list (list A)) (i : nat)
    (row : list A) :
  is_matrix n m M -> M !! i = Some row -> length row = m.
Proof.
  intros [_ Hm] Hrow. rewrite Forall_forall in Hm. apply Hm.
  eapply list_elem_of_lookup_2. exact Hrow.
Qed.

Lemma getitem2_cell {A : Type} (M : list (list A)) (i j : nat) (x : A) :
  getitem2 M i j = Ok x <-> cell2 M i j = Some x.
Proof.
  unfold getitem2, cell2, getitem.
  destruct (M !! i) as [row|]; simpl; [| split; intros [=]].
  destruct (row !! j); split; intros H; congruence.
Qed.

Lemma getitem3_cell {A : Type} (T : list (list (list A))) (i j m : nat) (x : A) :
  getitem3 T i j m = Ok x <-> cell3 T i j m = Some x.
Proof.
  unfold getitem3, cell3, getitem.
  destruct (T !! i) as [plane|]; simpl; [| split; intros [=]].
  apply getitem2_cell.
Qed.

(** A write into a cell in range succeeds, keeps the shape, puts the value
    in the cell and leaves the other cells as they were. *)
Lemma setitem2_spec {A : Type} (n m : nat) (M : list (list A)) (i j : nat) (x : A) :
  is_matrix n m M -> (i < n)%nat -> (j < m)%nat ->
  exists M', setitem2 M i j x = Ok M' /\ is_matrix n m M' /\
    cell2 M' i j = Some x /\
    (forall a b, (a, b) <> (i, j) -> cell2 M' a b = cell2 M a b).
Proof.
  intros HM Hi Hj. pose proof HM as [Hn Hm].
  destruct (lookup_lt_is_Some_2 M i) as [row Hrow]; [lia |].
  pose proof (is_matrix_row _ _ _ _ _ HM Hrow) as Hlen.
  exists (<[i := <[j := x]> row]> M).
  unfold setitem2, getitem. rewrite Hrow. simpl.
  rewrite setitem_Ok by lia. simpl.
  rewrite setitem_Ok by lia.
  split; [reflexivity |]. split; [| split].
  - split; [rewrite length_insert; exact Hn |].
    apply Forall_insert; [exact Hm |]. rewrite length_insert. exact Hlen.
  - unfold cell2. rewrite list_lookup_insert_eq by lia.
    apply list_lookup_insert_eq. lia.
  - intros a b Hab. unfold cell2.
    destruct (decide (a = i)) as [->|Hne].
    + rewrite list_lookup_insert_eq by lia. rewrite Hrow.
      apply list_lookup_insert_ne. congruence.
    + rewrite list_lookup_insert_ne by congruence. reflexivity.
Qed.

Lemma setitem3_spec {A : Type} (n m p : nat) (T : list (list (list A)))
    (i j k : nat) (x : A) :
  is_tensor3 n m p T -> (i < n)%nat -> (j < m)%nat -> (k < p)%nat ->
  exists T', setitem3 T i j k x = Ok T' /\ is_tensor3 n m p T' /\
    cell3 T' i j k = Some x /\
    (forall a b c, (a, b, c) <> (i, j, k) -> cell3 T' a b c = cell3 T a b c).
Proof.
  intros [Hn Hm] Hi Hj Hk.
  destruct (lookup_lt_is_Some_2 T i) as [plane Hplane]; [lia |].
  assert (is_matrix m p plane) as Hpl.
  { rewrite Forall_forall in Hm. apply Hm. eapply list_elem_of_lookup_2. exact Hplane. }
  destruct (setitem2_spec m p plane j k x Hpl Hj Hk) as (plane' & Hset & Hsh & Hnew & Hold).
  exists (<[i := plane']> T).
  unfold setitem3, getitem. rewrite Hplane. simpl. rewrite Hset. simpl.
  rewrite setitem_Ok by lia.
  split; [reflexivity |]. split; [| split].
  - split; [rewrite length_insert; exact Hn |].
    apply Forall_insert; [exact Hm | exact Hsh].
  - unfold cell3. rewrite list_lookup_insert_eq by lia. exact Hnew.
  - intros a b c Habc. unfold cell3.
    destruct (decide (a = i)) as [->|Hne].
    + rewrite list_lookup_insert_eq by lia. rewrite Hplane.
      apply Hold. congruence.
    + rewrite list_lookup_insert_ne by congruence. reflexivity.
Qed.

Lemma cell2_Some_lt {A : Type} (n m : nat) (M : list (list A)) (i j : nat) (x : A) :
  is_matrix n m M -> cell2 M i j = Some x -> (i < n)%nat /\ (j < m)%nat.
Proof.
  intros HM H. unfold cell2 in H.
  destruct (M !! i) as [row|] eqn:Hrow; [| discriminate].
  pose proof (is_matrix_row _ _ _ _ _ HM Hrow) as Hlen.
  apply lookup_lt_Some in Hrow. apply lookup_lt_Some in H.
  destruct HM as [Hn _]. lia.
Qed.

Lemma cell3_Some_lt {A : Type} (n m p : nat) (T : list (list (list A)))
    (i j k : nat) (x : A) :
  is_tensor3 n m p T -> cell3 T i j k = Some x ->
  (i < n)%nat /\ (j < m)%nat /\ (k < p)%nat.
Proof.
  intros [Hn Hm] H. unfold cell3 in H.
  destruct (T !! i) as [plane|] eqn:Hplane; [| discriminate].
  assert (is_matrix m p plane) as Hpl.
  { rewrite Forall_forall in Hm. apply Hm. eapply list_elem_of_lookup_2. exact Hplane. }
  apply lookup_lt_Some in Hplane.
  destruct (cell2_Some_lt _ _ _ _ _ _ Hpl H). lia.
Qed.

Lemma cell3_length {A : Type} (n m p : nat) (T : list (list (list A)))
    (i j k : nat) :
  is_tensor3 n m p T -> (i < n)%nat -> (j < m)%nat -> (k < p)%nat ->
  exists x, cell3 T i j k = Some x.
Proof.
  intros [Hn Hm] Hi Hj Hk. unfold cell3.
  destruct (lookup_lt_is_Some_2 T i) as [plane Hplane]; [lia |].
  rewrite Hplane.
  assert (is_matrix m p plane) as Hpl.
  { rewrite Forall_forall in Hm. apply Hm. eapply list_elem_of_lookup_2. exact Hplane. }
  exact (cell2_length m p plane j k Hpl Hj Hk).
Qed.

(** ** [create_Vmat] *)

Section CreateVmat.

Variables (EV : matrix) (e : tensor3) (beta : float) (P : matrix).
Variables (nz nk : nat).
Hypothesis EV_shape : is_matrix nz nk EV.
Hypothesis e_shape : is_tensor3 nz nk nk e.

Lemma filled_inner (i j : nat) (T : tensor3) :
  (i < nz)%nat -> (j < nk)%nat -> filled EV e beta nz nk i j 0 T ->
  exists T',
    for_range nk (fun m Vmat =>
      let* e_ijm := getitem3 e i j m in
      let* EV_im := getitem2 EV i m in
      setitem3 Vmat i j m (e_ijm + beta * EV_im)%float) T = Ok T' /\
    filled EV e beta nz nk i j nk T'.
Proof.
  intros Hi Hj H0.
  apply (for_range_inv (fun m T => filled EV e beta nz nk i j m T)); [exact H0 |].
  intros m T1 Hm [Hsh Hdone].
  destruct (cell3_length nz nk nk e i j m e_shape Hi Hj Hm) as [x Hx].
  destruct (cell2_length nz nk EV i m EV_shape Hi Hm) as [y Hy].
  destruct (setitem3_spec nz nk nk T1 i j m (x + beta * y)%float Hsh Hi Hj Hm)
    as (T2 & Hset & Hsh2 & Hnew & Hold).
  exists T2. split.
  - apply getitem3_cell in Hx. apply getitem2_cell in Hy.
    rewrite Hx. simpl. rewrite Hy. simpl. exact Hset.
  - split; [exact Hsh2 |].
    intros a b c x' y' Hw Hb Hc Hx' Hy'.
    destruct (decide ((a, b, c) = (i, j, m))) as [[= -> -> ->]|Hne].
    + rewrite Hnew. congruence.
    + rewrite Hold by exact Hne. apply Hdone; try assumption.
      unfold written in *.
      assert (c <> m \/ b <> j \/ a <> i) by
        (destruct (decide (c = m)); destruct (decide (b = j));
         destruct (decide (a = i)); subst; try congruence; lia).
      lia.
Qed.

Lemma filled_middle (i : nat) (T : tensor3) :
  (i < nz)%nat -> filled EV e beta nz nk i 0 0 T ->
  exists T',
    for_range nk (fun j Vmat =>
      for_range nk (fun m Vmat =>
        let* e_ijm := getitem3 e i j m in
        let* EV_im := getitem2 EV i m in
        setitem3 Vmat i j m (e_ijm + beta * EV_im)%float) Vmat) T = Ok T' /\
    filled EV e beta nz nk (S i) 0 0 T'.
Proof.
  intros Hi H0.
  destruct (for_range_inv (fun j T => filled EV e beta nz nk i j 0 T)
              (fun j Vmat =>
                 for_range nk (fun m Vmat =>
                   let* e_ijm := getitem3 e i j m in
                   let* EV_im := getitem2 EV i m in
                   setitem3 Vmat i j m (e_ijm + beta * EV_im)%float) Vmat)
              nk T H0) as (T' & Hrun & [Hsh Hdone]).
  - intros j T1 Hj H1.
    destruct (filled_inner i j T1 Hi Hj H1) as (T2 & Hrun & [Hsh Hdone]).
    exists T2. split; [exact Hrun |]. split; [exact Hsh |].
    intros a b c x y Hw Hb Hc. apply Hdone; try assumption.
    unfold written in *. lia.
  - exists T'. split; [exact Hrun |]. split; [exact Hsh |].
    intros a b c x y Hw Hb Hc. apply Hdone; try assumption.
    unfold written in *. lia.
Qed.

Lemma create_Vmat_spec (T : tensor3) :
  is_tensor3 nz nk nk T ->
  exists T', create_Vmat EV e beta P nz nk T = Ok T' /\
    is_tensor3 nz nk nk T' /\
    forall i j m x y, cell3 e i j m = Some x -> cell2 EV i m = Some y ->
      cell3 T' i j m = Some (x + beta * y)%float.
Proof.
  intros HT. unfold create_Vmat.
  destruct (for_range_inv (fun i T => filled EV e beta nz nk i 0 0 T)
              (fun i Vmat =>
                 for_range nk (fun j Vmat =>
                   for_range nk (fun m Vmat =>
                     let* e_ijm := getitem3 e i j m in
                     let* EV_im := getitem2 EV i m in
                     setitem3 Vmat i j m (e_ijm + beta * EV_im)%float) Vmat) Vmat)
              nz T) as (T' & Hrun & [Hsh Hdone]).
  - split; [exact HT |]. intros a b c x y Hw. unfold written in Hw. lia.
  - intros i T1 Hi H1. exact (filled_middle i T1 Hi H1).
  - exists T'. split; [exact Hrun |]. split; [exact Hsh |].
    intros i j m x y Hx Hy.
    destruct (cell3_Some_lt _ _ _ _ _ _ _ _ e_shape Hx) as (Hi & Hj & Hm).
    apply Hdone; try assumption. unfold written. lia.
Qed.

End CreateVmat.

(** ** Element-wise operations and reductions *)

Lemma shape2_is_matrix {A : Type} (n m : nat) (M : list (list A)) :
  is_matrix n m M <-> shape2 M = replicate n m.
Proof.
  unfold is_matrix, shape2. revert n. induction M as [|row M IH]; intros n; simpl.
  - split.
    + intros [<- _]. reflexivity.
    + destruct n; [split; [reflexivity | constructor] | discriminate].
  - split.
    + intros [<- H]. apply Forall_cons in H as [-> H]. simpl. f_equal.
      apply IH. split; [reflexivity | exact H].
    + destruct n as [|n]; [discriminate |]. simpl. intros [= Hrow HM].
      apply IH in HM as [HM1 HM2].
      split; [congruence |]. constructor; assumption.
Qed.

Lemma cell2_zip_with {A B C : Type} (f : A -> B -> C)
    (M : list (list A)) (N : list (list B)) (i j : nat) (x : A) (y : B) :
  cell2 M i j = Some x -> cell2 N i j = Some y ->
  cell2 (zip_with (zip_with f) M N) i j = Some (f x y).
Proof.
  unfold cell2. intros HM HN.
  destruct (M !! i) as [r|] eqn:Hr; [| discriminate].
  destruct (N !! i) as [s|] eqn:Hs; [| discriminate].
  rewrite lookup_zip_with, Hr. simpl. rewrite Hs. simpl.
  rewrite lookup_zip_with, HM. simpl. rewrite HN. reflexivity.
Qed.

Lemma map2_matrix_spec (f : float -> float -> float) (n m : nat) (A B : matrix) :
  is_matrix n m A -> is_matrix n m B ->
  exists C, map2_matrix f A B = Ok C /\ is_matrix n m C /\
    forall i j x y, cell2 A i j = Some x -> cell2 B i j = Some y ->
      cell2 C i j = Some (f x y).
Proof.
  intros HA HB. exists (zip_with (zip_with f) A B).
  unfold map2_matrix.
  pose proof (proj1 (shape2_is_matrix n m A) HA) as HsA.
  pose proof (proj1 (shape2_is_matrix n m B) HB) as HsB.
  rewrite bool_decide_eq_true_2 by congruence.
  split; [reflexivity |]. split.
  - destruct HA as [HA1 HA2], HB as [HB1 HB2]. split.
    + rewrite length_zip_with. lia.
    + apply Forall_forall. intros row Hrow.
      apply list_elem_of_lookup in Hrow as [i Hi].
      rewrite lookup_zip_with in Hi.
      destruct (A !! i) as [r|] eqn:Hr; [| discriminate]. simpl in Hi.
      destruct (B !! i) as [s|] eqn:Hs; [| discriminate]. simpl in Hi.
      injection Hi as <-. rewrite length_zip_with.
      rewrite Forall_forall in HA2, HB2.
      rewrite (HA2 r) by (eapply list_elem_of_lookup_2; exact Hr).
      rewrite (HB2 s) by (eapply list_elem_of_lookup_2; exact Hs). lia.
  - intros i j x y. apply cell2_zip_with.
Qed.

(** [map_result] succeeds exactly when the function succeeds on every
    element, and then relates the two lists element by element. *)
Lemma map_result_Forall2 {A B : Type} (f : A -> result B) (l : list A) (l' : list B) :
  map_result f l = Ok l' <-> Forall2 (fun x y => f x = Ok y) l l'.
Proof.
  revert l'. induction l as [|x l IH]; intros l'; simpl.
  - split.
    + intros [= <-]. constructor.
    + intros H. inversion H. reflexivity.
  - split.
    + intros H. apply bind_Ok in H as (y & Hy & H).
      apply bind_Ok in H as (ys & Hys & [= <-]).
      constructor; [exact Hy | apply IH; exact Hys].
    + intros H. inversion H as [|? y ? ys Hy Hys]; subst.
      rewrite Hy. simpl. apply IH in Hys. rewrite Hys. reflexivity.
Qed.

Lemma map_result_total {A B : Type} (f : A -> result B) (l : list A) :
  Forall (fun x => exists y, f x = Ok y) l -> exists l', map_result f l = Ok l'.
Proof.
  induction 1 as [|x l [y Hy] _ [l' Hl']]; simpl.
  - exists []. reflexivity.
  - exists (y :: l'). rewrite Hy. simpl. rewrite Hl'. reflexivity.
Qed.

(** The reduction of the last axis of a 3-D array with non-empty rows. *)
Lemma reduce_axis2_spec {B : Type} (f : vector -> result B) (n m p : nat) (T : tensor3) :
  is_tensor3 n m p T ->
  (forall l, l <> [] -> exists y, f l = Ok y) -> (1 <= p)%nat ->
  exists R, map_result (map_result f) T = Ok R /\ is_matrix n m R /\
    forall i j y, cell2 R i j = Some y ->
      exists row, cell2 T i j = Some row /\ length row = p /\ f row = Ok y.
Proof.
  intros [Hn Hm] Hf Hp.
  destruct (map_result_total (map_result f) T) as [R HR].
  { apply Forall_forall. intros plane Hplane.
    rewrite Forall_forall in Hm. destruct (Hm plane Hplane) as [_ Hrows].
    apply map_result_total. apply Forall_forall. intros row Hrow.
    rewrite Forall_forall in Hrows. apply Hf.
    intros ->. specialize (Hrows [] Hrow). simpl in Hrows. lia. }
  exists R. split; [exact HR |].
  apply map_result_Forall2 in HR.
  split; [split |].
  - apply Forall2_length in HR. lia.
  - apply Forall_forall. intros r Hr.
    apply list_elem_of_lookup in Hr as [i Hi].
    destruct (Forall2_lookup_r _ _ _ _ _ HR Hi) as (plane & Hplane & Hmap).
    apply map_result_Forall2 in Hmap. apply Forall2_length in Hmap.
    rewrite Forall_forall in Hm.
    destruct (Hm plane) as [Hlen _]; [eapply list_elem_of_lookup_2; exact Hplane |].
    lia.
  - intros i j y Hy. unfold cell2 in Hy.
    destruct (R !! i) as [r|] eqn:Hr; [| discriminate].
    destruct (Forall2_lookup_r _ _ _ _ _ HR Hr) as (plane & Hplane & Hmap).
    apply map_result_Forall2 in Hmap.
    destruct (Forall2_lookup_r _ _ _ _ _ Hmap Hy) as (row & Hrow & Hfrow).
    exists row. unfold cell2. rewrite Hplane. split; [exact Hrow |]. split; [| exact Hfrow].
    rewrite Forall_forall in Hm.
    destruct (Hm plane) as [_ Hrows]; [eapply list_elem_of_lookup_2; exact Hplane |].
    rewrite Forall_forall in Hrows. apply Hrows.
    eapply list_elem_of_lookup_2. exact Hrow.
Qed.

Lemma amax_total (l : vector) : l <> [] -> exists y, amax l = Ok y.
Proof.
  destruct l as [|x xs]; [congruence |]. intros _. simpl. eexists. reflexivity.
Qed.

Lemma np_argmax_total (l : vector) : l <> [] -> exists y, np_argmax l = Ok y.
Proof.
  destruct l as [|x xs]; [congruence |]. intros _. simpl. eexists. reflexivity.
Qed.

Lemma ncols_is_matrix {A : Type} (n m : nat) (M : list (list A)) :
  is_matrix n m M -> (1 <= n)%nat -> ncols M = m.
Proof.
  intros [Hn Hm] H1. destruct M as [|row M]; simpl in *; [lia |].
  apply Forall_cons in Hm as [Hrow _]. exact Hrow.
Qed.

Lemma np_dot_spec (kernel : nat -> nat -> vector -> vector -> float)
    (n k m : nat) (A B : matrix) :
  is_matrix n k A -> is_matrix k m B -> (1 <= k)%nat ->
  exists C, np_dot kernel A B = Ok C /\ is_matrix n m C /\
    forall i j a, A !! i = Some a -> (j < m)%nat ->
      cell2 C i j = Some (kernel i j a (column B j)).
Proof.
  intros [HA1 HA2] HB Hk. pose proof HB as [HB1 HB2].
  unfold np_dot.
  assert (forallb (fun a => Nat.eqb (length a) (length B)) A = true) as ->.
  { apply forallb_forall. intros a Ha. apply Nat.eqb_eq.
    rewrite Forall_forall in HA2. rewrite HB1. apply HA2.
    apply list_elem_of_In. exact Ha. }
  rewrite (ncols_is_matrix k m B HB Hk).
  eexists. split; [reflexivity |]. split; [split |].
  - rewrite length_imap. exact HA1.
  - apply Forall_forall. intros row Hrow.
    apply list_elem_of_lookup in Hrow as (i & Hrow).
    rewrite list_lookup_imap in Hrow.
    destruct (A !! i); simpl in Hrow; [| discriminate].
    injection Hrow as <-.
    rewrite length_map, length_seq. reflexivity.
  - intros i j a Ha Hj. unfold cell2.
    rewrite list_lookup_imap, Ha. simpl.
    rewrite list_lookup_fmap, lookup_seq_lt by exact Hj. reflexivity.
Qed.

(** ** Slice assignments *)

Lemma slice_bound_in (len : nat) (i : Z) :
  (0 <= i <= Z.of_nat len)%Z -> slice_bound len i = Z.to_nat i.
Proof.
  intros H. unfold slice_bound.
  destruct (Z.ltb_spec i 0); [lia |]. f_equal. lia.
Qed.

Lemma broadcast_same {A : Type} (n : nat) (src : list A) :
  length src = n -> broadcast n src = Ok src.
Proof.
  intros H. unfold broadcast. destruct (decide (length src = n)); [reflexivity | contradiction].
Qed.

Lemma assign_from_spec (row src : vector) (d : nat) :
  (d <= length row)%nat -> length src = (length row - d)%nat ->
  assign_from row (Z.of_nat d) src = Ok (take d row ++ src).
Proof.
  intros Hd Hsrc. unfold assign_from, slice_from.
  rewrite slice_bound_in by lia. rewrite Nat2Z.id.
  rewrite broadcast_same by (rewrite length_drop; exact Hsrc).
  reflexivity.
Qed.

Lemma assign_to_spec (row src : vector) (d : nat) :
  (d <= length row)%nat -> length src = d ->
  assign_to row (Z.of_nat d) src = Ok (src ++ drop d row).
Proof.
  intros Hd Hsrc. unfold assign_to, slice_to.
  rewrite slice_bound_in by lia. rewrite Nat2Z.id.
  rewrite broadcast_same by (rewrite length_take; lia).
  reflexivity.
Qed.

Lemma zip_result_pure {A B C : Type} (f : A -> B -> result C) (g : A -> B -> C)
    (l : list A) (k : list B) :
  (forall i x y, l !! i = Some x -> k !! i = Some y -> f x y = Ok (g x y)) ->
  zip_result f l k = Ok (zip_with g l k).
Proof.
  revert k. induction l as [|x l IH]; intros k H; simpl; [reflexivity |].
  destruct k as [|y k]; [reflexivity |].
  rewrite (H 0%nat x y) by reflexivity. simpl.
  rewrite IH; [reflexivity |].
  intros i x' y' Hx Hy. apply (H (S i)); assumption.
Qed.

Lemma is_matrix_zip_with {A B C : Type} (g : list A -> list B -> list C)
    (n m m' p : nat) (M : list (list A)) (N : list (list B)) :
  is_matrix n m M -> is_matrix n m' N ->
  (forall r s, length r = m -> length s = m' -> length (g r s) = p) ->
  is_matrix n p (zip_with g M N).
Proof.
  intros [HM1 HM2] [HN1 HN2] Hg. split.
  - rewrite length_zip_with. lia.
  - apply Forall_forall. intros row Hrow.
    apply list_elem_of_lookup in Hrow as [i Hi].
    rewrite lookup_zip_with in Hi.
    destruct (M !! i) as [r|] eqn:Hr; [| discriminate]. simpl in Hi.
    destruct (N !! i) as [s|] eqn:Hs; [| discriminate]. simpl in Hi.
    injection Hi as <-. rewrite Forall_forall in HM2. rewrite Forall_forall in HN2.
    apply Hg.
    + apply HM2. eapply list_elem_of_lookup_2. exact Hr.
    + apply HN2. eapply list_elem_of_lookup_2. exact Hs.
Qed.

(** [M[:, d:] = S]: the columns before [d] stay, the columns from [d] on
    are those of [S]. *)
Lemma assign_cols_from_spec (n m d : nat) (M S : matrix) :
  is_matrix n m M -> is_matrix n (m - d) S -> (d <= m)%nat ->
  exists M', assign_cols_from M (Z.of_nat d) S = Ok M' /\ is_matrix n m M' /\
    forall i j, (i < n)%nat ->
      ((j < d)%nat -> cell2 M' i j = cell2 M i j) /\
      ((d <= j)%nat -> cell2 M' i j = cell2 S i (j - d)).
Proof.
  intros HM HS Hd. pose proof HM as [HM1 HM2]. pose proof HS as [HS1 HS2].
  exists (zip_with (fun row src => take d row ++ src) M S).
  unfold assign_cols_from. rewrite broadcast_same by lia. simpl.
  split; [| split].
  - apply zip_result_pure. intros i row src Hrow Hsrc.
    apply assign_from_spec.
    + rewrite (is_matrix_row _ _ _ _ _ HM Hrow). exact Hd.
    + rewrite (is_matrix_row _ _ _ _ _ HM Hrow).
      exact (is_matrix_row _ _ _ _ _ HS Hsrc).
  - apply (is_matrix_zip_with _ n m (m - d) m M S HM HS).
    intros r s Hr Hs. rewrite length_app, length_take. lia.
  - intros i j Hi.
    destruct (lookup_lt_is_Some_2 M i) as [row Hrow]; [lia |].
    destruct (lookup_lt_is_Some_2 S i) as [src Hsrc]; [lia |].
    pose proof (is_matrix_row _ _ _ _ _ HM Hrow) as Hlen.
    unfold cell2. rewrite lookup_zip_with, Hrow. simpl. rewrite Hsrc. simpl.
    split; intros Hj.
    + rewrite lookup_app_l by (rewrite length_take; lia).
      apply lookup_take_lt. exact Hj.
    + rewrite lookup_app_r by (rewrite length_take; lia).
      rewrite length_take. f_equal. lia.
Qed.

(** [M[:, :d] = S]: the columns before [d] are those of [S], the others
    stay. *)
Lemma assign_cols_to_spec (n m d : nat) (M S : matrix) :
  is_matrix n m M -> is_matrix n d S -> (d <= m)%nat ->
  exists M', assign_cols_to M (Z.of_nat d) S = Ok M' /\ is_matrix n m M' /\
    forall i j, (i < n)%nat ->
      ((j < d)%nat -> cell2 M' i j = cell2 S i j) /\
      ((d <= j)%nat -> cell2 M' i j = cell2 M i j).
Proof.
  intros HM HS Hd. pose proof HM as [HM1 HM2]. pose proof HS as [HS1 HS2].
  exists (zip_with (fun row src => src ++ drop d row) M S).
  unfold assign_cols_to. rewrite broadcast_same by lia. simpl.
  split; [| split].
  - apply zip_result_pure. intros i row src Hrow Hsrc.
    apply assign_to_spec.
    + rewrite (is_matrix_row _ _ _ _ _ HM Hrow). exact Hd.
    + exact (is_matrix_row _ _ _ _ _ HS Hsrc).
  - apply (is_matrix_zip_with _ n m d m M S HM HS).
    intros r s Hr Hs. rewrite length_app, length_drop. lia.
  - intros i j Hi.
    destruct (lookup_lt_is_Some_2 M i) as [row Hrow]; [lia |].
    destruct (lookup_lt_is_Some_2 S i) as [src Hsrc]; [lia |].
    pose proof (is_matrix_row _ _ _ _ _ HS Hsrc) as Hlen.
    unfold cell2. rewrite lookup_zip_with, Hrow. simpl. rewrite Hsrc. simpl.
    split; intros Hj.
    + apply lookup_app_l. lia.
    + rewrite lookup_app_r by lia. rewrite lookup_drop. f_equal. lia.
Qed.

Lemma mjoin_replicate_singleton {A : Type} (d : nat) (x : A) :
  mjoin (replicate d [x]) = replicate d x.
Proof.
  induction d as [|d IH]; simpl; [reflexivity |]. rewrite IH. reflexivity.
Qed.

Lemma length_mjoin_matrix {A : Type} (n m : nat) (M : list (list A)) :
  is_matrix n m M -> length (mjoin M) = (n * m)%nat.
Proof.
  intros [<- Hm]. induction Hm as [|row M Hrow _ IH]; simpl; [reflexivity |].
  rewrite length_app, IH, Hrow. reflexivity.
Qed.

(** [EV[:, 0]], reshaped to a column and tiled [d] times. *)
Lemma tile_column_spec (n m d : nat) (EV : matrix) :
  is_matrix n m EV -> (1 <= m)%nat ->
  exists col0 tiled,
    map_result (fun row => getitem row 0) EV = Ok col0 /\
    np_reshape_col col0 n = Ok (map (fun x => [x]) col0) /\
    np_tile_cols (map (fun x => [x]) col0) (Z.of_nat d) = Ok tiled /\
    is_matrix n d tiled /\
    forall i j, (i < n)%nat -> (j < d)%nat -> cell2 tiled i j = cell2 EV i 0.
Proof.
  intros HEV Hm. pose proof HEV as [H1 H2].
  destruct (map_result_total (fun row : vector => getitem row 0) EV) as [col0 Hcol0].
  { apply Forall_forall. intros row Hrow. rewrite Forall_forall in H2.
    specialize (H2 row Hrow).
    destruct (lookup_lt_is_Some_2 row 0) as [x Hx]; [lia |].
    exists x. apply getitem_Ok. exact Hx. }
  exists col0, (map (fun row => mjoin (replicate d row)) (map (fun x => [x]) col0)).
  pose proof (proj1 (map_result_Forall2 _ _ _) Hcol0) as HF.
  pose proof (Forall2_length _ _ _ HF) as Hlen.
  split; [exact Hcol0 |]. split; [| split; [| split]].
  - unfold np_reshape_col. destruct (decide (length col0 = n)); [reflexivity | lia].
  - unfold np_tile_cols. destruct (Z.ltb_spec (Z.of_nat d) 0); [lia |].
    rewrite Nat2Z.id. reflexivity.
  - split; [rewrite !length_map; lia |].
    apply Forall_forall. intros row Hrow.
    apply list_elem_of_fmap in Hrow as (r & -> & Hr).
    apply list_elem_of_fmap in Hr as (x & -> & _).
    rewrite mjoin_replicate_singleton, length_replicate. reflexivity.
  - intros i j Hi Hj.
    destruct (lookup_lt_is_Some_2 col0 i) as [x Hx]; [lia |].
    destruct (Forall2_lookup_r _ _ _ _ _ HF Hx) as (row & Hrow & Hget).
    apply getitem_Ok in Hget.
    unfold cell2. rewrite !list_lookup_fmap, Hx, Hrow. simpl.
    rewrite mjoin_replicate_singleton, Hget.
    apply lookup_replicate_2. exact Hj.
Qed.

Lemma slice_columns_spec (n m c : nat) (EV : matrix) :
  is_matrix n m EV -> (c <= m)%nat ->
  is_matrix n c (map (fun row => slice_to row (Z.of_nat c)) EV) /\
  forall i j, (j < c)%nat ->
    cell2 (map (fun row => slice_to row (Z.of_nat c)) EV) i j = cell2 EV i j.
Proof.
  intros HEV Hc. pose proof HEV as [H1 H2]. split; [split |].
  - rewrite length_map. exact H1.
  - apply Forall_forall. intros row Hrow.
    apply list_elem_of_fmap in Hrow as (r & -> & Hr).
    rewrite Forall_forall in H2. specialize (H2 r Hr).
    unfold slice_to. rewrite slice_bound_in by lia.
    rewrite length_take. lia.
  - intros i j Hj. unfold cell2. rewrite list_lookup_fmap.
    destruct (EV !! i) as [row|] eqn:Hrow; simpl; [| reflexivity].
    pose proof (is_matrix_row _ _ _ _ _ HEV Hrow) as Hlen.
    unfold slice_to. rewrite slice_bound_in by lia. rewrite Nat2Z.id.
    apply lookup_take_lt. exact Hj.
Qed.

(** The two slice assignments of the loop together. *)
Lemma EV_i_spec (inp : input) (EV_i0 EV : matrix) :
  wf_input inp ->
  is_matrix (sizez inp) (sizek inp) EV_i0 ->
  is_matrix (sizez inp) (sizek inp) EV ->
  exists EV_i1 col0 tiled EV_i2,
    assign_cols_from EV_i0 (dens inp)
      (map (fun row => slice_to row (Z.of_nat (sizek inp) - dens inp)) EV) = Ok EV_i1 /\
    map_result (fun row => getitem row 0) EV = Ok col0 /\
    np_reshape_col col0 (sizez inp) = Ok (map (fun x => [x]) col0) /\
    np_tile_cols (map (fun x => [x]) col0) (dens inp) = Ok tiled /\
    assign_cols_to EV_i1 (dens inp) tiled = Ok EV_i2 /\
    is_matrix (sizez inp) (sizek inp) EV_i2 /\
    forall z j, (z < sizez inp)%nat -> (j < sizek inp)%nat ->
      cell2 EV_i2 z j = cell2 EV z (shifted inp j).
Proof.
  intros (Hz & Hk & Hd & _) H0 HEV.
  set (d := Z.to_nat (dens inp)).
  assert (dens inp = Z.of_nat d) as Hdd by (unfold d; lia).
  assert (d <= sizek inp)%nat as Hdk by (unfold d; lia).
  assert ((Z.of_nat (sizek inp) - dens inp)%Z = Z.of_nat (sizek inp - d)) as Hc by lia.
  destruct (slice_columns_spec _ _ (sizek inp - d) EV HEV) as [HS1 HS2]; [lia |].
  destruct (assign_cols_from_spec _ _ d EV_i0 _ H0 HS1 Hdk) as (EV_i1 & He1 & Hsh1 & Hc1).
  destruct (tile_column_spec _ _ d EV HEV Hk) as (col0 & tiled & Hcol & Hre & Hti & Hsht & Hct).
  destruct (assign_cols_to_spec _ _ d EV_i1 tiled Hsh1 Hsht Hdk) as (EV_i2 & He2 & Hsh2 & Hc2).
  exists EV_i1, col0, tiled, EV_i2.
  rewrite Hc, Hdd. repeat (split; [assumption |]).
  intros z j Hzz Hj. unfold shifted. fold d.
  destruct (Hc2 z j Hzz) as [Hlo Hhi]. destruct (Hc1 z j Hzz) as [_ Hhi1].
  destruct (decide (j < d)%nat) as [Hlt|Hge].
  - rewrite Hlo by exact Hlt. apply Hct; assumption.
  - rewrite Hhi by lia. rewrite Hhi1 by lia. apply HS2. lia.
Qed.

(** ** One pass of the loop *)

Lemma store_spec (inp : input) (Vs : list (option matrix)) (it : Z) (V1 : matrix) :
  is_matrix (sizez inp) (sizek inp) V1 ->
  length Vs = Z.to_nat (VFmaxiter inp) ->
  (1 <= it < VFmaxiter inp)%Z ->
  exists Vs', store Vs it V1 (sizez inp) (sizek inp) = Ok Vs' /\
    length Vs' = Z.to_nat (VFmaxiter inp).
Proof.
  intros HV Hlen Hit. unfold store.
  rewrite bool_decide_eq_true_2 by (apply length_mjoin_matrix; exact HV).
  unfold py_index.
  destruct (Z.ltb_spec it 0); [lia |].
  destruct (Z.ltb_spec it (Z.of_nat (length Vs))); [| lia].
  simpl. rewrite setitem_Ok by lia.
  eexists. split; [reflexivity |]. rewrite length_insert. exact Hlen.
Qed.

(** A pass on well-shaped arrays raises nothing and establishes
    [pass_post]. *)
Lemma body_spec (inp : input) (st : state) :
  wf_input inp -> wf_state inp st -> (VFiter st < VFmaxiter inp)%Z ->
  exists EV st',
    np_dot (dot inp) (Pi inp) (V st) = Ok EV /\
    is_matrix (sizez inp) (sizek inp) EV /\
    body inp st = Ok st' /\
    pass_post inp st EV st'.
Proof.
  intros Hinp (HV & HEVi & HVmat & HVs & Hit) Hlt.
  pose proof Hinp as (Hz & Hk & Hd & HPi & Hea & Hei).
  destruct (np_dot_spec (dot inp) _ _ _ _ _ HPi HV Hz) as (EV & Hdot & HEV & _).
  destruct (EV_i_spec inp (EV_i st) EV Hinp HEVi HEV)
    as (EV_i1 & col0 & tiled & EV_i2 & Ha1 & Hcol & Hre & Hti & Ha2 & HEVi2 & HcEVi).
  destruct (create_Vmat_spec EV (e_a inp) (betafirm inp) (Pi inp) _ _ HEV Hea (Vmat st) HVmat)
    as (Vmat1 & Hcre & HVmat1 & HcVmat).
  destruct (map2_matrix_spec (fun e ev => (e + betafirm inp * ev)%float) _ _ _ _ Hei HEVi2)
    as (Vi & HVi & HshVi & HcVi).
  destruct (reduce_axis2_spec amax _ _ _ Vmat1 HVmat1 amax_total Hk)
    as (Va & HVa & HshVa & HcVa).
  destruct (reduce_axis2_spec np_argmax _ _ _ Vmat1 HVmat1 np_argmax_total Hk)
    as (PF & HPF & HshPF & HcPF).
  destruct (map2_matrix_spec np_maximum _ _ _ _ HshVa HshVi) as (V1 & HV1 & HshV1 & HcV1).
  destruct (store_spec inp (Vstore st) (VFiter st) V1 HshV1 HVs) as (Vs' & Hst & HVs'); [lia |].
  destruct (map2_matrix_spec (fun x y => PrimFloat.abs (x - y)%float) _ _ _ _ HshV1 HV)
    as (diff & Hdiff & Hshdiff & _).
  destruct (amax_total (mjoin diff)) as [dist Hdist].
  { intros Hnil. apply (f_equal length) in Hnil.
    rewrite (length_mjoin_matrix _ _ _ Hshdiff) in Hnil. simpl in Hnil. nia. }
  exists EV. eexists. split; [exact Hdot |]. split; [exact HEV |]. split.
  - unfold body. rewrite Hdot. simpl. rewrite Ha1. simpl. rewrite Hcol. simpl.
    rewrite Hre. simpl. rewrite Hti. simpl. rewrite Ha2. simpl.
    rewrite Hcre. simpl. rewrite HVi. simpl.
    unfold max_axis2, argmax_axis2. rewrite HVa. simpl. rewrite HPF. simpl.
    rewrite HV1. simpl. rewrite Hst. simpl. rewrite Hdiff. simpl.
    rewrite Hdist. simpl. reflexivity.
  - split; [| split; [reflexivity |]].
    + unfold wf_state. simpl. repeat (split; [assumption |]). lia.
    + exists Vi, Va, PF, diff. simpl.
      repeat (split; [first [reflexivity | assumption] |]).
      split.
      * intros z k c Hc. destruct (HcPF z k c Hc) as (row & Hrow & _ & Harg).
        exists row. split; assumption.
      * split; [exact HcV1 |]. split; assumption.
Qed.

(** ** The [while] loop *)

Lemma is_matrix_zeros (n m : nat) : is_matrix n m (np_zeros2 n m).
Proof.
  split; [apply length_replicate |].
  apply Forall_replicate. apply length_replicate.
Qed.

Lemma is_matrix_empty (junk : nat -> nat -> float) (n m : nat) :
  is_matrix n m (np_empty2 junk n m).
Proof.
  unfold np_empty2. split; [rewrite length_map, length_seq; reflexivity |].
  apply Forall_forall. intros row Hrow.
  apply list_elem_of_fmap in Hrow as (i & -> & _).
  rewrite length_map, length_seq. reflexivity.
Qed.

Lemma is_tensor3_empty (junk : nat -> nat -> nat -> float) (n m p : nat) :
  is_tensor3 n m p (np_empty3 junk n m p).
Proof.
  unfold np_empty3. split; [rewrite length_map, length_seq; reflexivity |].
  apply Forall_forall. intros plane Hplane.
  apply list_elem_of_fmap in Hplane as (i & -> & _).
  apply is_matrix_empty.
Qed.

Lemma init_Ok (inp : input) (st0 : state) :
  init inp = Ok st0 ->
  (0 <= VFmaxiter inp)%Z /\ wf_state inp st0 /\ VFiter st0 = 1%Z /\
  VFdist st0 = 7%float /\ V_i st0 = None /\ V_a st0 = None /\
  PF_continuous st0 = None.
Proof.
  unfold init. destruct (Z.ltb_spec (VFmaxiter inp) 0); [discriminate |].
  intros [= <-]. simpl. split; [assumption |]. split; [| repeat split].
  unfold wf_state. simpl. split; [apply is_matrix_zeros |].
  split; [apply is_matrix_empty |]. split; [apply is_tensor3_empty |].
  split; [apply length_replicate | lia].
Qed.

Lemma init_total (inp : input) :
  (0 <= VFmaxiter inp)%Z -> exists st0, init inp = Ok st0.
Proof.
  intros H. unfold init. destruct (Z.ltb_spec (VFmaxiter inp) 0); [lia |].
  eexists. reflexivity.
Qed.

(** Whatever the arrays hold, a pass that ends adds one to the counter. *)
Lemma body_VFiter (inp : input) (st st' : state) :
  body inp st = Ok st' -> VFiter st' = (VFiter st + 1)%Z.
Proof.
  unfold body. intros H.
  repeat (apply bind_Ok in H as (? & _ & H)).
  injection H as <-. reflexivity.
Qed.

Lemma guard_true (inp : input) (st : state) :
  guard inp st = true ->
  PrimFloat.ltb (VFtol inp) (VFdist st) = true /\ (VFiter st < VFmaxiter inp)%Z.
Proof.
  unfold guard. intros H. apply andb_prop in H as [H1 H2].
  split; [exact H1 | apply Z.ltb_lt; exact H2].
Qed.

Lemma guard_false (inp : input) (st : state) :
  guard inp st = false <->
  PrimFloat.ltb (VFtol inp) (VFdist st) = false \/ (VFmaxiter inp <= VFiter st)%Z.
Proof.
  unfold guard. rewrite andb_false_iff, Z.ltb_ge. reflexivity.
Qed.

(** The loop never runs out of fuel once the fuel covers the distance of
    the counter to the ceiling. *)
Lemma vfi_loop_fuel (inp : input) (fuel : nat) (st : state) :
  (VFmaxiter inp - VFiter st <= Z.of_nat fuel)%Z ->
  exists r, vfi_loop inp fuel st = Some r.
Proof.
  revert st. induction fuel as [|fuel IH]; intros st Hfuel; simpl.
  - destruct (guard inp st) eqn:Hg; [| eexists; reflexivity].
    apply guard_true in Hg as [_ Hg]. lia.
  - destruct (guard inp st) eqn:Hg; [| eexists; reflexivity].
    destruct (body inp st) as [st'|e] eqn:Hb; [| eexists; reflexivity].
    apply IH. rewrite (body_VFiter _ _ _ Hb). lia.
Qed.

(** More fuel than needed does not change the result. *)
Lemma vfi_loop_more_fuel (inp : input) (fuel fuel' : nat) (st : state)
    (r : result state) :
  vfi_loop inp fuel st = Some r -> (fuel <= fuel')%nat ->
  vfi_loop inp fuel' st = Some r.
Proof.
  revert fuel' st. induction fuel as [|fuel IH]; intros fuel' st H Hle; simpl in H.
  - destruct (guard inp st) eqn:Hg; [discriminate |].
    destruct fuel'; simpl; rewrite Hg; exact H.
  - destruct fuel' as [|fuel']; [lia |]. simpl.
    destruct (guard inp st) eqn:Hg; [| exact H].
    destruct (body inp st) as [st'|e]; [| exact H].
    apply IH; [exact H | lia].
Qed.

(** [n] passes add [n] to the counter, and the last of them started below
    the ceiling. *)
Lemma passes_VFiter (inp : input) (n : nat) (st st' : state) :
  passes inp n st st' ->
  VFiter st' = (VFiter st + Z.of_nat n)%Z /\
  ((1 <= n)%nat -> (VFiter st' <= VFmaxiter inp)%Z).
Proof.
  induction 1 as [st | n st st1 st' Hg Hb Hp [IH1 IH2]].
  - split; [lia | lia].
  - apply guard_true in Hg as [_ Hg].
    pose proof (body_VFiter _ _ _ Hb) as Hit.
    split; [lia |]. intros _.
    destruct n as [|n]; [| apply IH2; lia].
    inversion Hp; subst. lia.
Qed.

(** The loop is the sequence of passes up to the first state that fails
    the test. *)
Lemma vfi_loop_passes (inp : input) (fuel : nat) (st st' : state) :
  vfi_loop inp fuel st = Some (Ok st') ->
  guard inp st' = false /\ exists n, passes inp n st st' /\ (n <= fuel)%nat.
Proof.
  revert st. induction fuel as [|fuel IH]; intros st H; simpl in H.
  - destruct (guard inp st) eqn:Hg; [discriminate |].
    injection H as <-. split; [exact Hg |]. exists 0%nat. split; [constructor | lia].
  - destruct (guard inp st) eqn:Hg.
    + destruct (body inp st) as [st1|e] eqn:Hb; [| discriminate].
      destruct (IH st1 H) as (Hg' & n & Hp & Hn).
      split; [exact Hg' |]. exists (S n). split; [| lia].
      econstructor; eassumption.
    + injection H as <-. split; [exact Hg |]. exists 0%nat. split; [constructor | lia].
Qed.

Lemma passes_stop (inp : input) (n : nat) (st st' : state) :
  passes inp n st st' -> guard inp st' = false ->
  forall fuel st'', vfi_loop inp fuel st = Some (Ok st'') -> st'' = st'.
Proof.
  induction 1 as [st | n st st1 st' Hg Hb Hp IH]; intros Hstop fuel st'' H.
  - destruct fuel; simpl in H; rewrite Hstop in H; congruence.
  - destruct fuel as [|fuel]; simpl in H; rewrite Hg in H; [discriminate |].
    rewrite Hb in H. exact (IH Hstop fuel st'' H).
Qed.

Lemma passes_reachable (inp : input) (n : nat) (st st' : state) :
  passes inp n st st' -> reachable inp st -> reachable inp st'.
Proof.
  induction 1 as [st | n st st1 st' Hg Hb Hp IH]; intros Hr; [exact Hr |].
  apply IH. econstructor; eassumption.
Qed.

(** At the head of the loop the arrays are well shaped, and either no pass
    has run and the names [V_i], [V_a], [PF_continuous] are unbound, or the
    last pass has left [pass_post]. *)
Lemma reachable_wf (inp : input) (st : state) :
  wf_input inp -> reachable inp st ->
  wf_state inp st /\
  ((V_i st = None /\ V_a st = None /\ PF_continuous st = None) \/
   exists prev EV, reachable inp prev /\ guard inp prev = true /\
     np_dot (dot inp) (Pi inp) (V prev) = Ok EV /\
     is_matrix (sizez inp) (sizek inp) EV /\
     body inp prev = Ok st /\ pass_post inp prev EV st).
Proof.
  intros Hinp. induction 1 as [st0 Hinit | st st' Hr [IHwf _] Hg Hb].
  - apply init_Ok in Hinit as (_ & Hwf & _ & _ & H1 & H2 & H3).
    split; [exact Hwf |]. left. repeat split; assumption.
  - apply guard_true in Hg as Hg'. destruct Hg' as [_ Hlt].
    destruct (body_spec inp st Hinp IHwf Hlt) as (EV & st1 & Hdot & HEV & Hb1 & Hpost).
    assert (st1 = st') as -> by congruence.
    split; [exact (proj1 Hpost) |]. right.
    exists st, EV. repeat (split; [assumption |]). exact Hpost.
Qed.

(** ** The policy loop *)

Section PolicyLoop.

Variables (inp : input) (st : state).
Variables (Vi Va : matrix) (PF : imatrix).
Hypothesis V_i_bound : V_i st = Some Vi.
Hypothesis V_a_bound : V_a st = Some Va.
Hypothesis PF_bound : PF_continuous st = Some PF.
Hypothesis Vi_shape : is_matrix (sizez inp) (sizek inp) Vi.
Hypothesis Va_shape : is_matrix (sizez inp) (sizek inp) Va.
Hypothesis PF_shape : is_matrix (sizez inp) (sizek inp) PF.

Lemma policy_at_ext (a b : nat) (vi va : float) (PFd PFd' : matrix)
    (PFc PFc' : imatrix) :
  cell2 PFd' a b = cell2 PFd a b -> cell2 PFc' a b = cell2 PFc a b ->
  policy_at inp PF a b vi va PFd PFc -> policy_at inp PF a b vi va PFd' PFc'.
Proof.
  unfold policy_at. intros -> ->. exact (fun H => H).
Qed.

Lemma policy_cell_spec (i j : nat) (pf : matrix * option imatrix) :
  (i < sizez inp)%nat -> (j < sizek inp)%nat -> policy_inv inp Vi Va PF i j pf ->
  exists pf', policy_cell inp st i j pf = Ok pf' /\ policy_inv inp Vi Va PF i (S j) pf'.
Proof.
  intros Hi Hj (PFc & HPFc & HshD & HshC & Hcells).
  destruct pf as [PFd PFc0]. simpl in HPFc, HshD, Hcells. subst PFc0.
  destruct (cell2_length _ _ Vi i j Vi_shape Hi Hj) as [vi Hvi].
  destruct (cell2_length _ _ Va i j Va_shape Hi Hj) as [va Hva].
  destruct (cell2_length _ _ PFc i j HshC Hi Hj) as [k Hk].
  pose proof (Hcells i j vi va Hi Hj Hvi Hva) as Hij.
  destruct (decide (i < i \/ (i = i /\ j < j))%nat) as [Hbad|_]; [lia |].
  destruct Hij as [HjunkD HjunkC].
  unfold policy_cell. rewrite V_i_bound, V_a_bound. simpl.
  rewrite (proj2 (getitem2_cell Vi i j vi) Hvi). simpl.
  rewrite (proj2 (getitem2_cell Va i j va) Hva). simpl.
  assert (forall (PFd' : matrix) (PFc' : imatrix),
    is_matrix (sizez inp) (sizek inp) PFd' -> is_matrix (sizez inp) (sizek inp) PFc' ->
    (forall a b, (a, b) <> (i, j) -> cell2 PFd' a b = cell2 PFd a b) ->
    (forall a b, (a, b) <> (i, j) -> cell2 PFc' a b = cell2 PFc a b) ->
    policy_at inp PF i j vi va PFd' PFc' ->
    policy_inv inp Vi Va PF i (S j) (PFd', Some PFc')) as Hclose.
  { intros PFd' PFc' Hs1 Hs2 Ho1 Ho2 Hat. exists PFc'. simpl.
    split; [reflexivity |]. split; [exact Hs1 |]. split; [exact Hs2 |].
    intros a b vi' va' Ha Hb Hvi' Hva'.
    destruct (decide ((a, b) = (i, j))) as [[= -> ->]|Hne].
    - destruct (decide (i < i \/ (i = i /\ j < S j))%nat) as [_|Hbad]; [| lia].
      assert (vi' = vi) as -> by congruence. assert (va' = va) as -> by congruence.
      exact Hat.
    - specialize (Hcells a b vi' va' Ha Hb Hvi' Hva').
      assert (b <> j \/ a <> i) as Hab by
        (destruct (decide (b = j)); destruct (decide (a = i)); subst;
         try congruence; lia).
      destruct (decide (a < i \/ (a = i /\ b < S j))%nat) as [Hin|Hout].
      + destruct (decide (a < i \/ (a = i /\ b < j))%nat) as [_|Hbad]; [| lia].
        apply (policy_at_ext a b vi' va' PFd PFd' PFc PFc');
          [apply Ho1 | apply Ho2 |]; assumption.
      + destruct (decide (a < i \/ (a = i /\ b < j))%nat) as [Hbad|_]; [lia |].
        rewrite Ho1, Ho2 by exact Hne. exact Hcells. }
  destruct (PrimFloat.leb va vi) eqn:Hle.
  - destruct (setitem2_spec _ _ PFd i j 0%float HshD Hi Hj) as (PFd' & Hs1 & Hsh1 & Hn1 & Ho1).
    destruct (setitem2_spec _ _ PFc i j (Z.of_nat j - dens inp)%Z HshC Hi Hj)
      as (PFc' & Hs2 & Hsh2 & Hn2 & Ho2).
    exists (PFd', Some PFc'). simpl. rewrite Hs1. simpl. rewrite Hs2. simpl.
    split; [reflexivity |].
    apply Hclose; try assumption.
    unfold policy_at. rewrite Hle. split; assumption.
  - destruct (PrimFloat.ltb vi va) eqn:Hlt.
    + destruct (setitem2_spec _ _ PFd i j 1%float HshD Hi Hj) as (PFd' & Hs1 & Hsh1 & Hn1 & Ho1).
      destruct (setitem2_spec _ _ PFc i j k HshC Hi Hj) as (PFc' & Hs2 & Hsh2 & Hn2 & Ho2).
      exists (PFd', Some PFc'). simpl. rewrite Hs1. simpl.
      rewrite (proj2 (getitem2_cell PFc i j k) Hk). simpl. rewrite Hs2. simpl.
      split; [reflexivity |].
      apply Hclose; try assumption.
      unfold policy_at. rewrite Hle, Hlt. split; [exact Hn1 | congruence].
    + exists (PFd, Some PFc). split; [reflexivity |].
      apply Hclose; try assumption; try reflexivity.
      unfold policy_at. rewrite Hle, Hlt. split; assumption.
Qed.

(** The loop raises nothing, and every cell holds what its branch wrote. *)
Lemma policy_loop_spec :
  exists PFd PFc, policy_loop inp st = Ok (PFd, Some PFc) /\
    is_matrix (sizez inp) (sizek inp) PFd /\
    is_matrix (sizez inp) (sizek inp) PFc /\
    forall i j vi va, cell2 Vi i j = Some vi -> cell2 Va i j = Some va ->
      policy_at inp PF i j vi va PFd PFc.
Proof.
  unfold policy_loop.
  destruct (for_range_inv (fun i pf => policy_inv inp Vi Va PF i 0 pf)
    (fun i pf => for_range (sizek inp) (fun j pf => policy_cell inp st i j pf) pf)
    (sizez inp)
    (np_empty2 (junk_PF_discrete inp) (sizez inp) (sizek inp), PF_continuous st))
    as (pf & Hrun & PFc & HPFc & HshD & HshC & Hcells).
  - exists PF. simpl. split; [exact PF_bound |]. split; [apply is_matrix_empty |].
    split; [exact PF_shape |].
    intros a b vi va Ha Hb _ _.
    destruct (decide (a < 0 \/ (a = 0 /\ b < 0))%nat) as [Hbad|_]; [lia |].
    split; [| reflexivity].
    unfold cell2, np_empty2.
    rewrite list_lookup_fmap, lookup_seq_lt by exact Ha. simpl.
    rewrite list_lookup_fmap, lookup_seq_lt by exact Hb. reflexivity.
  - intros i pf Hi Hinv.
    destruct (for_range_inv (fun j pf => policy_inv inp Vi Va PF i j pf)
      (fun j pf => policy_cell inp st i j pf) (sizek inp) pf Hinv)
      as (pf' & Hrun & PFc & HPFc & HshD & HshC & Hcells).
    + intros j pf1 Hj H1. exact (policy_cell_spec i j pf1 Hi Hj H1).
    + exists pf'. split; [exact Hrun |].
      exists PFc. repeat (split; [assumption |]).
      intros a b vi va Ha Hb Hvi Hva.
      specialize (Hcells a b vi va Ha Hb Hvi Hva).
      destruct (decide (a < S i \/ (a = S i /\ b < 0))%nat) as [Hin|Hout];
        destruct (decide (a < i \/ (a = i /\ b < sizek inp))%nat) as [Hin'|Hout'];
        try lia; exact Hcells.
  - destruct pf as [PFd PFc0]. simpl in HPFc, HshD, Hcells. subst PFc0.
    exists PFd, PFc. split; [exact Hrun |]. repeat (split; [assumption |]).
    intros i j vi va Hvi Hva.
    destruct (cell2_Some_lt _ _ _ _ _ _ Vi_shape Hvi) as [Hi Hj].
    specialize (Hcells i j vi va Hi Hj Hvi Hva).
    destruct (decide (i < sizez inp \/ (i = sizez inp /\ j < 0))%nat) as [_|Hbad]; [| lia].
    exact Hcells.
Qed.

End PolicyLoop.

(** ** The whole cell *)

Lemma solve_Ok (inp : input) (fuel : nat) (out : output) :
  solve inp fuel = Some (Ok out) ->
  exists st0 st pf,
    init inp = Ok st0 /\ vfi_loop inp fuel st0 = Some (Ok st) /\
    policy_loop inp st = Ok pf /\
    printed out = print_report inp st /\ final out = st /\ VF out = V st /\
    PF_discrete out = fst pf /\ PF_continuous_out out = snd pf.
Proof.
  unfold solve. intros H.
  destruct (init inp) as [st0|e] eqn:Hinit; [| discriminate].
  destruct (vfi_loop inp fuel st0) as [[st|e]|] eqn:Hloop; try discriminate.
  unfold after_loop in H. injection H as H.
  apply bind_Ok in H as (pf & Hpf & [= <-]).
  exists st0, st, pf. simpl. repeat split; assumption.
Qed.

Lemma vfi_loop_reachable (inp : input) (fuel : nat) (st0 st : state) :
  init inp = Ok st0 -> vfi_loop inp fuel st0 = Some (Ok st) -> reachable inp st.
Proof.
  intros Hinit Hloop.
  destruct (vfi_loop_passes _ _ _ _ Hloop) as (_ & n & Hp & _).
  apply (passes_reachable _ _ _ _ Hp). constructor. exact Hinit.
Qed.

(** With the names unbound the policy loop raises at its first cell. *)
Lemma policy_loop_unbound (inp : input) (st : state) :
  (1 <= sizez inp)%nat -> (1 <= sizek inp)%nat -> V_i st = None ->
  policy_loop inp st = Raise NameError.
Proof.
  intros Hz Hk Hnone. unfold policy_loop, for_range.
  destruct (sizez inp) as [|nz]; [lia |]. destruct (sizek inp) as [|nk]; [lia |].
  simpl. unfold policy_cell. rewrite Hnone. reflexivity.
Qed.

(** The policy arrays at termination, cell by cell. *)
Lemma policy_at_termination (inp : input) (fuel : nat) (out : output) :
  wf_input inp -> solve inp fuel = Some (Ok out) ->
  exists Vi Va PF PFc,
    V_i (final out) = Some Vi /\ V_a (final out) = Some Va /\
    PF_continuous (final out) = Some PF /\ PF_continuous_out out = Some PFc /\
    is_matrix (sizez inp) (sizek inp) Vi /\
    is_matrix (sizez inp) (sizek inp) Va /\
    is_matrix (sizez inp) (sizek inp) (PF_discrete out) /\
    is_matrix (sizez inp) (sizek inp) PFc /\
    (forall i j c, cell2 PF i j = Some c ->
       exists row, cell2 (Vmat (final out)) i j = Some row /\
         np_argmax row = Ok c) /\
    forall i j vi va, cell2 Vi i j = Some vi -> cell2 Va i j = Some va ->
      policy_at inp PF i j vi va (PF_discrete out) PFc.
Proof.
  intros Hinp Hsolve.
  destruct (solve_Ok _ _ _ Hsolve) as (st0 & st & pf & Hinit & Hloop & Hpol & _ & Hfin & _ & HD & HC).
  pose proof (vfi_loop_reachable _ _ _ _ Hinit Hloop) as Hreach.
  destruct (reachable_wf inp st Hinp Hreach) as [Hwf [(Hnone & _)|Hpass]].
  - destruct Hinp as (Hz & Hk & _).
    rewrite (policy_loop_unbound inp st Hz Hk Hnone) in Hpol. discriminate.
  - destruct Hpass as (prev & EV & _ & _ & _ & _ & _ & Hpost).
    destruct Hpost as (_ & _ & Vi & Va & PF & diff & HVi & HVa & HPF & HsVi & HsVa &
                       HsPF & _ & _ & _ & _ & Harg & _).
    destruct (policy_loop_spec inp st Vi Va PF HVi HVa HPF HsVi HsVa HsPF)
      as (PFd & PFc & Hrun & HsD & HsC & Hcells).
    rewrite Hpol in Hrun. injection Hrun as ->.
    exists Vi, Va, PF, PFc. rewrite Hfin, HD, HC. simpl.
    repeat (split; [first [reflexivity | assumption] |]). exact Hcells.
Qed.

(** The whole cell ends with the fuel [enough_fuel], whatever it reads:
    with a result or with an exception. *)
Lemma solve_terminates (inp : input) :
  exists r, solve inp (enough_fuel inp) = Some r.
Proof.
  unfold solve. destruct (init inp) as [st0|e] eqn:Hinit; [| eexists; reflexivity].
  destruct (init_Ok _ _ Hinit) as (_ & _ & Hit & _).
  destruct (vfi_loop_fuel inp (enough_fuel inp) st0) as [r Hr].
  { unfold enough_fuel. lia. }
  rewrite Hr. destruct r as [st|e]; eexists; reflexivity.
Qed.

(** C9.  For every iteration ceiling of at least 1 and whatever the arrays
    hold, the loop terminates: the counter starts at 1, every pass that ends
    adds exactly one to it, the fuel [VFmaxiter - 1] (one unit per pass) is
    always enough, more fuel gives the same result, and no run has more
    than [VFmaxiter - 1] passes. *)
Theorem C9_loop_terminates (inp : input) :
  (1 <= VFmaxiter inp)%Z ->
  exists st0, init inp = Ok st0 /\ VFiter st0 = 1%Z /\
    (forall st st', body inp st = Ok st' -> VFiter st' = (VFiter st + 1)%Z) /\
    (exists r, vfi_loop inp (enough_fuel inp) st0 = Some r /\
       forall fuel, (enough_fuel inp <= fuel)%nat ->
         vfi_loop inp fuel st0 = Some r) /\
    (forall n st', passes inp n st0 st' ->
       (Z.of_nat n <= VFmaxiter inp - 1)%Z).
Proof.
  intros Hmax.
  destruct (init_total inp) as [st0 Hinit]; [lia |].
  destruct (init_Ok _ _ Hinit) as (_ & _ & Hit & _).
  exists st0. split; [exact Hinit |]. split; [exact Hit |].
  split; [apply body_VFiter |]. split.
  - destruct (vfi_loop_fuel inp (enough_fuel inp) st0) as [r Hr].
    { unfold enough_fuel. lia. }
    exists r. split; [exact Hr |].
    intros fuel Hfuel. exact (vfi_loop_more_fuel _ _ _ _ _ Hr Hfuel).
  - intros n st' Hp. destruct (passes_VFiter _ _ _ _ Hp) as [H1 H2].
    destruct n as [|n]; [lia |].
    assert (VFiter st' <= VFmaxiter inp)%Z by (apply H2; lia). lia.
Qed.

Lemma C9_loop_terminates_witness :
  exists st0, init Inputs.last_pass = Ok st0 /\ VFiter st0 = 1%Z /\
    (forall st st', body Inputs.last_pass st = Ok st' ->
       VFiter st' = (VFiter st + 1)%Z) /\
    (exists r, vfi_loop Inputs.last_pass (enough_fuel Inputs.last_pass) st0 = Some r /\
       forall fuel, (enough_fuel Inputs.last_pass <= fuel)%nat ->
         vfi_loop Inputs.last_pass fuel st0 = Some r) /\
    (forall n st', passes Inputs.last_pass n st0 st' ->
       (Z.of_nat n <= VFmaxiter Inputs.last_pass - 1)%Z).
Proof.
  apply (C9_loop_terminates Inputs.last_pass). simpl. lia.
Defined.

(** ** binary64 facts, from the specification of the primitive operations *)

Lemma eqb_leb (a b : float) :
  PrimFloat.eqb a b = true -> PrimFloat.leb a b = true.
Proof.
  rewrite FloatAxioms.eqb_spec, FloatAxioms.leb_spec. unfold SFeqb, SFleb.
  destruct (SFcompare (Prim2SF a) (Prim2SF b)) as [[| |]|]; congruence.
Qed.

Lemma SFcompare_refl (x : spec_float) :
  x <> S754_nan -> SFcompare x x = Some Eq.
Proof.
  destruct x as [s|s| |s m e]; simpl; intros H; try congruence.
  - destruct s; reflexivity.
  - rewrite Z.compare_refl, Pos.compare_cont_refl. destruct s; reflexivity.
Qed.

Lemma is_nan_spec (x : float) :
  PrimFloat.is_nan x = true <-> Prim2SF x = S754_nan.
Proof.
  unfold PrimFloat.is_nan. rewrite FloatAxioms.eqb_spec. unfold SFeqb. split.
  - intros H. destruct (Prim2SF x) eqn:Hx; try reflexivity; exfalso;
      rewrite SFcompare_refl in H by congruence; discriminate.
  - intros ->. reflexivity.
Qed.

Lemma Prim2SF_infinity : Prim2SF PrimFloat.infinity = S754_infinity false.
Proof. reflexivity. Qed.

Lemma is_infinity_spec (x : float) :
  PrimFloat.is_infinity x = true <-> exists s, Prim2SF x = S754_infinity s.
Proof.
  unfold PrimFloat.is_infinity. rewrite FloatAxioms.eqb_spec, FloatAxioms.abs_spec, Prim2SF_infinity.
  unfold SFeqb. split.
  - destruct (Prim2SF x) as [s|s| |s m e]; simpl; intros H; try discriminate.
    exists s. reflexivity.
  - intros [s ->]. reflexivity.
Qed.

Lemma finite_false (x : float) :
  finite x = false <->
  Prim2SF x = S754_nan \/ exists s, Prim2SF x = S754_infinity s.
Proof.
  unfold finite, PrimFloat.is_finite.
  rewrite negb_false_iff, orb_true_iff, is_nan_spec, is_infinity_spec.
  reflexivity.
Qed.

Lemma nan_or_pinf_spec (x : float) :
  nan_or_pinf x = true <->
  Prim2SF x = S754_nan \/ Prim2SF x = S754_infinity false.
Proof.
  unfold nan_or_pinf. rewrite orb_true_iff, is_nan_spec.
  rewrite FloatAxioms.eqb_spec, Prim2SF_infinity. unfold SFeqb. split.
  - intros [H|H]; [left; exact H |].
    destruct (Prim2SF x) as [s|[|]| |s m e]; simpl in H; try discriminate.
    right. reflexivity.
  - intros [H|H]; [left; exact H | right]. rewrite H. reflexivity.
Qed.

(** A sum with a non-finite term is not finite. *)
Lemma add_not_finite (x y : float) :
  finite x = false -> finite (x + y)%float = false.
Proof.
  rewrite !finite_false, FloatAxioms.add_spec. unfold SF64add, SFadd.
  intros [->|[s ->]]; [left; reflexivity |].
  destruct (Prim2SF y) as [s'|s'| |s' m e]; try (right; exists s; reflexivity);
    try (left; reflexivity).
  destruct s, s'; try (right; eexists; reflexivity); left; reflexivity.
Qed.

(** A sum with a NaN or positive infinite term is NaN or the positive
    infinity. *)
Lemma add_nan_or_pinf (x y : float) :
  nan_or_pinf x = true -> nan_or_pinf (x + y)%float = true.
Proof.
  rewrite !nan_or_pinf_spec, FloatAxioms.add_spec. unfold SF64add, SFadd.
  intros [->| ->]; [left; reflexivity |].
  destruct (Prim2SF y) as [s'|s'| |s' m e]; try (right; reflexivity);
    try (left; reflexivity).
  destruct s'; [left | right]; reflexivity.
Qed.

(** [np.maximum] with a NaN or positive infinite second operand is not
    finite. *)
Lemma np_maximum_not_finite (a b : float) :
  nan_or_pinf b = true -> finite (np_maximum a b) = false.
Proof.
  intros Hb. apply nan_or_pinf_spec in Hb. unfold np_maximum.
  destruct (PrimFloat.is_nan a) eqn:Hnan.
  - rewrite orb_true_r. apply finite_false. left. apply is_nan_spec. exact Hnan.
  - rewrite orb_false_r. rewrite FloatAxioms.leb_spec. unfold SFleb.
    destruct Hb as [Hb|Hb]; rewrite Hb.
    + simpl. apply finite_false. left. exact Hb.
    + destruct (Prim2SF a) as [s|[|]| |s m e] eqn:Ha; simpl;
        apply finite_false; try (right; exists false; exact Hb).
      right. exists false. exact Ha.
Qed.

(** *** The order of binary64 values *)

Ltac cmp_cases :=
  repeat match goal with
  | H : context [Z.compare ?a ?b] |- _ =>
      destruct (Z.compare_spec a b); subst
  | |- context [Z.compare ?a ?b] =>
      destruct (Z.compare_spec a b); subst
  | H : context [Pos.compare_cont Eq ?a ?b] |- _ =>
      change (Pos.compare_cont Eq a b) with (Pos.compare a b) in *;
      destruct (Pos.compare_spec a b); subst
  | |- context [Pos.compare_cont Eq ?a ?b] =>
      change (Pos.compare_cont Eq a b) with (Pos.compare a b) in *;
      destruct (Pos.compare_spec a b); subst
  end.

Lemma SFleb_trans (x y z : spec_float) :
  SFleb x y = true -> SFleb y z = true -> SFleb x z = true.
Proof.
  unfold SFleb.
  destruct x as [[|]|[|]| |[|] mx ex], y as [[|]|[|]| |[|] my ey],
           z as [[|]|[|]| |[|] mz ez];
    simpl; intros H1 H2; try discriminate; try reflexivity;
    cmp_cases; simpl in *; try discriminate; try reflexivity; try lia.
Qed.

Lemma SFleb_total (x y : spec_float) :
  x <> S754_nan -> y <> S754_nan -> SFleb y x = false -> SFleb x y = true.
Proof.
  unfold SFleb.
  destruct x as [[|]|[|]| |[|] mx ex], y as [[|]|[|]| |[|] my ey];
    simpl; intros Hx Hy H1; try discriminate; try reflexivity; try congruence;
    cmp_cases; simpl in *; try discriminate; try reflexivity; try lia.
Qed.

Lemma is_nan_false (x : float) :
  PrimFloat.is_nan x = false <-> Prim2SF x <> S754_nan.
Proof.
  rewrite <- is_nan_spec. destruct (PrimFloat.is_nan x); split; congruence.
Qed.

Lemma leb_refl (a : float) :
  PrimFloat.is_nan a = false -> PrimFloat.leb a a = true.
Proof.
  intros Ha. apply is_nan_false in Ha.
  rewrite FloatAxioms.leb_spec. unfold SFleb.
  rewrite SFcompare_refl by exact Ha. reflexivity.
Qed.

Lemma leb_trans (a b c : float) :
  PrimFloat.leb a b = true -> PrimFloat.leb b c = true ->
  PrimFloat.leb a c = true.
Proof.
  rewrite !FloatAxioms.leb_spec. apply SFleb_trans.
Qed.

Lemma leb_total (a b : float) :
  PrimFloat.is_nan a = false -> PrimFloat.is_nan b = false ->
  PrimFloat.leb b a = false -> PrimFloat.leb a b = true.
Proof.
  rewrite !is_nan_false, !FloatAxioms.leb_spec. apply SFleb_total.
Qed.

(** Without NaN, [np.maximum] returns one of its operands, and it is above
    both. *)
Lemma np_maximum_spec (a b : float) :
  PrimFloat.is_nan a = false -> PrimFloat.is_nan b = false ->
  PrimFloat.is_nan (np_maximum a b) = false /\
  (np_maximum a b = a \/ np_maximum a b = b) /\
  PrimFloat.leb a (np_maximum a b) = true /\
  PrimFloat.leb b (np_maximum a b) = true.
Proof.
  intros Ha Hb. unfold np_maximum. rewrite Ha, orb_false_r.
  destruct (PrimFloat.leb b a) eqn:Hle.
  - split; [exact Ha |]. split; [left; reflexivity |].
    split; [apply leb_refl; exact Ha | exact Hle].
  - split; [exact Hb |]. split; [right; reflexivity |].
    split; [apply leb_total; assumption | apply leb_refl; exact Hb].
Qed.

Lemma foldl_maximum_spec (xs : vector) (x : float) :
  PrimFloat.is_nan x = false ->
  Forall (fun y => PrimFloat.is_nan y = false) xs ->
  PrimFloat.is_nan (foldl np_maximum x xs) = false /\
  foldl np_maximum x xs ∈ x :: xs /\
  PrimFloat.leb x (foldl np_maximum x xs) = true /\
  Forall (fun y => PrimFloat.leb y (foldl np_maximum x xs) = true) xs.
Proof.
  intros Hx Hxs. revert x Hx.
  induction Hxs as [|y xs Hy _ IH]; intros x Hx; simpl.
  - split; [exact Hx |]. split; [apply list_elem_of_here |].
    split; [apply leb_refl; exact Hx | constructor].
  - destruct (np_maximum_spec x y Hx Hy) as (Hn & Hsel & Hxm & Hym).
    destruct (IH (np_maximum x y) Hn) as (Hn' & Hin & Hle & Hall).
    split; [exact Hn' |]. split; [| split].
    + apply elem_of_cons in Hin as [Heq | Hin].
      * rewrite Heq. destruct Hsel as [-> | ->];
          [apply list_elem_of_here | apply list_elem_of_further, list_elem_of_here].
      * do 2 apply list_elem_of_further. exact Hin.
    + exact (leb_trans _ _ _ Hxm Hle).
    + constructor; [exact (leb_trans _ _ _ Hym Hle) | exact Hall].
Qed.

(** [x.max()] of an array without NaN is an element of the array that is
    above every element. *)
Lemma amax_is_maximum (row : vector) (a : float) :
  amax row = Ok a -> Forall (fun y => PrimFloat.is_nan y = false) row ->
  a ∈ row /\ Forall (fun y => PrimFloat.leb y a = true) row.
Proof.
  destruct row as [|x xs]; simpl; [discriminate |].
  intros [= <-] Hall. apply Forall_cons in Hall as [Hx Hxs].
  destruct (foldl_maximum_spec xs x Hx Hxs) as (_ & Hin & Hle & Hrest).
  split; [exact Hin |]. constructor; assumption.
Qed.

Lemma SFltb_of_not_leb (x y : spec_float) :
  x <> S754_nan -> y <> S754_nan -> SFleb x y = false -> SFltb y x = true.
Proof.
  unfold SFleb, SFltb.
  destruct x as [[|]|[|]| |[|] mx ex], y as [[|]|[|]| |[|] my ey];
    simpl; intros Hx Hy H1; try discriminate; try reflexivity; try congruence;
    cmp_cases; simpl in *; try discriminate; try reflexivity; try lia.
Qed.

Lemma ltb_of_not_leb (a b : float) :
  PrimFloat.is_nan a = false -> PrimFloat.is_nan b = false ->
  PrimFloat.leb a b = false -> PrimFloat.ltb b a = true.
Proof.
  rewrite !is_nan_false, FloatAxioms.leb_spec, FloatAxioms.ltb_spec.
  apply SFltb_of_not_leb.
Qed.

Lemma compare_nan (a b : float) :
  PrimFloat.is_nan a = true \/ PrimFloat.is_nan b = true ->
  PrimFloat.leb a b = false /\ PrimFloat.ltb a b = false.
Proof.
  rewrite !is_nan_spec, FloatAxioms.leb_spec, FloatAxioms.ltb_spec.
  unfold SFleb, SFltb. intros [-> | ->].
  - split; reflexivity.
  - destruct (Prim2SF a); split; reflexivity.
Qed.


Lemma foldl_maximum_has_nan (xs : vector) (a : float) :
  PrimFloat.is_nan a = true \/ Exists (fun y => PrimFloat.is_nan y = true) xs ->
  PrimFloat.is_nan (foldl np_maximum a xs) = true.
Proof.
  revert a. induction xs as [|x xs IH]; intros a [Ha|Hx]; simpl.
  - exact Ha.
  - inversion Hx.
  - apply IH. left. unfold np_maximum. rewrite Ha, orb_true_r. exact Ha.
  - apply IH. apply Exists_cons in Hx as [Hx|Hx]; [left | right; exact Hx].
    unfold np_maximum. destruct (PrimFloat.is_nan a) eqn:Ha.
    + rewrite orb_true_r. exact Ha.
    + destruct (compare_nan x a) as [Hle _]; [left; exact Hx |].
      rewrite Hle. exact Hx.
Qed.

Lemma amax_has_nan (l : vector) (a x : float) :
  amax l = Ok a -> x ∈ l -> PrimFloat.is_nan x = true ->
  PrimFloat.is_nan a = true.
Proof.
  destruct l as [|y ys]; simpl; [discriminate |].
  intros [= <-] Hin Hx. apply foldl_maximum_has_nan.
  apply elem_of_cons in Hin as [<- | Hin]; [left; exact Hx | right].
  apply Exists_exists. exists x. split; assumption.
Qed.

(** [np.argmax] of an array without NaN: the index of an element that is
    above every element and strictly above those before it. *)
Lemma argmax_from_spec (l pre : vector) (mp : float) (best : nat) :
  PrimFloat.is_nan mp = false ->
  Forall (fun y => PrimFloat.is_nan y = false) l ->
  pre !! best = Some mp ->
  Forall (fun y => PrimFloat.leb y mp = true) pre ->
  (forall i y, (i < best)%nat -> pre !! i = Some y -> PrimFloat.leb mp y = false) ->
  exists m,
    (pre ++ l) !! argmax_from mp best (length pre) l = Some m /\
    Forall (fun y => PrimFloat.leb y m = true) (pre ++ l) /\
    (forall i y, (i < argmax_from mp best (length pre) l)%nat ->
       (pre ++ l) !! i = Some y -> PrimFloat.leb m y = false).
Proof.
  intros Hmp Hl. revert pre mp best Hmp.
  induction Hl as [|x xs Hx _ IH]; intros pre mp best Hmp Hbest Hpre Hfirst; simpl.
  - rewrite app_nil_r. exists mp. split; [exact Hbest |]. split; [exact Hpre | exact Hfirst].
  - rewrite Hmp.
    replace (pre ++ x :: xs) with ((pre ++ [x]) ++ xs) by (rewrite <- app_assoc; reflexivity).
    replace (S (length pre)) with (length (pre ++ [x])) by (rewrite length_app; simpl; lia).
    destruct (PrimFloat.leb x mp) eqn:Hle; simpl.
    + apply IH; [exact Hmp | | |].
      * apply lookup_app_l_Some. exact Hbest.
      * apply Forall_app. split; [exact Hpre | constructor; [exact Hle | constructor]].
      * intros i y Hi Hy. apply (Hfirst i y Hi).
        pose proof (lookup_lt_Some _ _ _ Hbest).
        rewrite lookup_app_l in Hy by lia. exact Hy.
    + pose proof (leb_total mp x Hmp Hx Hle) as Hgt.
      replace (length pre) with (length pre + 0)%nat at 1 by lia.
      replace (argmax_from x (length pre + 0) (length (pre ++ [x])) xs)
        with (argmax_from x (length pre) (length (pre ++ [x])) xs)
        by (rewrite Nat.add_0_r; reflexivity).
      apply IH; [exact Hx | | |].
      * rewrite lookup_app_r by lia. rewrite Nat.sub_diag. reflexivity.
      * apply Forall_app. split.
        -- eapply Forall_impl; [exact Hpre |]. intros y Hy. simpl in Hy.
           exact (leb_trans _ _ _ Hy Hgt).
        -- constructor; [apply leb_refl; exact Hx | constructor].
      * intros i y Hi Hy. rewrite lookup_app_l in Hy by lia.
        destruct (PrimFloat.leb x y) eqn:Hxy; [| reflexivity].
        rewrite Forall_forall in Hpre.
        assert (PrimFloat.leb y mp = true) as Hym
          by (apply Hpre; eapply list_elem_of_lookup_2; exact Hy).
        rewrite (leb_trans _ _ _ Hxy Hym) in Hle. discriminate.
Qed.

Lemma np_argmax_is_argmax (row : vector) (c : Z) :
  np_argmax row = Ok c -> Forall (fun y => PrimFloat.is_nan y = false) row ->
  exists m, (0 <= c)%Z /\ row !! Z.to_nat c = Some m /\
    Forall (fun y => PrimFloat.leb y m = true) row /\
    (forall i y, (i < Z.to_nat c)%nat -> row !! i = Some y ->
       PrimFloat.leb m y = false).
Proof.
  destruct row as [|x xs]; simpl; [discriminate |].
  intros [= <-] Hall. apply Forall_cons in Hall as [Hx Hxs].
  destruct (argmax_from_spec xs [x] x 0 Hx Hxs) as (m & Hm & Hmax & Hfirst).
  - reflexivity.
  - constructor; [apply leb_refl; exact Hx | constructor].
  - intros i y Hi. lia.
  - exists m. rewrite Nat2Z.id. split; [lia |]. split; [exact Hm |].
    split; [exact Hmax | exact Hfirst].
Qed.

(** ** The report *)

(** C2, as amended.  When the loop ends: if the cell prints "converged"
    then the test [VFdist > VFtol] has failed on the last distance (it is at
    or below the tolerance, or NaN; it is the placeholder 7.0 when no pass
    has run); whenever at some point of the run that test fails with the
    counter below the ceiling, the cell prints "converged"; and whenever the
    loop ends with the distance above the tolerance, the cell prints "did
    not converge", a distinct outcome. *)
Theorem C2_report (inp : input) (fuel : nat) (st0 st : state) :
  init inp = Ok st0 -> vfi_loop inp fuel st0 = Some (Ok st) ->
  (print_report inp st = Converged (VFiter st) ->
     PrimFloat.ltb (VFtol inp) (VFdist st) = false) /\
  (test_failed_below_ceiling inp st0 ->
     print_report inp st = Converged (VFiter st)) /\
  (PrimFloat.ltb (VFtol inp) (VFdist st) = true ->
     print_report inp st = DidNotConverge) /\
  Converged (VFiter st) <> DidNotConverge.
Proof.
  intros Hinit Hloop.
  destruct (vfi_loop_passes _ _ _ _ Hloop) as (Hstop & n & Hp & _).
  split; [| split; [| split; [| discriminate]]].
  - unfold print_report.
    destruct (Z.ltb_spec (VFiter st) (VFmaxiter inp)) as [Hlt|Hge]; [| discriminate].
    intros _. apply guard_false in Hstop as [Hd|Hc]; [exact Hd | lia].
  - intros (n' & st' & Hp' & Hd & Hlt).
    assert (guard inp st' = false) as Hstop' by (apply guard_false; left; exact Hd).
    rewrite (passes_stop _ _ _ _ Hp' Hstop' _ _ Hloop). unfold print_report.
    destruct (Z.ltb_spec (VFiter st') (VFmaxiter inp)); [reflexivity | lia].
  - intros Hd. unfold print_report.
    destruct (Z.ltb_spec (VFiter st) (VFmaxiter inp)) as [Hlt|Hge]; [| reflexivity].
    apply guard_false in Hstop as [Hd'|Hc]; [congruence | lia].
Qed.

Lemma C2_report_witness :
  exists st0 st,
    init Inputs.inaction = Ok st0 /\
    vfi_loop Inputs.inaction (enough_fuel Inputs.inaction) st0 = Some (Ok st) /\
    print_report Inputs.inaction st = Converged 5 /\
    ((print_report Inputs.inaction st = Converged (VFiter st) ->
        PrimFloat.ltb (VFtol Inputs.inaction) (VFdist st) = false) /\
     (test_failed_below_ceiling Inputs.inaction st0 ->
        print_report Inputs.inaction st = Converged (VFiter st)) /\
     (PrimFloat.ltb (VFtol Inputs.inaction) (VFdist st) = true ->
        print_report Inputs.inaction st = DidNotConverge) /\
     Converged (VFiter st) <> DidNotConverge).
Proof.
  eexists. eexists.
  split; [vm_compute; reflexivity |].
  split; [vm_compute; reflexivity |].
  split; [vm_compute; reflexivity |].
  apply (C2_report Inputs.inaction (enough_fuel Inputs.inaction));
    vm_compute; reflexivity.
Defined.

(** C2, as stated, fails.  With a tolerance of 1 and a first distance of
    exactly 1 the test [VFdist > VFtol] fails after the first pass and the
    cell prints "converged after 2 iterations", although at no point of the
    run was the distance below the tolerance. *)
Lemma C2_counterexample :
  exists st0 st,
    init Inputs.tie = Ok st0 /\
    vfi_loop Inputs.tie (enough_fuel Inputs.tie) st0 = Some (Ok st) /\
    print_report Inputs.tie st = Converged 2 /\
    VFdist st = 1%float /\ VFtol Inputs.tie = 1%float /\
    ~ fell_below Inputs.tie st0.
Proof.
  eexists. eexists.
  split; [vm_compute; reflexivity |].
  split; [vm_compute; reflexivity |].
  split; [vm_compute; reflexivity |].
  split; [reflexivity |]. split; [reflexivity |].
  intros (n & st' & Hp & Hlt).
  inversion Hp as [? | n1 ? st1 ? Hg Hb Hp1]; subst.
  - vm_compute in Hlt. discriminate.
  - vm_compute in Hb. injection Hb as <-.
    inversion Hp1 as [? | n2 ? st2 ? Hg2 Hb2 Hp2]; subst.
    + vm_compute in Hlt. discriminate.
    + vm_compute in Hg2. discriminate.
Qed.

(** The run in which the tolerance is first met by the last pass that the
    ceiling lets in: the loop is left with the distance 0.5 below the
    tolerance 0.75 and the counter at the ceiling 3, and the cell prints
    "did not converge". *)
Example report_on_last_pass :
  exists st0 st,
    init Inputs.last_pass = Ok st0 /\
    vfi_loop Inputs.last_pass (enough_fuel Inputs.last_pass) st0 = Some (Ok st) /\
    VFdist st = 0.5%float /\ VFtol Inputs.last_pass = 0.75%float /\
    VFiter st = VFmaxiter Inputs.last_pass /\
    print_report Inputs.last_pass st = DidNotConverge.
Proof.
  eexists. eexists.
  split; [vm_compute; reflexivity |].
  split; [vm_compute; reflexivity |].
  repeat split.
Qed.

(** ** The Bellman operator *)

(** C5.  In every pass of the loop, with [EV = np.dot(Pi, V)] for the [V]
    at the start of the pass, the two slice assignments leave in
    [EV_i[z, j]] the value [EV[z, j - dens]] when [j >= dens] and the value
    [EV[z, 0]] when [j < dens]; every cell of [EV_i] is written from a cell
    of [EV] that exists. *)
Theorem C5_inactive_continuation (inp : input) (st : state) :
  wf_input inp -> reachable inp st -> guard inp st = true ->
  exists EV st',
    np_dot (dot inp) (Pi inp) (V st) = Ok EV /\ body inp st = Ok st' /\
    forall z j, (z < sizez inp)%nat -> (j < sizek inp)%nat ->
      is_Some (cell2 (EV_i st') z j) /\
      ((dens inp <= Z.of_nat j)%Z ->
         cell2 (EV_i st') z j = cell2 EV z (j - Z.to_nat (dens inp))) /\
      ((Z.of_nat j < dens inp)%Z -> cell2 (EV_i st') z j = cell2 EV z 0).
Proof.
  intros Hinp Hreach Hg.
  destruct (reachable_wf inp st Hinp Hreach) as [Hwf _].
  apply guard_true in Hg as [_ Hlt].
  destruct (body_spec inp st Hinp Hwf Hlt) as (EV & st' & Hdot & HEV & Hb & Hpost).
  destruct Hpost as ((_ & HEVi & _) & _ & Vi & Va & PF & diff & _ & _ & _ & _ & _ & _ & Hsh & _).
  exists EV, st'. split; [exact Hdot |]. split; [exact Hb |].
  intros z j Hz Hj. split; [| split].
  - destruct (cell2_length _ _ _ z j HEVi Hz Hj) as [x Hx]. rewrite Hx. eexists. reflexivity.
  - intros Hge. rewrite (Hsh z j Hz Hj). unfold shifted.
    destruct (decide (j < Z.to_nat (dens inp))%nat); [lia | reflexivity].
  - intros Hlo. rewrite (Hsh z j Hz Hj). unfold shifted.
    destruct (decide (j < Z.to_nat (dens inp))%nat); [reflexivity | lia].
Qed.

Lemma wf_input_inaction : wf_input Inputs.inaction.
Proof.
  unfold wf_input, is_tensor3, is_matrix. simpl.
  repeat split; try lia; repeat constructor.
Qed.

Lemma C5_inactive_continuation_witness :
  exists st0, init Inputs.inaction = Ok st0 /\
  exists EV st',
    np_dot (dot Inputs.inaction) (Pi Inputs.inaction) (V st0) = Ok EV /\
    body Inputs.inaction st0 = Ok st' /\
    forall z j, (z < sizez Inputs.inaction)%nat -> (j < sizek Inputs.inaction)%nat ->
      is_Some (cell2 (EV_i st') z j) /\
      ((dens Inputs.inaction <= Z.of_nat j)%Z ->
         cell2 (EV_i st') z j = cell2 EV z (j - Z.to_nat (dens Inputs.inaction))) /\
      ((Z.of_nat j < dens Inputs.inaction)%Z -> cell2 (EV_i st') z j = cell2 EV z 0).
Proof.
  eexists. split; [vm_compute; reflexivity |].
  apply (C5_inactive_continuation Inputs.inaction).
  - exact wf_input_inaction.
  - apply reach_init. vm_compute. reflexivity.
  - vm_compute. reflexivity.
Defined.


Lemma wf_input_two_states : wf_input Inputs.two_states.
Proof.
  unfold wf_input, is_tensor3, is_matrix. simpl.
  repeat split; try lia; repeat constructor.
Qed.


(** ** The policy arrays at termination *)

(** C6.  At termination, in every state where [V_a[z, k] == V_i[z, k]]
    holds (equality of binary64 values, as [==] tests it), the policy loop
    leaves [PF_discrete[z, k] = 0]: the test [V_i >= V_a] comes first and
    holds on a tie. *)
Theorem C6_tie_inactive (inp : input) (fuel : nat) (out : output)
    (Vi Va : matrix) (z k : nat) (vi va : float) :
  wf_input inp -> solve inp fuel = Some (Ok out) ->
  V_i (final out) = Some Vi -> V_a (final out) = Some Va ->
  cell2 Vi z k = Some vi -> cell2 Va z k = Some va ->
  PrimFloat.eqb va vi = true ->
  cell2 (PF_discrete out) z k = Some 0%float.
Proof.
  intros Hinp Hsolve HVi HVa Hvi Hva Heq.
  destruct (policy_at_termination inp fuel out Hinp Hsolve)
    as (Vi' & Va' & PF & PFc & HVi' & HVa' & _ & _ & _ & _ & _ & _ & _ & Hcells).
  assert (Vi' = Vi) as -> by congruence. assert (Va' = Va) as -> by congruence.
  specialize (Hcells z k vi va Hvi Hva). unfold policy_at in Hcells.
  rewrite (eqb_leb va vi Heq) in Hcells. exact (proj1 Hcells).
Qed.

Lemma wf_input_ties : wf_input Inputs.ties.
Proof.
  unfold wf_input, is_tensor3, is_matrix. simpl.
  repeat split; try lia; repeat constructor.
Qed.

Lemma C6_tie_inactive_witness :
  exists out, solve Inputs.ties (enough_fuel Inputs.ties) = Some (Ok out) /\
    cell2 (PF_discrete out) 0 1 = Some 0%float.
Proof.
  eexists. split; [vm_compute; reflexivity |].
  eapply (C6_tie_inactive Inputs.ties (enough_fuel Inputs.ties) _
            [[0%float; 0%float]] [[0%float; 0%float]] 0 1 0%float 0%float).
  - exact wf_input_ties.
  - vm_compute. reflexivity.
  - vm_compute. reflexivity.
  - vm_compute. reflexivity.
  - reflexivity.
  - reflexivity.
  - vm_compute. reflexivity.
Defined.

(** C1, what the code does and a failing input.  On well-shaped arrays,
    at termination, in every state with [V_i >= V_a] the policy loop leaves
    [PF_discrete = 0] and stores [np.max(k_idx - dens, 0)], which is
    [k_idx - dens], negative when [k_idx < dens]; in every state with
    [V_a > V_i] it leaves [PF_discrete = 1] and [PF_continuous] as
    [np.argmax] of the row of [Vmat] left it.  With the density 5 of the
    notebook and six grid points on which inaction is optimal everywhere,
    the stored indices are -5, -4, -3, -2, -1, 0, not floored at 0, and
    cell 9 reads [kvec] with them from the end of the grid. *)
Theorem C1_inactive_index_not_floored :
  (forall inp fuel out, wf_input inp -> solve inp fuel = Some (Ok out) ->
     exists Vi Va PFc,
       V_i (final out) = Some Vi /\ V_a (final out) = Some Va /\
       PF_continuous_out out = Some PFc /\
       forall z k, (z < sizez inp)%nat -> (k < sizek inp)%nat ->
         exists vi va,
           cell2 Vi z k = Some vi /\ cell2 Va z k = Some va /\
           (PrimFloat.leb va vi = true ->
              cell2 (PF_discrete out) z k = Some 0%float /\
              cell2 PFc z k = Some (Z.of_nat k - dens inp)%Z) /\
           (PrimFloat.leb va vi = false -> PrimFloat.ltb vi va = true ->
              cell2 (PF_discrete out) z k = Some 1%float /\
              exists row c, cell2 (Vmat (final out)) z k = Some row /\
                np_argmax row = Ok c /\ cell2 PFc z k = Some c)) /\
  (exists out Vi Va,
     solve Inputs.inaction (enough_fuel Inputs.inaction) = Some (Ok out) /\
     V_i (final out) = Some Vi /\ V_a (final out) = Some Va /\
     (forall j, (j < 6)%nat -> exists vi va,
        cell2 Vi 0 j = Some vi /\ cell2 Va 0 j = Some va /\
        PrimFloat.leb va vi = true) /\
     PF_discrete out = [replicate 6 0%float] /\
     PF_continuous_out out = Some [[-5; -4; -3; -2; -1; 0]%Z] /\
     Z.max (0 - dens Inputs.inaction) 0 = 0%Z /\
     forall k0 k1 k2 k3 k4 k5 : float,
       optK [k0; k1; k2; k3; k4; k5] [[-5; -4; -3; -2; -1; 0]%Z] =
       Ok [[k1; k2; k3; k4; k5; k0]]).
Proof.
  split.
  - intros inp fuel out Hinp Hsolve.
    destruct (policy_at_termination inp fuel out Hinp Hsolve)
      as (Vi & Va & PF & PFc & HVi & HVa & _ & HPFc & HsVi & HsVa & _ & _ &
          Harg & Hcells).
    exists Vi, Va, PFc. repeat (split; [assumption |]).
    intros z k Hz Hk.
    destruct (cell2_length _ _ _ z k HsVi Hz Hk) as [vi Hvi].
    destruct (cell2_length _ _ _ z k HsVa Hz Hk) as [va Hva].
    exists vi, va. split; [exact Hvi |]. split; [exact Hva |].
    specialize (Hcells z k vi va Hvi Hva). unfold policy_at in Hcells.
    split.
    + intros Hle. rewrite Hle in Hcells. exact Hcells.
    + intros Hle Hlt. rewrite Hle, Hlt in Hcells. destruct Hcells as [HD HC].
      split; [exact HD |].
      destruct (cell2 PF z k) as [c|] eqn:Hc.
      * destruct (Harg z k c Hc) as (row & Hrow & Hargmax).
        exists row, c. repeat split; assumption.
      * exfalso.
        destruct (policy_at_termination inp fuel out Hinp Hsolve)
          as (_ & _ & _ & PFc' & _ & _ & _ & HPFc' & _ & _ & _ & HsC & _).
        assert (PFc' = PFc) as -> by congruence.
        destruct (cell2_length _ _ _ z k HsC Hz Hk) as [c Hc']. congruence.
  - eexists. eexists. eexists.
    split; [vm_compute; reflexivity |].
    split; [vm_compute; reflexivity |].
    split; [vm_compute; reflexivity |].
    split.
    { intros j Hj.
      do 6 (destruct j as [|j]; [eexists; eexists; vm_compute; repeat split |]).
      lia. }
    split; [vm_compute; reflexivity |].
    split; [vm_compute; reflexivity |].
    split; [reflexivity |].
    intros k0 k1 k2 k3 k4 k5. reflexivity.
Qed.

(** ** Non-finite payoffs *)

(** C4, as amended.  The cell has no finiteness test.  On well-shaped
    arrays a pass raises nothing whatever the payoffs hold, and a payoff
    that is not finite goes into the value function: a non-finite
    [e_i[z, k]] makes [V_i[z, k]] non-finite, a non-finite [e_a[z, k, k']]
    makes [Vmat[z, k, k']] non-finite, and when [e_i[z, k]] is NaN or
    [+inf] the new [V[z, k]] is not finite either. *)
Theorem C4_nonfinite_propagates (inp : input) (st : state) :
  wf_input inp -> reachable inp st -> guard inp st = true ->
  exists st' Vi,
    body inp st = Ok st' /\ V_i st' = Some Vi /\
    (forall z k x, cell2 (e_i inp) z k = Some x -> finite x = false ->
       exists v, cell2 Vi z k = Some v /\ finite v = false) /\
    (forall z k k' x, cell3 (e_a inp) z k k' = Some x -> finite x = false ->
       exists v, cell3 (Vmat st') z k k' = Some v /\ finite v = false) /\
    (forall z k x, cell2 (e_i inp) z k = Some x -> nan_or_pinf x = true ->
       exists v, cell2 (V st') z k = Some v /\ finite v = false).
Proof.
  intros Hinp Hreach Hg.
  destruct (reachable_wf inp st Hinp Hreach) as [Hwf _].
  apply guard_true in Hg as [_ Hlt].
  destruct (body_spec inp st Hinp Hwf Hlt) as (EV & st' & Hdot & HEV & Hb & Hpost).
  pose proof Hinp as (_ & _ & _ & _ & Hea & Hei).
  destruct Hpost as ((_ & HEVi & _) & _ & Vi & Va & PF & diff & HVi & HVa & _ &
                     HsVi & HsVa & _ & _ & HcVmat & HcVi & _ & _ & HcV & _).
  exists st', Vi. split; [exact Hb |]. split; [exact HVi |].
  split; [| split].
  - intros z k x Hx Hnf.
    destruct (cell2_Some_lt _ _ _ _ _ _ Hei Hx) as [Hz Hk].
    destruct (cell2_length _ _ _ z k HEVi Hz Hk) as [y Hy].
    eexists. split; [exact (HcVi z k x y Hx Hy) |].
    apply add_not_finite. exact Hnf.
  - intros z k k' x Hx Hnf.
    destruct (cell3_Some_lt _ _ _ _ _ _ _ _ Hea Hx) as (Hz & Hk & Hk').
    destruct (cell2_length _ _ _ z k' HEV Hz Hk') as [y Hy].
    eexists. split; [exact (HcVmat z k k' x y Hx Hy) |].
    apply add_not_finite. exact Hnf.
  - intros z k x Hx Hnp.
    destruct (cell2_Some_lt _ _ _ _ _ _ Hei Hx) as [Hz Hk].
    destruct (cell2_length _ _ _ z k HEVi Hz Hk) as [y Hy].
    destruct (cell2_length _ _ _ z k HsVa Hz Hk) as [a Ha].
    eexists. split; [exact (HcV z k a _ Ha (HcVi z k x y Hx Hy)) |].
    apply np_maximum_not_finite. apply add_nan_or_pinf. exact Hnp.
Qed.

Lemma wf_input_infinite_payoff : wf_input Inputs.infinite_payoff.
Proof.
  unfold wf_input, is_tensor3, is_matrix. simpl.
  repeat split; try lia; repeat constructor.
Qed.

Lemma C4_nonfinite_propagates_witness :
  exists st0, init Inputs.infinite_payoff = Ok st0 /\
  exists st' Vi,
    body Inputs.infinite_payoff st0 = Ok st' /\ V_i st' = Some Vi /\
    (forall z k x, cell2 (e_i Inputs.infinite_payoff) z k = Some x ->
       finite x = false ->
       exists v, cell2 Vi z k = Some v /\ finite v = false) /\
    (forall z k k' x, cell3 (e_a Inputs.infinite_payoff) z k k' = Some x ->
       finite x = false ->
       exists v, cell3 (Vmat st') z k k' = Some v /\ finite v = false) /\
    (forall z k x, cell2 (e_i Inputs.infinite_payoff) z k = Some x ->
       nan_or_pinf x = true ->
       exists v, cell2 (V st') z k = Some v /\ finite v = false).
Proof.
  eexists. split; [vm_compute; reflexivity |].
  apply (C4_nonfinite_propagates Inputs.infinite_payoff).
  - exact wf_input_infinite_payoff.
  - apply reach_init. vm_compute. reflexivity.
  - vm_compute. reflexivity.
Defined.

(** C4, as stated, fails.  With [e_i[0, 0] = +inf] the cell raises
    nothing: the loop runs two passes, the distance becomes NaN, the test
    [VFdist > VFtol] fails on it, and the cell prints "converged after 3
    iterations" with an infinite value function. *)
Lemma C4_counterexample :
  exists out,
    cell2 (e_i Inputs.infinite_payoff) 0 0 = Some PrimFloat.infinity /\
    finite PrimFloat.infinity = false /\
    solve Inputs.infinite_payoff (enough_fuel Inputs.infinite_payoff) =
      Some (Ok out) /\
    printed out = Converged 3 /\
    VF out = [[PrimFloat.infinity; PrimFloat.infinity]] /\
    PrimFloat.is_nan (VFdist (final out)) = true.
Proof.
  eexists.
  split; [reflexivity |]. split; [reflexivity |].
  split; [vm_compute; reflexivity |].
  split; [vm_compute; reflexivity |].
  split; [vm_compute; reflexivity |].
  vm_compute. reflexivity.
Qed.

(** ** The capital grid *)

Module GridFacts.

Import Grid.
Local Open Scope R_scope.










(** *** The number of grid points *)



(** What the grid is when the number of points is negative or zero. *)
Lemma kvec_negative (p : params) (n : Z) :
  grid_size p = Ok n -> (n < 0)%Z -> kvec p = Raise ValueError.
Proof.
  intros Hn Hneg. unfold kvec, K. rewrite Hn. simpl.
  unfold np_empty. destruct (Z.ltb_spec n 0); [reflexivity | lia].
Qed.



(** *** The loop that fills [K] *)





(** *** The grid of a valid configuration *)



(** *** The notebook's grid *)









(** *** Configurations outside the valid ones *)







End GridFacts.

(** * Further properties of the solver *)

(** ** The maximum and the argmax of one row *)

Lemma foldl_maximum_nan (xs : vector) (a : float) :
  PrimFloat.is_nan a = true -> foldl np_maximum a xs = a.
Proof.
  intros Ha. induction xs as [|x xs IH]; simpl; [reflexivity |].
  replace (np_maximum a x) with a; [exact IH |].
  unfold np_maximum. rewrite Ha, orb_true_r. reflexivity.
Qed.

(** The two reductions walk the row with the same test, [x <= max] or
    [max] is NaN, so the index that [np.argmax] returns holds the value that
    [max] returns, NaN included. *)
Lemma argmax_from_amax (l pre : vector) (mp : float) (best : nat) :
  pre !! best = Some mp ->
  (pre ++ l) !! argmax_from mp best (length pre) l = Some (foldl np_maximum mp l).
Proof.
  revert pre mp best.
  induction l as [|x xs IH]; intros pre mp best Hbest; simpl.
  - rewrite app_nil_r. exact Hbest.
  - destruct (PrimFloat.is_nan mp) eqn:Hnan.
    + replace (np_maximum mp x) with mp
        by (unfold np_maximum; rewrite Hnan, orb_true_r; reflexivity).
      rewrite (foldl_maximum_nan xs mp Hnan).
      apply lookup_app_l_Some. exact Hbest.
    + replace (pre ++ x :: xs) with ((pre ++ [x]) ++ xs)
        by (rewrite <- app_assoc; reflexivity).
      replace (S (length pre)) with (length (pre ++ [x]))
        by (rewrite length_app; simpl; lia).
      unfold np_maximum. rewrite Hnan, orb_false_r.
      destruct (PrimFloat.leb x mp) eqn:Hle; simpl.
      * apply IH. apply lookup_app_l_Some. exact Hbest.
      * apply IH. rewrite lookup_app_r by lia. rewrite Nat.sub_diag. reflexivity.
Qed.

Lemma np_argmax_amax (row : vector) (a : float) (c : Z) :
  amax row = Ok a -> np_argmax row = Ok c ->
  (0 <= c < Z.of_nat (length row))%Z /\ row !! Z.to_nat c = Some a.
Proof.
  destruct row as [|x xs]; simpl; [discriminate |].
  intros [= <-] [= <-].
  pose proof (argmax_from_amax xs [x] x 0 eq_refl) as H. simpl in H.
  rewrite Nat2Z.id. split; [| exact H].
  apply lookup_lt_Some in H. simpl in H. lia.
Qed.

Lemma float_eqb_refl (a : float) :
  PrimFloat.is_nan a = false -> PrimFloat.eqb a a = true.
Proof.
  intros Ha. apply is_nan_false in Ha.
  rewrite FloatAxioms.eqb_spec. unfold SFeqb.
  rewrite SFcompare_refl by exact Ha. reflexivity.
Qed.

(** X1.  After every pass of the loop that starts from variables of the
    right shapes, [PF_continuous[z, k]] is an index of the grid, between 0
    and [sizek - 1], and the entry of [Vmat[z, k, :]] at that index compares
    equal ([==]) to [V_a[z, k]], or both are NaN: [np.argmax] and [max]
    agree on every row, whatever the row holds, NaN and infinities
    included. *)
Theorem pass_argmax_reads_max (inp : input) (st st' : state) :
  wf_input inp -> wf_state inp st -> guard inp st = true ->
  body inp st = Ok st' ->
  exists Va PF,
    V_a st' = Some Va /\ PF_continuous st' = Some PF /\
    forall z k, (z < sizez inp)%nat -> (k < sizek inp)%nat ->
      exists a c x,
        cell2 Va z k = Some a /\ cell2 PF z k = Some c /\
        (0 <= c < Z.of_nat (sizek inp))%Z /\
        cell3 (Vmat st') z k (Z.to_nat c) = Some x /\
        (PrimFloat.eqb x a = true \/
         (PrimFloat.is_nan x = true /\ PrimFloat.is_nan a = true)).
Proof.
  intros Hinp Hwf Hg Hb.
  apply guard_true in Hg as [_ Hlt].
  destruct (body_spec inp st Hinp Hwf Hlt) as (EV & st'' & _ & _ & Hb' & Hpost).
  assert (st'' = st') as -> by congruence.
  destruct Hpost as (_ & _ & Vi & Va & PF & diff & _ & HVa & HPF & _ & HsVa & HsPF &
                     _ & _ & _ & HcVa & HcPF & _).
  exists Va, PF. split; [exact HVa |]. split; [exact HPF |].
  intros z k Hz Hk.
  destruct (cell2_length _ _ _ z k HsVa Hz Hk) as [a Ha].
  destruct (cell2_length _ _ _ z k HsPF Hz Hk) as [c Hc].
  destruct (HcVa z k a Ha) as (row & Hrow & Hlen & Hmax).
  destruct (HcPF z k c Hc) as (row' & Hrow' & Harg).
  assert (row' = row) as -> by congruence.
  destruct (np_argmax_amax row a c Hmax Harg) as [Hrange Hat].
  exists a, c, a. split; [exact Ha |]. split; [exact Hc |].
  split; [lia |]. split.
  - unfold cell3, cell2 in *.
    destruct (Vmat st' !! z) as [plane|]; [| discriminate].
    rewrite Hrow. exact Hat.
  - destruct (PrimFloat.is_nan a) eqn:Hn.
    + right. split; reflexivity.
    + left. apply float_eqb_refl. exact Hn.
Qed.

Lemma pass_argmax_reads_max_witness :
  exists st0 st',
    init Inputs.two_states = Ok st0 /\ body Inputs.two_states st0 = Ok st' /\
    exists Va PF,
      V_a st' = Some Va /\ PF_continuous st' = Some PF /\
      forall z k, (z < sizez Inputs.two_states)%nat ->
                  (k < sizek Inputs.two_states)%nat ->
        exists a c x,
          cell2 Va z k = Some a /\ cell2 PF z k = Some c /\
          (0 <= c < Z.of_nat (sizek Inputs.two_states))%Z /\
          cell3 (Vmat st') z k (Z.to_nat c) = Some x /\
          (PrimFloat.eqb x a = true \/
           (PrimFloat.is_nan x = true /\ PrimFloat.is_nan a = true)).
Proof.
  eexists. eexists.
  split; [vm_compute; reflexivity |].
  split; [vm_compute; reflexivity |].
  apply (pass_argmax_reads_max Inputs.two_states _ _ wf_input_two_states
           (proj1 (proj2 (init_Ok Inputs.two_states _ eq_refl))) eq_refl).
  vm_compute. reflexivity.
Defined.

(** ** What [np.empty] left in the arrays is never read *)

Lemma matrix_ext {A : Type} (n m : nat) (M N : list (list A)) :
  is_matrix n m M -> is_matrix n m N ->
  (forall i j, (i < n)%nat -> (j < m)%nat -> cell2 M i j = cell2 N i j) ->
  M = N.
Proof.
  intros [HM1 HM2] [HN1 HN2] Hcells.
  apply list_eq. intros i.
  destruct (decide (i < n)%nat) as [Hi|Hi].
  - destruct (lookup_lt_is_Some_2 M i) as [r Hr]; [lia |].
    destruct (lookup_lt_is_Some_2 N i) as [r' Hr']; [lia |].
    rewrite Hr, Hr'. f_equal.
    rewrite Forall_forall in HM2. rewrite Forall_forall in HN2.
    pose proof (HM2 r (list_elem_of_lookup_2 _ _ _ Hr)) as Hlr.
    pose proof (HN2 r' (list_elem_of_lookup_2 _ _ _ Hr')) as Hlr'.
    apply list_eq. intros j.
    destruct (decide (j < m)%nat) as [Hj|Hj].
    + specialize (Hcells i j Hi Hj). unfold cell2 in Hcells.
      rewrite Hr, Hr' in Hcells. exact Hcells.
    + rewrite !lookup_ge_None_2 by lia. reflexivity.
  - rewrite !lookup_ge_None_2 by lia. reflexivity.
Qed.

Lemma tensor3_ext {A : Type} (n m p : nat) (T U : list (list (list A))) :
  is_tensor3 n m p T -> is_tensor3 n m p U ->
  (forall i j k, (i < n)%nat -> (j < m)%nat -> (k < p)%nat ->
     cell3 T i j k = cell3 U i j k) ->
  T = U.
Proof.
  intros [HT1 HT2] [HU1 HU2] Hcells.
  apply list_eq. intros i.
  destruct (decide (i < n)%nat) as [Hi|Hi].
  - destruct (lookup_lt_is_Some_2 T i) as [P HP]; [lia |].
    destruct (lookup_lt_is_Some_2 U i) as [Q HQ]; [lia |].
    rewrite HP, HQ. f_equal.
    rewrite Forall_forall in HT2. rewrite Forall_forall in HU2.
    apply (matrix_ext m p).
    + apply HT2. eapply list_elem_of_lookup_2. exact HP.
    + apply HU2. eapply list_elem_of_lookup_2. exact HQ.
    + intros j k Hj Hk. specialize (Hcells i j k Hi Hj Hk).
      unfold cell3 in Hcells. rewrite HP, HQ in Hcells. exact Hcells.
  - rewrite !lookup_ge_None_2 by lia. reflexivity.
Qed.

(** A pass reads [V], [Vstore] and the counter of the state it starts
    from; [EV_i] and [Vmat] are overwritten in every cell before they are
    read. *)
Lemma body_overwrites (inp : input) (st st2 : state) :
  wf_input inp -> wf_state inp st -> wf_state inp st2 ->
  V st2 = V st -> Vstore st2 = Vstore st -> VFiter st2 = VFiter st ->
  body inp st2 = body inp st.
Proof.
  intros Hinp (HV & HEVi & HVmat & HVs & Hit) (_ & HEVi' & HVmat' & _) HeV HeVs Heit.
  pose proof Hinp as (Hz & Hk & Hd & HPi & Hea & Hei).
  destruct (np_dot_spec (dot inp) _ _ _ _ _ HPi HV Hz) as (EV & Hdot & HEV & _).
  destruct (EV_i_spec inp (EV_i st) EV Hinp HEVi HEV)
    as (EV_i1 & col0 & tiled & EV_i2 & Ha1 & Hcol & Hre & Hti & Ha2 & HEVi2 & HcEVi).
  destruct (EV_i_spec inp (EV_i st2) EV Hinp HEVi' HEV)
    as (EV_i1' & col0' & tiled' & EV_i2' & Ha1' & Hcol' & Hre' & Hti' & Ha2' & HEVi2' & HcEVi').
  assert (col0' = col0) as -> by congruence.
  assert (tiled' = tiled) as -> by congruence.
  assert (EV_i2' = EV_i2) as ->.
  { apply (matrix_ext _ _ _ _ HEVi2' HEVi2). intros z j Hz' Hj.
    rewrite (HcEVi z j Hz' Hj), (HcEVi' z j Hz' Hj). reflexivity. }
  destruct (create_Vmat_spec EV (e_a inp) (betafirm inp) (Pi inp) _ _ HEV Hea (Vmat st) HVmat)
    as (Vmat1 & Hcre & HVmat1 & HcVmat).
  destruct (create_Vmat_spec EV (e_a inp) (betafirm inp) (Pi inp) _ _ HEV Hea (Vmat st2) HVmat')
    as (Vmat1' & Hcre' & HVmat1' & HcVmat').
  assert (Vmat1' = Vmat1) as ->.
  { apply (tensor3_ext _ _ _ _ _ HVmat1' HVmat1). intros z j k Hz' Hj Hk'.
    destruct (cell3_length _ _ _ _ z j k Hea Hz' Hj Hk') as [x Hx].
    destruct (cell2_length _ _ _ z k HEV Hz' Hk') as [y Hy].
    rewrite (HcVmat z j k x y Hx Hy), (HcVmat' z j k x y Hx Hy). reflexivity. }
  unfold body. rewrite HeV, HeVs, Heit, Hdot. simpl.
  rewrite Ha1, Ha1'. simpl. rewrite Hcol. simpl. rewrite Hre. simpl.
  rewrite Hti. simpl. rewrite Ha2, Ha2'. simpl. rewrite Hcre, Hcre'.
  reflexivity.
Qed.

Lemma vfi_loop_with_junk (inp : input) (jEV : nat -> nat -> float)
    (jVmat : nat -> nat -> nat -> float) (fuel : nat) (st : state) :
  vfi_loop (Alloc.with_junk inp jEV jVmat) fuel st = vfi_loop inp fuel st.
Proof.
  revert st. induction fuel as [|fuel IH]; intros st; simpl.
  - reflexivity.
  - change (guard (Alloc.with_junk inp jEV jVmat) st) with (guard inp st).
    change (body (Alloc.with_junk inp jEV jVmat) st) with (body inp st).
    destruct (guard inp st); [| reflexivity].
    destruct (body inp st); [apply IH | reflexivity].
Qed.

(** X2.  What [np.empty] happens to leave in [EV_i] and [Vmat] has no
    effect on the run: on well-shaped input the whole cell gives the same
    result, values, report and exception alike, whatever the two
    uninitialised arrays hold at the start. *)
Theorem solve_ignores_uninitialised (inp : input) (jEV : nat -> nat -> float)
    (jVmat : nat -> nat -> nat -> float) (fuel : nat) :
  wf_input inp ->
  solve (Alloc.with_junk inp jEV jVmat) fuel = solve inp fuel.
Proof.
  intros Hinp. pose proof Hinp as (Hz & Hk & _).
  unfold solve.
  destruct (init inp) as [st0|e] eqn:Hi;
    destruct (init (Alloc.with_junk inp jEV jVmat)) as [st0'|e'] eqn:Hi';
    try (unfold init in Hi, Hi'; simpl in Hi';
         destruct (VFmaxiter inp <? 0)%Z; congruence).
  destruct (init_Ok inp st0 Hi) as (_ & Hwf & _).
  assert (wf_state inp st0') as Hwf' by exact (proj1 (proj2 (init_Ok _ _ Hi'))).
  assert (V st0' = V st0 /\ Vstore st0' = Vstore st0 /\ VFiter st0' = VFiter st0 /\
          VFdist st0' = VFdist st0 /\ V_i st0 = None /\ V_i st0' = None)
    as (HeV & HeVs & Heit & Hedist & Hn & Hn').
  { unfold init in Hi, Hi'. simpl in Hi'.
    destruct (VFmaxiter inp <? 0)%Z; [discriminate |].
    injection Hi as <-. injection Hi' as <-. repeat split. }
  rewrite vfi_loop_with_junk.
  assert (guard inp st0' = guard inp st0) as Hg
    by (unfold guard; rewrite Hedist, Heit; reflexivity).
  destruct fuel as [|fuel]; simpl; rewrite Hg; destruct (guard inp st0).
  - reflexivity.
  - unfold after_loop.
    rewrite (policy_loop_unbound inp st0 Hz Hk Hn).
    rewrite (policy_loop_unbound (Alloc.with_junk inp jEV jVmat) st0' Hz Hk Hn').
    reflexivity.
  - rewrite (body_overwrites inp st0 st0' Hinp Hwf Hwf' HeV HeVs Heit).
    destruct (body inp st0) as [st1|e]; [| reflexivity].
    destruct (vfi_loop inp fuel st1) as [[st|e]|]; reflexivity.
  - unfold after_loop.
    rewrite (policy_loop_unbound inp st0 Hz Hk Hn).
    rewrite (policy_loop_unbound (Alloc.with_junk inp jEV jVmat) st0' Hz Hk Hn').
    reflexivity.
Qed.

Lemma solve_ignores_uninitialised_witness :
  wf_input Inputs.inaction /\
  solve (Alloc.with_junk Inputs.inaction (fun _ _ => PrimFloat.nan)
           (fun _ _ _ => PrimFloat.infinity)) 4 =
  solve Inputs.inaction 4.
Proof.
  split; [exact wf_input_inaction |].
  apply (solve_ignores_uninitialised Inputs.inaction). exact wf_input_inaction.
Defined.

(** ** The history kept in [Vstore] *)

Lemma body_Vstore (inp : input) (st st' : state) :
  body inp st = Ok st' -> (0 <= VFiter st)%Z ->
  (Z.to_nat (VFiter st) < length (Vstore st))%nat /\
  Vstore st' = <[Z.to_nat (VFiter st) := Some (V st')]> (Vstore st).
Proof.
  intros Hb Hit. unfold body in Hb.
  apply bind_Ok in Hb as (EV & _ & Hb).
  apply bind_Ok in Hb as (EV_i1 & _ & Hb).
  apply bind_Ok in Hb as (col0 & _ & Hb).
  apply bind_Ok in Hb as (col0' & _ & Hb).
  apply bind_Ok in Hb as (tiled & _ & Hb).
  apply bind_Ok in Hb as (EV_i2 & _ & Hb).
  apply bind_Ok in Hb as (Vmat1 & _ & Hb).
  apply bind_Ok in Hb as (V_i1 & _ & Hb).
  apply bind_Ok in Hb as (V_a1 & _ & Hb).
  apply bind_Ok in Hb as (PF & _ & Hb).
  apply bind_Ok in Hb as (V1 & _ & Hb).
  apply bind_Ok in Hb as (Vstore1 & Hst & Hb).
  apply bind_Ok in Hb as (diff & _ & Hb).
  apply bind_Ok in Hb as (dist & _ & Hb).
  injection Hb as <-. simpl.
  unfold store in Hst.
  destruct (bool_decide _); [| discriminate].
  apply bind_Ok in Hst as (t & Ht & Hset).
  unfold py_index in Ht.
  destruct (Z.ltb_spec (VFiter st) 0); [lia |].
  destruct (Z.ltb_spec (VFiter st) (Z.of_nat (length (Vstore st)))); [| discriminate].
  injection Ht as <-. unfold setitem in Hset.
  destruct (decide _) as [Hlt|]; [| discriminate].
  injection Hset as <-. split; [exact Hlt | reflexivity].
Qed.

Lemma passes_Vstore (inp : input) (n : nat) (st st' : state) :
  passes inp n st st' -> (0 <= VFiter st)%Z ->
  length (Vstore st') = length (Vstore st) /\
  (forall t, (t < Z.to_nat (VFiter st) \/ Z.to_nat (VFiter st) + n <= t)%nat ->
     Vstore st' !! t = Vstore st !! t) /\
  (forall k, (k < n)%nat ->
     exists st_k, passes inp (S k) st st_k /\
       Vstore st' !! (Z.to_nat (VFiter st) + k)%nat = Some (Some (V st_k))).
Proof.
  induction 1 as [st | n st st1 st' Hg Hb Hp IH]; intros Hit.
  - split; [reflexivity |]. split; [reflexivity |]. intros k Hk. lia.
  - pose proof (body_VFiter _ _ _ Hb) as Hit1.
    destruct (body_Vstore _ _ _ Hb Hit) as [Hlt Hins].
    destruct IH as (Hlen & Hsame & Hhist); [lia |].
    assert (Z.to_nat (VFiter st1) = S (Z.to_nat (VFiter st))) as Hnat by lia.
    rewrite Hnat in Hsame, Hhist.
    split; [| split].
    + rewrite Hlen, Hins. apply length_insert.
    + intros t Ht. rewrite Hsame by lia. rewrite Hins.
      apply list_lookup_insert_ne. lia.
    + intros [|k] Hk.
      * exists st1. split; [exact (passes_S _ _ _ _ _ Hg Hb (passes_O _ _)) |].
        rewrite Nat.add_0_r, Hsame by lia. rewrite Hins.
        apply list_lookup_insert_eq. exact Hlt.
      * destruct (Hhist k) as (st_k & Hpk & Hlk); [lia |].
        exists st_k. split; [exact (passes_S _ _ _ _ _ Hg Hb Hpk) |].
        rewrite <- Hlk. f_equal. lia.
Qed.

(** X3.  After [n] passes, slice [t] of [Vstore] holds the value function
    that pass [t] produced, for [t] from 1 to [n]; slice 0 and the slices
    after [n] have never been written and still hold what [np.empty] left
    there. *)
Theorem Vstore_history (inp : input) (n : nat) (st0 st : state) :
  init inp = Ok st0 -> passes inp n st0 st ->
  length (Vstore st) = Z.to_nat (VFmaxiter inp) /\
  (forall t, (1 <= t <= n)%nat ->
     exists st_t, passes inp t st0 st_t /\ Vstore st !! t = Some (Some (V st_t))) /\
  (forall t, (t = 0 \/ n < t)%nat -> (t < Z.to_nat (VFmaxiter inp))%nat ->
     Vstore st !! t = Some None).
Proof.
  intros Hinit Hp.
  destruct (init_Ok inp st0 Hinit) as (_ & (_ & _ & _ & Hlen0 & _) & Hit0 & _).
  destruct (passes_Vstore inp n st0 st Hp) as (Hlen & Hsame & Hhist); [lia |].
  rewrite Hit0 in Hsame, Hhist. change (Z.to_nat 1) with 1%nat in *.
  assert (Vstore st0 = replicate (Z.to_nat (VFmaxiter inp)) None) as Hrep.
  { unfold init in Hinit. destruct (VFmaxiter inp <? 0)%Z; [discriminate |].
    injection Hinit as <-. reflexivity. }
  split; [| split].
  - rewrite Hlen. exact Hlen0.
  - intros [|t] Ht; [lia |].
    destruct (Hhist t) as (st_t & Hpt & Hlt); [lia |].
    exists st_t. split; [exact Hpt | exact Hlt].
  - intros t Ht Hlt. rewrite Hsame by lia. rewrite Hrep.
    apply lookup_replicate_2. exact Hlt.
Qed.

Lemma Vstore_history_witness :
  exists st0 st,
    init Inputs.last_pass = Ok st0 /\ passes Inputs.last_pass 2 st0 st /\
    length (Vstore st) = Z.to_nat (VFmaxiter Inputs.last_pass) /\
    (forall t, (1 <= t <= 2)%nat ->
       exists st_t, passes Inputs.last_pass t st0 st_t /\
         Vstore st !! t = Some (Some (V st_t))) /\
    (forall t, (t = 0 \/ 2 < t)%nat ->
       (t < Z.to_nat (VFmaxiter Inputs.last_pass))%nat ->
       Vstore st !! t = Some None).
Proof.
  eexists. eexists.
  split; [vm_compute; reflexivity |].
  match goal with
  | |- passes ?i ?n ?a ?b /\ _ => assert (passes i n a b) as Hp
  end.
  { eapply passes_S; [vm_compute; reflexivity | vm_compute; reflexivity |].
    eapply passes_S; [vm_compute; reflexivity | vm_compute; reflexivity |].
    apply passes_O. }
  split; [exact Hp |].
  exact (Vstore_history Inputs.last_pass 2 _ _ eq_refl Hp).
Defined.

(** ** The report and the number of passes *)

(** X4.  The number in "converged after this many iterations" is the number
    of passes of the loop plus one, the counter starting at 1; and "did not
    converge" is printed after exactly [VFmaxiter - 1] passes (none when the
    ceiling is 1 or less). *)
Theorem report_counts_passes (inp : input) (fuel : nat) (st0 st : state) :
  init inp = Ok st0 -> vfi_loop inp fuel st0 = Some (Ok st) ->
  exists n, passes inp n st0 st /\
    match print_report inp st with
    | Converged c => c = (Z.of_nat n + 1)%Z
    | DidNotConverge => Z.of_nat n = Z.max 0 (VFmaxiter inp - 1)
    end.
Proof.
  intros Hinit Hloop.
  destruct (init_Ok inp st0 Hinit) as (_ & _ & Hit0 & _).
  destruct (vfi_loop_passes _ _ _ _ Hloop) as (_ & n & Hp & _).
  destruct (passes_VFiter _ _ _ _ Hp) as [Hit Hle].
  exists n. split; [exact Hp |]. unfold print_report.
  destruct (Z.ltb_spec (VFiter st) (VFmaxiter inp)) as [Hlt|Hge]; [lia |].
  destruct n as [|n]; [lia |]. specialize (Hle ltac:(lia)). lia.
Qed.

Lemma report_counts_passes_witness :
  exists st0 st,
    init Inputs.inaction = Ok st0 /\
    vfi_loop Inputs.inaction (enough_fuel Inputs.inaction) st0 = Some (Ok st) /\
    print_report Inputs.inaction st = Converged 5 /\
    exists n, passes Inputs.inaction n st0 st /\
      match print_report Inputs.inaction st with
      | Converged c => c = (Z.of_nat n + 1)%Z
      | DidNotConverge => Z.of_nat n = Z.max 0 (VFmaxiter Inputs.inaction - 1)
      end.
Proof.
  eexists. eexists.
  split; [vm_compute; reflexivity |].
  split; [vm_compute; reflexivity |].
  split; [vm_compute; reflexivity |].
  apply (report_counts_passes Inputs.inaction (enough_fuel Inputs.inaction));
    vm_compute; reflexivity.
Defined.

(** ** Which runs end in an exception *)

Lemma guard_init (inp : input) (st0 : state) :
  init inp = Ok st0 ->
  guard inp st0 = PrimFloat.ltb (VFtol inp) 7 && (1 <? VFmaxiter inp)%Z.
Proof.
  intros Hinit.
  destruct (init_Ok inp st0 Hinit) as (_ & _ & Hit & Hdist & _).
  unfold guard. rewrite Hit, Hdist. reflexivity.
Qed.

(** X5.  When the test of the [while] fails on entry, the ceiling being 0
    or 1 or the tolerance not below the placeholder distance 7.0, no pass
    runs, [V_i] is never bound, and the policy loop ends the cell with
    [NameError]. *)
Theorem no_pass_NameError (inp : input) (fuel : nat) :
  (1 <= sizez inp)%nat -> (1 <= sizek inp)%nat -> (0 <= VFmaxiter inp)%Z ->
  (VFmaxiter inp <= 1)%Z \/ PrimFloat.ltb (VFtol inp) 7 = false ->
  solve inp fuel = Some (Raise NameError).
Proof.
  intros Hz Hk Hmax Hor.
  destruct (init_total inp Hmax) as [st0 Hinit].
  destruct (init_Ok inp st0 Hinit) as (_ & _ & _ & _ & HVi & _).
  assert (guard inp st0 = false) as Hg.
  { rewrite (guard_init inp st0 Hinit). destruct Hor as [Hle|Htol].
    - destruct (Z.ltb_spec 1 (VFmaxiter inp)); [lia |]. apply andb_false_r.
    - rewrite Htol. reflexivity. }
  unfold solve. rewrite Hinit.
  assert (vfi_loop inp fuel st0 = Some (Ok st0)) as ->
    by (destruct fuel; simpl; rewrite Hg; reflexivity).
  unfold after_loop. rewrite (policy_loop_unbound inp st0 Hz Hk HVi). reflexivity.
Qed.

Lemma no_pass_NameError_witness :
  solve (Inputs.base 2 1 [[1%float; 1%float]] 0.75%float 1) 10 =
  Some (Raise NameError).
Proof.
  apply (no_pass_NameError (Inputs.base 2 1 [[1%float; 1%float]] 0.75%float 1) 10);
    simpl; lia.
Defined.

Lemma vfi_loop_no_raise (inp : input) (fuel : nat) (st : state) (r : result state) :
  wf_input inp -> wf_state inp st -> vfi_loop inp fuel st = Some r ->
  exists st', r = Ok st'.
Proof.
  intros Hinp. revert st.
  induction fuel as [|fuel IH]; intros st Hwf; simpl;
    destruct (guard inp st) eqn:Hg; try discriminate;
    try (intros [= <-]; eexists; reflexivity).
  apply guard_true in Hg as [_ Hlt].
  destruct (body_spec inp st Hinp Hwf Hlt) as (EV & st' & _ & _ & Hb & Hwf' & _).
  rewrite Hb. apply IH. exact Hwf'.
Qed.

Lemma passes_last (inp : input) (n : nat) (st st' : state) :
  passes inp (S n) st st' ->
  exists prev, passes inp n st prev /\ guard inp prev = true /\
    body inp prev = Ok st'.
Proof.
  revert st. induction n as [|n IH]; intros st Hp.
  - inversion Hp as [| ? ? st1 ? Hg Hb Hp1]; subst.
    inversion Hp1; subst. exists st. split; [apply passes_O |]. split; assumption.
  - inversion Hp as [| ? ? st1 ? Hg Hb Hp1]; subst.
    destruct (IH st1 Hp1) as (prev & Hpp & Hgp & Hbp).
    exists prev. split; [exact (passes_S _ _ _ _ _ Hg Hb Hpp) |]. split; assumption.
Qed.

(** X6.  On well-shaped input, a ceiling of at least 2 and a tolerance below
    the placeholder distance 7.0, the whole cell ends without an exception:
    the loop runs at least one pass, so that [V_i], [V_a] and
    [PF_continuous] are bound when the policy loop reads them, and every
    subscript of the cell is in range. *)
Theorem solve_no_exception (inp : input) :
  wf_input inp -> (2 <= VFmaxiter inp)%Z ->
  PrimFloat.ltb (VFtol inp) 7 = true ->
  exists out, forall fuel, (enough_fuel inp <= fuel)%nat ->
    solve inp fuel = Some (Ok out).
Proof.
  intros Hinp Hmax Htol.
  destruct (init_total inp) as [st0 Hinit]; [lia |].
  destruct (init_Ok inp st0 Hinit) as (_ & Hwf0 & Hit0 & _).
  assert (guard inp st0 = true) as Hg0.
  { rewrite (guard_init inp st0 Hinit), Htol.
    destruct (Z.ltb_spec 1 (VFmaxiter inp)); [reflexivity | lia]. }
  destruct (vfi_loop_fuel inp (enough_fuel inp) st0) as [r Hr];
    [unfold enough_fuel; lia |].
  destruct (vfi_loop_no_raise inp _ st0 r Hinp Hwf0 Hr) as [st ->].
  destruct (vfi_loop_passes _ _ _ _ Hr) as (Hstop & n & Hp & _).
  destruct n as [|n]; [inversion Hp; subst; congruence |].
  destruct (passes_last inp n st0 st Hp) as (prev & Hpp & Hgp & Hbp).
  pose proof (passes_reachable inp n st0 prev Hpp (reach_init inp st0 Hinit)) as Hreach.
  destruct (reachable_wf inp prev Hinp Hreach) as [Hwfp _].
  apply guard_true in Hgp as [_ Hltp].
  destruct (body_spec inp prev Hinp Hwfp Hltp) as (EV & st' & _ & _ & Hb' & Hpost).
  assert (st' = st) as -> by congruence.
  destruct Hpost as (_ & _ & Vi & Va & PF & diff & HVi & HVa & HPF & HsVi & HsVa & HsPF & _).
  destruct (policy_loop_spec inp st Vi Va PF HVi HVa HPF HsVi HsVa HsPF)
    as (PFd & PFc & Hpol & _).
  eexists. intros fuel Hfuel. unfold solve. rewrite Hinit.
  rewrite (vfi_loop_more_fuel inp _ fuel st0 _ Hr Hfuel).
  unfold after_loop. rewrite Hpol. simpl. reflexivity.
Qed.

Lemma solve_no_exception_witness :
  exists out, forall fuel, (enough_fuel Inputs.inaction <= fuel)%nat ->
    solve Inputs.inaction fuel = Some (Ok out).
Proof.
  apply (solve_no_exception Inputs.inaction).
  - exact wf_input_inaction.
  - simpl. lia.
  - vm_compute. reflexivity.
Defined.

(** *** The empty grid *)

Lemma is_matrix_0 {A : Type} (n : nat) (M : list (list A)) :
  is_matrix n 0 M -> M = replicate n [].
Proof.
  intros HM. apply (matrix_ext n 0); [exact HM | | intros i j _ Hj; lia].
  split; [apply length_replicate |]. apply Forall_replicate. reflexivity.
Qed.

Lemma map_replicate {A B : Type} (f : A -> B) (n : nat) (x : A) :
  map f (replicate n x) = replicate n (f x).
Proof. induction n as [|n IH]; simpl; [reflexivity | rewrite IH; reflexivity]. Qed.

Lemma assign_cols_from_empty (n : nat) (start : Z) :
  assign_cols_from (replicate n []) start (replicate n []) = Ok (replicate n []).
Proof.
  unfold assign_cols_from. rewrite broadcast_same by (rewrite !length_replicate; reflexivity).
  simpl. induction n as [|n IH]; simpl; [reflexivity |].
  rewrite IH. unfold assign_from, slice_from. rewrite drop_nil, take_nil. reflexivity.
Qed.

Lemma body_empty_grid (inp : input) (st : state) :
  sizek inp = 0%nat -> (1 <= sizez inp)%nat ->
  is_matrix (sizez inp) (sizez inp) (Pi inp) ->
  is_matrix (sizez inp) (sizek inp) (V st) ->
  is_matrix (sizez inp) (sizek inp) (EV_i st) ->
  body inp st = Raise IndexError.
Proof.
  intros Hk Hz HPi HV HEVi. rewrite Hk in HV, HEVi.
  destruct (np_dot_spec (dot inp) _ _ _ _ _ HPi HV Hz) as (EV & Hdot & HEV & _).
  apply is_matrix_0 in HEV. apply is_matrix_0 in HEVi.
  unfold body. rewrite Hdot. simpl. rewrite HEV, HEVi, map_replicate.
  unfold slice_to at 1. rewrite take_nil.
  rewrite assign_cols_from_empty. simpl.
  destruct (sizez inp) as [|n]; [lia |]. reflexivity.
Qed.

(** X7.  With an empty grid ([sizek = 0], which the grid cell produces
    without an error when [kbar <= lb_k]), the first pass of the loop raises
    [IndexError]: [EV] has no column and [EV[:, 0]] is read. *)
Theorem empty_grid_IndexError (inp : input) (fuel : nat) :
  sizek inp = 0%nat -> (1 <= sizez inp)%nat ->
  is_matrix (sizez inp) (sizez inp) (Pi inp) ->
  (2 <= VFmaxiter inp)%Z -> PrimFloat.ltb (VFtol inp) 7 = true ->
  (1 <= fuel)%nat ->
  solve inp fuel = Some (Raise IndexError).
Proof.
  intros Hk Hz HPi Hmax Htol Hfuel.
  destruct (init_total inp) as [st0 Hinit]; [lia |].
  destruct (init_Ok inp st0 Hinit) as (_ & (HV & HEVi & _) & _).
  assert (guard inp st0 = true) as Hg0.
  { rewrite (guard_init inp st0 Hinit), Htol.
    destruct (Z.ltb_spec 1 (VFmaxiter inp)); [reflexivity | lia]. }
  unfold solve. rewrite Hinit.
  destruct fuel as [|fuel]; [lia |]. simpl. rewrite Hg0.
  rewrite (body_empty_grid inp st0 Hk Hz HPi HV HEVi). reflexivity.
Qed.

Lemma empty_grid_IndexError_witness :
  solve (Inputs.base 0 5 [[]] 0.125%float 30) 1 = Some (Raise IndexError).
Proof.
  apply (empty_grid_IndexError (Inputs.base 0 5 [[]] 0.125%float 30) 1);
    try reflexivity; try (simpl; lia).
  split; [reflexivity | repeat constructor].
Defined.

(** ** The discrete policy *)

(** X8.  At termination, in every cell where neither [V_i] nor [V_a] is
    NaN, [PF_discrete] is 0 (and [V_i >= V_a]) or 1 (and [V_a > V_i]); in a
    cell where one of them is NaN neither test of the policy loop holds,
    [PF_discrete] keeps what [np.empty] left there and [PF_continuous] keeps
    the argmax. *)
Theorem policy_discrete_values (inp : input) (fuel : nat) (out : output) :
  wf_input inp -> solve inp fuel = Some (Ok out) ->
  exists Vi Va PF PFc,
    V_i (final out) = Some Vi /\ V_a (final out) = Some Va /\
    PF_continuous (final out) = Some PF /\ PF_continuous_out out = Some PFc /\
    forall z k, (z < sizez inp)%nat -> (k < sizek inp)%nat ->
      exists vi va,
        cell2 Vi z k = Some vi /\ cell2 Va z k = Some va /\
        (PrimFloat.is_nan vi = false -> PrimFloat.is_nan va = false ->
           (cell2 (PF_discrete out) z k = Some 0%float /\
            PrimFloat.leb va vi = true) \/
           (cell2 (PF_discrete out) z k = Some 1%float /\
            PrimFloat.ltb vi va = true)) /\
        (PrimFloat.is_nan vi = true \/ PrimFloat.is_nan va = true ->
           cell2 (PF_discrete out) z k = Some (junk_PF_discrete inp z k) /\
           cell2 PFc z k = cell2 PF z k).
Proof.
  intros Hinp Hsolve.
  destruct (policy_at_termination inp fuel out Hinp Hsolve)
    as (Vi & Va & PF & PFc & HVi & HVa & HPF & HPFc & HsVi & HsVa & _ & _ & _ & Hcells).
  exists Vi, Va, PF, PFc. repeat (split; [assumption |]).
  intros z k Hz Hk.
  destruct (cell2_length _ _ _ z k HsVi Hz Hk) as [vi Hvi].
  destruct (cell2_length _ _ _ z k HsVa Hz Hk) as [va Hva].
  exists vi, va. split; [exact Hvi |]. split; [exact Hva |].
  specialize (Hcells z k vi va Hvi Hva). unfold policy_at in Hcells.
  split.
  - intros Hni Hna. destruct (PrimFloat.leb va vi) eqn:Hle.
    + left. split; [exact (proj1 Hcells) | reflexivity].
    + right. rewrite (ltb_of_not_leb va vi Hna Hni Hle) in *.
      split; [exact (proj1 Hcells) | reflexivity].
  - intros Hnan.
    destruct (compare_nan va vi) as [Hle _]; [tauto |].
    destruct (compare_nan vi va) as [_ Hlt]; [tauto |].
    rewrite Hle, Hlt in Hcells. exact Hcells.
Qed.

Lemma policy_discrete_values_witness :
  exists out, solve Inputs.ties (enough_fuel Inputs.ties) = Some (Ok out) /\
  exists Vi Va PF PFc,
    V_i (final out) = Some Vi /\ V_a (final out) = Some Va /\
    PF_continuous (final out) = Some PF /\ PF_continuous_out out = Some PFc /\
    forall z k, (z < sizez Inputs.ties)%nat -> (k < sizek Inputs.ties)%nat ->
      exists vi va,
        cell2 Vi z k = Some vi /\ cell2 Va z k = Some va /\
        (PrimFloat.is_nan vi = false -> PrimFloat.is_nan va = false ->
           (cell2 (PF_discrete out) z k = Some 0%float /\
            PrimFloat.leb va vi = true) \/
           (cell2 (PF_discrete out) z k = Some 1%float /\
            PrimFloat.ltb vi va = true)) /\
        (PrimFloat.is_nan vi = true \/ PrimFloat.is_nan va = true ->
           cell2 (PF_discrete out) z k = Some (junk_PF_discrete Inputs.ties z k) /\
           cell2 PFc z k = cell2 PF z k).
Proof.
  eexists. split; [vm_compute; reflexivity |].
  apply (policy_discrete_values Inputs.ties (enough_fuel Inputs.ties)).
  - exact wf_input_ties.
  - vm_compute. reflexivity.
Defined.

(** ** The distance between two iterates *)

Lemma elem_of_mjoin_cell {A : Type} (M : list (list A)) (x : A) :
  x ∈ mjoin M <-> exists i j, cell2 M i j = Some x.
Proof.
  rewrite list_elem_of_join. unfold cell2. split.
  - intros (l & Hx & Hl).
    apply list_elem_of_lookup in Hl as [i Hi].
    apply list_elem_of_lookup in Hx as [j Hj].
    exists i, j. rewrite Hi. exact Hj.
  - intros (i & j & H). destruct (M !! i) as [l|] eqn:Hi; [| discriminate].
    exists l. split; eapply list_elem_of_lookup_2; eassumption.
Qed.

(** The cells of [np.absolute(V - TV)] after a pass. *)
Lemma pass_diff (inp : input) (st st' : state) :
  wf_input inp -> reachable inp st -> guard inp st = true ->
  body inp st = Ok st' ->
  exists diff,
    amax (mjoin diff) = Ok (VFdist st') /\
    (forall z k d, cell2 diff z k = Some d ->
       exists v v', cell2 (V st) z k = Some v /\ cell2 (V st') z k = Some v' /\
         d = PrimFloat.abs (v' - v)%float) /\
    (forall z k v v', cell2 (V st) z k = Some v -> cell2 (V st') z k = Some v' ->
       cell2 diff z k = Some (PrimFloat.abs (v' - v)%float)).
Proof.
  intros Hinp Hreach Hg Hb.
  destruct (reachable_wf inp st Hinp Hreach) as [Hwf _].
  apply guard_true in Hg as [_ Hlt].
  destruct (body_spec inp st Hinp Hwf Hlt) as (EV & st'' & _ & _ & Hb' & Hpost).
  assert (st'' = st') as -> by congruence.
  destruct Hpost as ((HV' & _) & _ & Vi & Va & PF & diff & _ & _ & _ & _ & _ & _ &
                     _ & _ & _ & _ & _ & _ & Hdiff & Hdist).
  destruct Hwf as (HV & _).
  destruct (map2_matrix_spec (fun x y => PrimFloat.abs (x - y)%float) _ _ _ _ HV' HV)
    as (diff' & Hdiff' & Hsh & Hc).
  assert (diff' = diff) as -> by congruence.
  exists diff. split; [exact Hdist |]. split.
  - intros z k d Hd.
    destruct (cell2_Some_lt _ _ _ z k d Hsh Hd) as [Hz Hk].
    destruct (cell2_length _ _ _ z k HV Hz Hk) as [v Hv].
    destruct (cell2_length _ _ _ z k HV' Hz Hk) as [v' Hv'].
    exists v, v'. split; [exact Hv |]. split; [exact Hv' |].
    rewrite (Hc z k v' v Hv' Hv) in Hd. congruence.
  - intros z k v v' Hv Hv'. exact (Hc z k v' v Hv' Hv).
Qed.

(** X9.  When no cell of [np.absolute(V - TV)] is NaN, the distance
    [VFdist] of a pass is the largest absolute change of a cell of [V]: it
    is the change of some cell, and the change of no cell is above it. *)
Theorem VFdist_sup_norm (inp : input) (st st' : state) :
  wf_input inp -> reachable inp st -> guard inp st = true ->
  body inp st = Ok st' ->
  (forall z k v v', cell2 (V st) z k = Some v -> cell2 (V st') z k = Some v' ->
     PrimFloat.is_nan (PrimFloat.abs (v' - v)%float) = false) ->
  (exists z k v v', cell2 (V st) z k = Some v /\ cell2 (V st') z k = Some v' /\
     VFdist st' = PrimFloat.abs (v' - v)%float) /\
  (forall z k v v', cell2 (V st) z k = Some v -> cell2 (V st') z k = Some v' ->
     PrimFloat.leb (PrimFloat.abs (v' - v)%float) (VFdist st') = true).
Proof.
  intros Hinp Hreach Hg Hb Hnan.
  destruct (pass_diff inp st st' Hinp Hreach Hg Hb) as (diff & Hdist & Hfrom & Hto).
  destruct (amax_is_maximum _ _ Hdist) as [Hin Hmax].
  { apply Forall_forall. intros d Hd.
    apply elem_of_mjoin_cell in Hd as (z & k & Hd).
    destruct (Hfrom z k d Hd) as (v & v' & Hv & Hv' & ->).
    exact (Hnan z k v v' Hv Hv'). }
  split.
  - apply elem_of_mjoin_cell in Hin as (z & k & Hd).
    destruct (Hfrom z k _ Hd) as (v & v' & Hv & Hv' & Heq).
    exists z, k, v, v'. split; [exact Hv |]. split; [exact Hv' | exact Heq].
  - intros z k v v' Hv Hv'. rewrite Forall_forall in Hmax. apply Hmax.
    apply elem_of_mjoin_cell. exists z, k. exact (Hto z k v v' Hv Hv').
Qed.

Lemma VFdist_sup_norm_witness :
  exists st0 st',
    init Inputs.inaction = Ok st0 /\ body Inputs.inaction st0 = Ok st' /\
    VFdist st' = 1%float /\
    (exists z k v v', cell2 (V st0) z k = Some v /\ cell2 (V st') z k = Some v' /\
       VFdist st' = PrimFloat.abs (v' - v)%float) /\
    (forall z k v v', cell2 (V st0) z k = Some v -> cell2 (V st') z k = Some v' ->
       PrimFloat.leb (PrimFloat.abs (v' - v)%float) (VFdist st') = true).
Proof.
  eexists. eexists.
  split; [vm_compute; reflexivity |].
  split; [vm_compute; reflexivity |].
  split; [reflexivity |].
  apply (VFdist_sup_norm Inputs.inaction _ _ wf_input_inaction
           (reach_init Inputs.inaction _ eq_refl) eq_refl);
    [vm_compute; reflexivity |].
  intros z k v v' Hv Hv'.
  destruct z as [|z]; [| destruct z; discriminate].
  do 6 (destruct k as [|k]; [injection Hv as <-; injection Hv' as <-; reflexivity |]).
  destruct k; discriminate.
Defined.

(** X10.  A NaN in [np.absolute(V - TV)] makes the distance NaN, on which
    the test [VFdist > VFtol] fails: the loop is left after that pass, and
    when the counter is below the ceiling the cell prints "converged". *)
Theorem nan_change_ends_loop (inp : input) (st st' : state) (z k : nat)
    (v v' : float) :
  wf_input inp -> reachable inp st -> guard inp st = true ->
  body inp st = Ok st' ->
  cell2 (V st) z k = Some v -> cell2 (V st') z k = Some v' ->
  PrimFloat.is_nan (PrimFloat.abs (v' - v)%float) = true ->
  PrimFloat.is_nan (VFdist st') = true /\
  (forall fuel, vfi_loop inp fuel st' = Some (Ok st')) /\
  ((VFiter st' < VFmaxiter inp)%Z ->
     print_report inp st' = Converged (VFiter st')).
Proof.
  intros Hinp Hreach Hg Hb Hv Hv' Hnan.
  destruct (pass_diff inp st st' Hinp Hreach Hg Hb) as (diff & Hdist & _ & Hto).
  assert (PrimFloat.is_nan (VFdist st') = true) as Hd.
  { apply (amax_has_nan _ _ (PrimFloat.abs (v' - v)%float) Hdist); [| exact Hnan].
    apply elem_of_mjoin_cell. exists z, k. exact (Hto z k v v' Hv Hv'). }
  split; [exact Hd |]. split.
  - assert (guard inp st' = false) as Hstop.
    { apply guard_false. left.
      destruct (compare_nan (VFtol inp) (VFdist st')) as [_ H]; [right; exact Hd | exact H]. }
    intros fuel. destruct fuel; simpl; rewrite Hstop; reflexivity.
  - intros Hlt. unfold print_report.
    destruct (Z.ltb_spec (VFiter st') (VFmaxiter inp)); [reflexivity | lia].
Qed.

Lemma nan_change_ends_loop_witness :
  exists st0 st1 st2,
    init Inputs.infinite_payoff = Ok st0 /\
    body Inputs.infinite_payoff st0 = Ok st1 /\
    body Inputs.infinite_payoff st1 = Ok st2 /\
    cell2 (V st1) 0 0 = Some PrimFloat.infinity /\
    cell2 (V st2) 0 0 = Some PrimFloat.infinity /\
    PrimFloat.is_nan (VFdist st2) = true /\
    (forall fuel, vfi_loop Inputs.infinite_payoff fuel st2 = Some (Ok st2)) /\
    ((VFiter st2 < VFmaxiter Inputs.infinite_payoff)%Z ->
       print_report Inputs.infinite_payoff st2 = Converged (VFiter st2)).
Proof.
  eexists. eexists. eexists.
  split; [vm_compute; reflexivity |].
  split; [vm_compute; reflexivity |].
  split; [vm_compute; reflexivity |].
  split; [reflexivity |]. split; [reflexivity |].
  eapply (nan_change_ends_loop Inputs.infinite_payoff _ _ 0 0
            PrimFloat.infinity PrimFloat.infinity wf_input_infinite_payoff).
  - eapply reach_pass; [apply reach_init; vm_compute; reflexivity | |];
      vm_compute; reflexivity.
  - vm_compute. reflexivity.
  - vm_compute. reflexivity.
  - reflexivity.
  - reflexivity.
  - vm_compute. reflexivity.
Defined.

(** * The capital levels of the policy *)

Lemma map_result_lookup {A B : Type} (f : A -> result B) (l : list A)
    (l' : list B) (i : nat) (x : A) :
  map_result f l = Ok l' -> l !! i = Some x ->
  exists y, l' !! i = Some y /\ f x = Ok y.
Proof.
  rewrite map_result_Forall2. intros HF Hx.
  destruct (Forall2_lookup_l _ _ _ _ _ HF Hx) as (y & Hy & Hf).
  exists y. split; assumption.
Qed.

Lemma map_result_length {A B : Type} (f : A -> result B) (l : list A) (l' : list B) :
  map_result f l = Ok l' -> length l' = length l.
Proof.
  rewrite map_result_Forall2. intros HF. symmetry. exact (Forall2_length _ _ _ HF).
Qed.

Lemma map_result2_spec {A B : Type} (f : A -> result B) (n m : nat)
    (M : list (list A)) :
  is_matrix n m M ->
  (forall i j x, cell2 M i j = Some x -> exists y, f x = Ok y) ->
  exists R, map_result (map_result f) M = Ok R /\ is_matrix n m R /\
    forall i j x, cell2 M i j = Some x ->
      exists y, cell2 R i j = Some y /\ f x = Ok y.
Proof.
  intros [HM1 HM2] Hf.
  destruct (map_result_total (map_result f) M) as [R HR].
  { apply Forall_forall. intros row Hrow.
    apply list_elem_of_lookup in Hrow as [i Hi].
    apply map_result_total. apply Forall_forall. intros x Hx.
    apply list_elem_of_lookup in Hx as [j Hj].
    apply (Hf i j). unfold cell2. rewrite Hi. exact Hj. }
  exists R. split; [exact HR |]. split; [split |].
  - rewrite (map_result_length _ _ _ HR). exact HM1.
  - apply Forall_forall. intros r Hr.
    apply list_elem_of_lookup in Hr as [i Hi].
    apply map_result_Forall2 in HR.
    destruct (Forall2_lookup_r _ _ _ _ _ HR Hi) as (row & Hrow & Hmr).
    rewrite (map_result_length _ _ _ Hmr).
    rewrite Forall_forall in HM2. apply HM2.
    eapply list_elem_of_lookup_2. exact Hrow.
  - intros i j x Hx. unfold cell2 in *.
    destruct (M !! i) as [row|] eqn:Hi; [| discriminate].
    destruct (map_result_lookup _ _ _ _ _ HR Hi) as (r & Hr & Hmr).
    rewrite Hr. exact (map_result_lookup _ _ _ _ _ Hmr Hx).
Qed.

Module LevelsFacts.

Local Open Scope R_scope.

Lemma optK_spec (kv : list R) (PF : imatrix) (n m : nat) :
  is_matrix n m PF ->
  (forall i j c, cell2 PF i j = Some c ->
     (- Z.of_nat (length kv) <= c < Z.of_nat (length kv))%Z) ->
  exists oK, Levels.optK kv PF = Ok oK /\ is_matrix n m oK /\
    forall i j c, cell2 PF i j = Some c ->
      exists x, cell2 oK i j = Some x /\ kv !! Levels.subscript (length kv) c = Some x.
Proof.
  intros HPF Hrange.
  assert (forall c, (- Z.of_nat (length kv) <= c < Z.of_nat (length kv))%Z ->
            py_index (length kv) c = Ok (Levels.subscript (length kv) c) /\
            (Levels.subscript (length kv) c < length kv)%nat) as Hidx.
  { intros c Hc. unfold py_index, Levels.subscript.
    destruct (Z.ltb_spec c 0).
    - destruct (Z.ltb_spec (Z.of_nat (length kv) + c) 0); [lia |].
      split; [reflexivity | lia].
    - destruct (Z.ltb_spec c (Z.of_nat (length kv))); [| lia].
      split; [reflexivity | lia]. }
  destruct (map_result2_spec
              (fun c => let* t := py_index (length kv) c in getitem kv t) n m PF HPF)
    as (oK & HoK & Hsh & Hcells).
  { intros i j c Hc. destruct (Hidx c (Hrange i j c Hc)) as [Hpy Hlt].
    destruct (lookup_lt_is_Some_2 kv _ Hlt) as [x Hx].
    exists x. rewrite Hpy. simpl. apply getitem_Ok. exact Hx. }
  exists oK. split; [exact HoK |]. split; [exact Hsh |].
  intros i j c Hc. destruct (Hcells i j c Hc) as (x & Hx & Hg).
  destruct (Hidx c (Hrange i j c Hc)) as [Hpy _].
  rewrite Hpy in Hg. simpl in Hg. apply getitem_Ok in Hg.
  exists x. split; assumption.
Qed.

Lemma policy_levels (inp : input) (fuel : nat) (out : output) (kv : list R) :
  wf_input inp -> solve inp fuel = Some (Ok out) -> length kv = sizek inp ->
  exists Vi Va PF PFc oK,
    V_i (final out) = Some Vi /\ V_a (final out) = Some Va /\
    PF_continuous (final out) = Some PF /\
    PF_continuous_out out = Some PFc /\
    Levels.optK kv PFc = Ok oK /\ is_matrix (sizez inp) (sizek inp) oK /\
    is_matrix (sizez inp) (sizek inp) Vi /\ is_matrix (sizez inp) (sizek inp) Va /\
    forall z k vi va, cell2 Vi z k = Some vi -> cell2 Va z k = Some va ->
      if PrimFloat.leb va vi then
        ((dens inp <= Z.of_nat k)%Z ->
           cell2 oK z k = kv !! (k - Z.to_nat (dens inp))%nat) /\
        ((Z.of_nat k < dens inp)%Z ->
           cell2 oK z k = kv !! (sizek inp + k - Z.to_nat (dens inp))%nat)
      else
        exists c, cell2 PF z k = Some c /\ (0 <= c < Z.of_nat (sizek inp))%Z /\
          cell2 oK z k = kv !! Z.to_nat c.
Proof.
  intros Hinp Hsolve Hlen.
  pose proof Hinp as (_ & _ & Hd & _).
  destruct (policy_at_termination inp fuel out Hinp Hsolve)
    as (Vi & Va & PF & PFc & HVi & HVa & HPF & HPFc & HsVi & HsVa & _ & HsPFc &
        Harg & Hcells).
  destruct (solve_Ok inp fuel out Hsolve) as (st0 & st & pf & Hinit & Hloop & _ & _ & Hfin & _).
  pose proof (vfi_loop_reachable inp fuel st0 st Hinit Hloop) as Hreach.
  destruct (reachable_wf inp st Hinp Hreach) as [(_ & _ & HVmat & _) _].
  rewrite <- Hfin in HVmat.
  assert (forall z k c, cell2 PF z k = Some c -> (0 <= c < Z.of_nat (sizek inp))%Z)
    as HPFrange.
  { intros z k c Hc. destruct (Harg z k c Hc) as (row & Hrow & Hargmax).
    assert (length row = sizek inp) as Hlrow.
    { destruct HVmat as [_ Hplanes]. unfold cell2 in Hrow.
      destruct (Vmat (final out) !! z) as [plane|] eqn:Hpl; [| discriminate].
      rewrite Forall_forall in Hplanes.
      destruct (Hplanes plane (list_elem_of_lookup_2 _ _ _ Hpl)) as [_ Hrows].
      rewrite Forall_forall in Hrows. apply Hrows.
      eapply list_elem_of_lookup_2. exact Hrow. }
    destruct (amax_total row) as [a Ha].
    { intros ->. discriminate. }
    destruct (np_argmax_amax row a c Ha Hargmax) as [Hr _]. lia. }
  assert (forall z k c, cell2 PFc z k = Some c ->
            (- Z.of_nat (length kv) <= c < Z.of_nat (length kv))%Z) as HPFcrange.
  { intros z k c Hc. rewrite Hlen.
    destruct (cell2_Some_lt _ _ _ z k c HsPFc Hc) as [Hz Hk].
    destruct (cell2_length _ _ _ z k HsVi Hz Hk) as [vi Hvi].
    destruct (cell2_length _ _ _ z k HsVa Hz Hk) as [va Hva].
    specialize (Hcells z k vi va Hvi Hva). unfold policy_at in Hcells.
    destruct (PrimFloat.leb va vi).
    - destruct Hcells as [_ Hc']. rewrite Hc' in Hc. injection Hc as <-. lia.
    - assert (cell2 PFc z k = cell2 PF z k) as Heq
        by (destruct (PrimFloat.ltb vi va); exact (proj2 Hcells)).
      rewrite Heq in Hc. specialize (HPFrange z k c Hc). lia. }
  destruct (optK_spec kv PFc _ _ HsPFc HPFcrange) as (oK & HoK & HsoK & HcoK).
  exists Vi, Va, PF, PFc, oK. repeat (split; [assumption |]).
  intros z k vi va Hvi Hva.
  destruct (cell2_Some_lt _ _ _ z k vi HsVi Hvi) as [Hz Hk].
  destruct (cell2_length _ _ _ z k HsPFc Hz Hk) as [c Hc].
  destruct (HcoK z k c Hc) as (x & Hx & Hkv).
  specialize (Hcells z k vi va Hvi Hva). unfold policy_at in Hcells.
  destruct (PrimFloat.leb va vi).
  - destruct Hcells as [_ Hc']. rewrite Hc' in Hc. injection Hc as <-.
    rewrite Hx, <- Hkv. unfold Levels.subscript. split; intros Hcase.
    + destruct (Z.ltb_spec (Z.of_nat k - dens inp) 0); [lia |]. f_equal. lia.
    + destruct (Z.ltb_spec (Z.of_nat k - dens inp) 0); [| lia]. f_equal. lia.
  - assert (cell2 PFc z k = cell2 PF z k) as Heq
      by (destruct (PrimFloat.ltb vi va); exact (proj2 Hcells)).
    rewrite Heq in Hc. pose proof (HPFrange z k c Hc) as Hr.
    exists c. split; [exact Hc |]. split; [exact Hr |].
    rewrite Hx, <- Hkv. unfold Levels.subscript.
    destruct (Z.ltb_spec c 0); [lia | reflexivity].
Qed.

(** X11.  [kvec[PF_continuous]] never raises [IndexError] on the indices
    that cell 7 leaves, for a grid of [sizek] points: where the firm adjusts
    it reads the grid at the argmax, an index between 0 and [sizek - 1];
    where the firm is inactive it reads [kvec[k - dens]] when [k >= dens],
    and for [k < dens] the negative index wraps around to
    [kvec[sizek + k - dens]], near the top of the grid. *)
Theorem optK_subscripts_in_range (inp : input) (fuel : nat) (out : output)
    (kv : list R) :
  wf_input inp -> solve inp fuel = Some (Ok out) -> length kv = sizek inp ->
  exists Vi Va PF oK,
    V_i (final out) = Some Vi /\ V_a (final out) = Some Va /\
    PF_continuous (final out) = Some PF /\
    (exists PFc, PF_continuous_out out = Some PFc /\ Levels.optK kv PFc = Ok oK) /\
    is_matrix (sizez inp) (sizek inp) oK /\
    forall z k vi va, cell2 Vi z k = Some vi -> cell2 Va z k = Some va ->
      if PrimFloat.leb va vi then
        ((dens inp <= Z.of_nat k)%Z ->
           cell2 oK z k = kv !! (k - Z.to_nat (dens inp))%nat) /\
        ((Z.of_nat k < dens inp)%Z ->
           cell2 oK z k = kv !! (sizek inp + k - Z.to_nat (dens inp))%nat)
      else
        exists c, cell2 PF z k = Some c /\ (0 <= c < Z.of_nat (sizek inp))%Z /\
          cell2 oK z k = kv !! Z.to_nat c.
Proof.
  intros Hinp Hsolve Hlen.
  destruct (policy_levels inp fuel out kv Hinp Hsolve Hlen)
    as (Vi & Va & PF & PFc & oK & HVi & HVa & HPF & HPFc & HoK & HsoK & _ & _ & Hcells).
  exists Vi, Va, PF, oK. repeat (split; [assumption |]).
  split; [exists PFc; split; assumption |]. split; [exact HsoK | exact Hcells].
Qed.

Lemma optK_subscripts_in_range_witness :
  exists out, solve Inputs.inaction (enough_fuel Inputs.inaction) = Some (Ok out) /\
  exists Vi Va PF oK,
    V_i (final out) = Some Vi /\ V_a (final out) = Some Va /\
    PF_continuous (final out) = Some PF /\
    (exists PFc, PF_continuous_out out = Some PFc /\
       Levels.optK [1; 2; 3; 4; 5; 6] PFc = Ok oK) /\
    is_matrix (sizez Inputs.inaction) (sizek Inputs.inaction) oK /\
    forall z k vi va, cell2 Vi z k = Some vi -> cell2 Va z k = Some va ->
      if PrimFloat.leb va vi then
        ((dens Inputs.inaction <= Z.of_nat k)%Z ->
           cell2 oK z k =
           [1; 2; 3; 4; 5; 6] !! (k - Z.to_nat (dens Inputs.inaction))%nat) /\
        ((Z.of_nat k < dens Inputs.inaction)%Z ->
           cell2 oK z k =
           [1; 2; 3; 4; 5; 6] !!
             (sizek Inputs.inaction + k - Z.to_nat (dens Inputs.inaction))%nat)
      else
        exists c, cell2 PF z k = Some c /\
          (0 <= c < Z.of_nat (sizek Inputs.inaction))%Z /\
          cell2 oK z k = [1; 2; 3; 4; 5; 6] !! Z.to_nat c.
Proof.
  eexists. split; [vm_compute; reflexivity |].
  apply (optK_subscripts_in_range Inputs.inaction (enough_fuel Inputs.inaction)).
  - exact wf_input_inaction.
  - vm_compute. reflexivity.
  - reflexivity.
Defined.

End LevelsFacts.

(** * The flow payoffs *)

Module PayoffsFacts.

Import Grid.
Import Payoffs.
Local Open Scope R_scope.

(** ** Exceptions and the empty grid *)



Lemma for_range_skip {S : Type} (n : nat) (body : nat -> S -> result S) (s : S) :
  (forall i s', body i s' = Ok s') -> for_range n body s = Ok s.
Proof.
  intros Hb. unfold for_range. generalize 0%nat.
  induction n as [|n IH]; intros start; simpl; [reflexivity |].
  rewrite Hb. simpl. apply IH.
Qed.



(** X18.  On an empty grid the two loops over [k] never run: the cell
    raises nothing and returns the two arrays as [np.empty] left them,
    whatever the parameters, a wage of zero included. *)
Theorem payoffs_empty_grid (p : params) :
  sizek p = 0%nat ->
  payoffs p =
    Ok (empty3 (junk_e_a p) (sizez p) 0 0, empty2 (junk_e_i p) (sizez p) 0).
Proof.
  intros Hk. unfold payoffs. rewrite Hk.
  apply for_range_skip. intros i s. reflexivity.
Qed.

Lemma payoffs_empty_grid_witness :
  payoffs (with_technology sample (alpha_k sample) 0 []) =
  Ok (empty3 (junk_e_a sample) 2 0 0, empty2 (junk_e_i sample) 2 0).
Proof.
  apply (payoffs_empty_grid (with_technology sample (alpha_k sample) 0 [])).
  reflexivity.
Defined.

End PayoffsFacts.

(** * The plot of the investment rule *)

Lemma py_index_in_range (len : nat) (c : Z) :
  Plot.in_range len c ->
  py_index len c = Ok (Levels.subscript len c) /\
  (Levels.subscript len c < len)%nat.
Proof.
  unfold Plot.in_range, py_index, Levels.subscript. intros Hc.
  destruct (Z.ltb_spec c 0).
  - destruct (Z.ltb_spec (Z.of_nat len + c) 0); [lia |].
    split; [reflexivity | lia].
  - destruct (Z.ltb_spec c (Z.of_nat len)); [| lia].
    split; [reflexivity | lia].
Qed.

Lemma py_index_out_of_range (len : nat) (c : Z) :
  ~ Plot.in_range len c -> py_index len c = Raise IndexError.
Proof.
  unfold Plot.in_range, py_index. intros Hc.
  destruct (Z.ltb_spec c 0).
  - destruct (Z.ltb_spec (Z.of_nat len + c) 0); [reflexivity | lia].
  - destruct (Z.ltb_spec c (Z.of_nat len)); [lia | reflexivity].
Qed.

Module PlotFacts.

Import Plot.
Local Open Scope R_scope.

Lemma argmin_from_spec (l pre : list R) (mp : R) (best : nat) :
  pre !! best = Some mp ->
  Forall (fun y => mp <= y) pre ->
  (forall i y, (i < best)%nat -> pre !! i = Some y -> mp < y) ->
  exists m,
    (pre ++ l) !! argmin_from mp best (length pre) l = Some m /\
    Forall (fun y => m <= y) (pre ++ l) /\
    (forall i y, (i < argmin_from mp best (length pre) l)%nat ->
       (pre ++ l) !! i = Some y -> m < y).
Proof.
  revert pre mp best.
  induction l as [|x xs IH]; intros pre mp best Hbest Hpre Hfirst; simpl.
  - rewrite app_nil_r. exists mp. split; [exact Hbest |]. split; assumption.
  - replace (pre ++ x :: xs) with ((pre ++ [x]) ++ xs)
      by (rewrite <- app_assoc; reflexivity).
    replace (S (length pre)) with (length (pre ++ [x]))
      by (rewrite length_app; simpl; lia).
    pose proof (lookup_lt_Some _ _ _ Hbest) as Hlt.
    destruct (Rlt_dec x mp) as [Hx|Hx].
    + apply IH.
      * rewrite lookup_app_r by lia. rewrite Nat.sub_diag. reflexivity.
      * apply Forall_app. split.
        -- eapply Forall_impl; [exact Hpre |]. intros y Hy. simpl in Hy. lra.
        -- constructor; [lra | constructor].
      * intros i y Hi Hy. rewrite lookup_app_l in Hy by lia.
        rewrite Forall_forall in Hpre.
        pose proof (Hpre y (list_elem_of_lookup_2 _ _ _ Hy)). lra.
    + apply IH.
      * apply lookup_app_l_Some. exact Hbest.
      * apply Forall_app. split; [exact Hpre | constructor; [lra | constructor]].
      * intros i y Hi Hy. apply (Hfirst i y Hi).
        rewrite lookup_app_l in Hy by lia. exact Hy.
Qed.

Lemma np_argmin_spec (l : list R) :
  l <> [] ->
  exists i m, np_argmin l = Ok i /\ l !! i = Some m /\
    Forall (fun y => m <= y) l /\
    (forall j y, (j < i)%nat -> l !! j = Some y -> m < y).
Proof.
  destruct l as [|x xs]; [congruence |]. intros _. simpl.
  destruct (argmin_from_spec xs [x] x 0 eq_refl) as (m & Hm & Hmin & Hfirst).
  - constructor; [lra | constructor].
  - intros i y Hi. lia.
  - exists (argmin_from x 0 1 xs), m. split; [reflexivity |].
    split; [exact Hm |]. split; [exact Hmin | exact Hfirst].
Qed.

Lemma ind_spec (kvec : list R) (kstar : R) :
  kvec <> [] ->
  exists i k, ind kvec kstar = Ok i /\ kvec !! i = Some k /\
    (forall j k', kvec !! j = Some k' -> Rabs (k - kstar) <= Rabs (k' - kstar)) /\
    (forall j k', (j < i)%nat -> kvec !! j = Some k' ->
       Rabs (k - kstar) < Rabs (k' - kstar)).
Proof.
  intros Hne. unfold ind.
  destruct (np_argmin_spec (map (fun k => Rabs (k - kstar)) kvec))
    as (i & m & Harg & Hm & Hmin & Hfirst).
  { destruct kvec; [congruence | discriminate]. }
  change (map (fun k => Rabs (k - kstar)) kvec)
    with ((fun k => Rabs (k - kstar)) <$> kvec) in *.
  rewrite list_lookup_fmap in Hm.
  destruct (kvec !! i) as [k|] eqn:Hk; [| discriminate].
  injection Hm as <-.
  exists i, k. split; [exact Harg |]. split; [exact Hk |]. split.
  - intros j k' Hk'. rewrite Forall_forall in Hmin. apply Hmin.
    apply list_elem_of_fmap. exists k'. split; [reflexivity |].
    eapply list_elem_of_lookup_2. exact Hk'.
  - intros j k' Hj Hk'. apply (Hfirst j _ Hj).
    rewrite list_lookup_fmap, Hk'. reflexivity.
Qed.

Lemma curve_in_range (z kvec : list R) (optI : list (list R)) (c : Z) (n m : nat) :
  is_matrix n m optI -> length kvec = m -> length z = n -> in_range m c ->
  exists y k, curve z kvec optI c = Ok (y, k) /\
    kvec !! Levels.subscript m c = Some k.
Proof.
  intros HoI Hlk Hlz Hc.
  destruct (py_index_in_range m c Hc) as [Hpy Hlt].
  destruct (lookup_lt_is_Some_2 kvec (Levels.subscript m c)) as [k Hk]; [lia |].
  destruct (map_result_total
              (fun row => let* t := py_index (length row) c in getitem row t) optI)
    as [col Hcol].
  { apply Forall_forall. intros row Hrow.
    destruct HoI as [_ Hrows]. rewrite Forall_forall in Hrows.
    rewrite (Hrows row Hrow), Hpy. simpl.
    destruct (lookup_lt_is_Some_2 row (Levels.subscript m c)) as [x Hx];
      [rewrite (Hrows row Hrow); exact Hlt |].
    exists x. apply getitem_Ok. exact Hx. }
  eexists. exists k. split; [| exact Hk].
  unfold curve. rewrite Hcol. simpl. rewrite Hlk, Hpy. simpl.
  pose proof Hk as Hk'. apply getitem_Ok in Hk'. rewrite Hk'. simpl.
  rewrite length_map, (map_result_length _ _ _ Hcol).
  destruct HoI as [Hn _].
  destruct (decide (length z = length optI)); [reflexivity | lia].
Qed.

Lemma curve_out_of_range (z kvec : list R) (optI : list (list R)) (c : Z)
    (n m : nat) :
  is_matrix n m optI -> length kvec = m -> ~ in_range m c ->
  curve z kvec optI c = Raise IndexError.
Proof.
  intros [_ Hrows] Hlk Hc. unfold curve.
  destruct optI as [|row rows]; simpl.
  - rewrite Hlk, (py_index_out_of_range m c Hc). reflexivity.
  - apply Forall_cons in Hrows as [Hrow _].
    rewrite Hrow, (py_index_out_of_range m c Hc). reflexivity.
Qed.

Lemma cell10_spec (z kvec : list R) (optI : list (list R)) (kstar : R)
    (dens : Z) (i n m : nat) :
  is_matrix n m optI -> length kvec = m -> length z = n ->
  ind kvec kstar = Ok i ->
  (in_range m (Z.of_nat i - dens * 3) /\ in_range m (Z.of_nat i + dens * 3) ->
   exists low mid high,
     cell10 z kvec optI kstar dens = Ok [low; mid; high] /\
     kvec !! Levels.subscript m (Z.of_nat i - dens * 3) = Some (snd low) /\
     kvec !! i = Some (snd mid) /\
     kvec !! Levels.subscript m (Z.of_nat i + dens * 3) = Some (snd high)) /\
  (~ (in_range m (Z.of_nat i - dens * 3) /\ in_range m (Z.of_nat i + dens * 3)) ->
   cell10 z kvec optI kstar dens = Raise IndexError).
Proof.
  intros HoI Hlk Hlz Hind.
  assert (in_range m (Z.of_nat i)) as Hi.
  { destruct (ind_spec kvec kstar) as (i' & k & Hind' & Hk & _).
    - intros ->. discriminate.
    - assert (i' = i) as -> by congruence.
      apply lookup_lt_Some in Hk. unfold in_range. lia. }
  destruct (curve_in_range z kvec optI _ n m HoI Hlk Hlz Hi) as (ym & km & Hmid & Hkm).
  assert (Levels.subscript m (Z.of_nat i) = i) as Hsub.
  { unfold Levels.subscript. destruct (Z.ltb_spec (Z.of_nat i) 0); lia. }
  rewrite Hsub in Hkm.
  split.
  - intros [Hlow Hhigh].
    destruct (curve_in_range z kvec optI _ n m HoI Hlk Hlz Hlow) as (yl & kl & Hl & Hkl).
    destruct (curve_in_range z kvec optI _ n m HoI Hlk Hlz Hhigh) as (yh & kh & Hh & Hkh).
    exists (yl, kl), (ym, km), (yh, kh).
    split; [| split; [exact Hkl | split; [exact Hkm | exact Hkh]]].
    unfold cell10. rewrite Hind. simpl. rewrite Hl. simpl. rewrite Hmid. simpl.
    rewrite Hh. reflexivity.
  - intros Hnot. unfold cell10. rewrite Hind. simpl.
    destruct (decide (in_range m (Z.of_nat i - dens * 3))) as [Hlow|Hlow].
    + destruct (curve_in_range z kvec optI _ n m HoI Hlk Hlz Hlow) as (yl & kl & Hl & _).
      rewrite Hl. simpl. rewrite Hmid. simpl.
      rewrite (curve_out_of_range z kvec optI _ n m HoI Hlk); [reflexivity | tauto].
    + rewrite (curve_out_of_range z kvec optI _ n m HoI Hlk Hlow). reflexivity.
Qed.

(** X21.  The plot cell raises [IndexError] exactly when one of the
    subscripts [ind - dens * 3] and [ind + dens * 3] is outside
    [-sizek, sizek); otherwise it raises nothing, and a negative
    [ind - dens * 3] is read from the end of the grid: the first curve is
    the one at [kvec[sizek + ind - dens * 3]]. *)
Theorem plot_subscripts (z kvec : list R) (optI : list (list R)) (kstar : R)
    (dens : Z) (i n m : nat) :
  is_matrix n m optI -> length kvec = m -> length z = n ->
  ind kvec kstar = Ok i ->
  (cell10 z kvec optI kstar dens = Raise IndexError <->
   ~ (in_range m (Z.of_nat i - dens * 3) /\ in_range m (Z.of_nat i + dens * 3))) /\
  (in_range m (Z.of_nat i - dens * 3) /\ in_range m (Z.of_nat i + dens * 3) ->
   exists low mid high,
     cell10 z kvec optI kstar dens = Ok [low; mid; high] /\
     kvec !! Levels.subscript m (Z.of_nat i - dens * 3) = Some (snd low) /\
     kvec !! i = Some (snd mid) /\
     kvec !! Levels.subscript m (Z.of_nat i + dens * 3) = Some (snd high)).
Proof.
  intros HoI Hlk Hlz Hind.
  destruct (cell10_spec z kvec optI kstar dens i n m HoI Hlk Hlz Hind)
    as [Hok Herr].
  split; [| exact Hok]. split; [| exact Herr].
  intros Hraise Hin.
  destruct (Hok Hin) as (low & mid & high & Hrun & _). congruence.
Qed.

Lemma plot_subscripts_witness :
  exists i,
    ind [1; 2; 3; 4; 5; 6; 7] 4 = Ok i /\
    (cell10 [1; 1] [1; 2; 3; 4; 5; 6; 7] (replicate 2 (replicate 7 0)) 4 1 =
       Raise IndexError <->
     ~ (in_range 7 (Z.of_nat i - 1 * 3) /\ in_range 7 (Z.of_nat i + 1 * 3))) /\
    (in_range 7 (Z.of_nat i - 1 * 3) /\ in_range 7 (Z.of_nat i + 1 * 3) ->
     exists low mid high,
       cell10 [1; 1] [1; 2; 3; 4; 5; 6; 7] (replicate 2 (replicate 7 0)) 4 1 =
         Ok [low; mid; high] /\
       [1; 2; 3; 4; 5; 6; 7] !! Levels.subscript 7 (Z.of_nat i - 1 * 3) =
         Some (snd low) /\
       [1; 2; 3; 4; 5; 6; 7] !! i = Some (snd mid) /\
       [1; 2; 3; 4; 5; 6; 7] !! Levels.subscript 7 (Z.of_nat i + 1 * 3) =
         Some (snd high)).
Proof.
  destruct (ind_spec [1; 2; 3; 4; 5; 6; 7] 4) as (i & k & Hind & _);
    [discriminate |].
  exists i. split; [exact Hind |].
  apply (plot_subscripts [1; 1] [1; 2; 3; 4; 5; 6; 7]
           (replicate 2 (replicate 7 0)) 4 1 i 2 7).
  - split; [reflexivity | repeat constructor].
  - reflexivity.
  - reflexivity.
  - exact Hind.
Defined.

End PlotFacts.
